(** * openclaw-bridge: the connection, authentication and correlation core

    A shallow embedding of [scripts/openclaw-bridge.js] and the properties
    its specification states about it.

    The script is a single-threaded Node.js program.  Everything it does
    happens inside event handlers ([ws.onmessage], timer callbacks,
    [ws.onclose], signal handlers); each handler runs to completion, and the
    continuations of the promises it settled run right after it, before the
    next event.  The embedding follows that structure:

    - JavaScript values that come off the wire or off the disk are [JSON]
      values; the operators used on them ([?.], [??], [===], truthiness)
      are written out; a string is held as its UTF-8 encoding, and a number
      is an integer that JavaScript holds exactly;
    - [pending] is a JavaScript [Map] (insertion ordered), objects used
      as dictionaries are finite maps;
    - promises are numbered; every call of a [resolve] or [reject] function
      is appended to the log [settled], and the code after an [await] is a
      defunctionalised continuation ([Kont]) run by [drain];
    - the file system is the single file [device-auth.json]; timers, the
      clock and the socket are fields of the state; output, frames sent and
      file operations are appended to an effect trace.

    What the script does before it opens the connection (the command
    line, the gateway token, the device identity, the encoding of keys) is
    embedded as functions of what it reads. *)

From Stdlib Require Import ZArith NArith String Ascii List Bool Lia.
From Stdlib Require Import Decimal DecimalString DecimalN DecimalZ.
From Stdlib.Strings Require Byte.
From stdpp Require Import base option gmap strings list.

Set Warnings "-register-all".
Local Open Scope string_scope.
Local Open Scope list_scope.

(** ** JavaScript values *)

Module Js.

(** Values produced by [JSON.parse].  Numbers are the integers; fractions
    play no part in this program (a fractional [version] differs from [1]
    just as [2] does). *)
Inductive JSON :=
| JNull
| JBool (b : bool)
| JNum (n : Z)
| JStr (s : string)
| JArr (l : list JSON)
| JObj (o : gmap string JSON).

(** What a promise is settled with, and what [console.log] is handed:
    [undefined], a JSON value or an [Error] object. *)
Inductive Value :=
| VUndef
| VJson (j : JSON)
| VError (message : string).

(** The result of reading a property is [option JSON]: [None] is
    [undefined]. *)
Definition of_prop (v : option JSON) : Value :=
  match v with
  | None => VUndef
  | Some j => VJson j
  end.

(** [String(n)] for a non-negative integer and for any integer. *)
Definition String_of_N (n : N) : string :=
  NilZero.string_of_uint (N.to_uint n).

Definition String_of_Z (z : Z) : string :=
  NilZero.string_of_int (Z.to_int z).

(** [ToBoolean]. *)
Definition truthy (j : JSON) : bool :=
  match j with
  | JNull => false
  | JBool b => b
  | JNum n => negb (n =? 0)%Z
  | JStr s => negb (bool_decide (s = EmptyString))
  | JArr _ | JObj _ => true
  end.

Definition truthy_prop (v : option JSON) : bool :=
  match v with
  | None => false
  | Some j => truthy j
  end.

Definition truthy_value (v : Value) : bool :=
  match v with
  | VUndef => false
  | VJson j => truthy j
  | VError _ => true
  end.

(** [a === b] for two values that were not obtained from one another:
    primitives compare by value, two arrays or two objects are different
    references. *)
Definition strict_eq (a b : option JSON) : bool :=
  match a, b with
  | None, None => true
  | Some JNull, Some JNull => true
  | Some (JBool x), Some (JBool y) => bool_decide (x = y)
  | Some (JNum x), Some (JNum y) => bool_decide (x = y)
  | Some (JStr x), Some (JStr y) => bool_decide (x = y)
  | _, _ => false
  end.

(** The largest integer [n] such that [n] and [n + 1] are both held
    exactly by a JavaScript number, [Number.MAX_SAFE_INTEGER]; up to it
    [String] writes a number as its decimal numeral, digit for digit. *)
Definition MAX_SAFE_INTEGER : Z := 2 ^ 53 - 1.

Definition safe_integer (n : Z) : bool := (Z.abs n <=? MAX_SAFE_INTEGER)%Z.

(** The UTF-8 encoding of a code point, and the code points of a string.
    A surrogate is encoded like any other code point below [2^16]. *)
Definition encode (cp : N) : string :=
  string_of_list_ascii
    (map ascii_of_N
       (if cp <? 128 then [cp]
        else if cp <? 2048 then [192 + cp / 64; 128 + cp mod 64]
        else if cp <? 65536
             then [224 + cp / 4096; 128 + cp / 64 mod 64; 128 + cp mod 64]
             else [240 + cp / 262144; 128 + cp / 4096 mod 64;
                   128 + cp / 64 mod 64; 128 + cp mod 64])%N).

Fixpoint code_points (s : string) : list N :=
  let low b := (N_of_ascii b mod 64)%N in
  match s with
  | EmptyString => []
  | String b0 s1 =>
      let n0 := N_of_ascii b0 in
      if (n0 <? 192)%N then n0 :: code_points s1
      else
        match s1 with
        | EmptyString => [n0]
        | String b1 s2 =>
            if (n0 <? 224)%N
            then (n0 mod 32 * 64 + low b1)%N :: code_points s2
            else
              match s2 with
              | EmptyString => [n0]
              | String b2 s3 =>
                  if (n0 <? 240)%N
                  then (n0 mod 16 * 4096 + low b1 * 64 + low b2)%N
                       :: code_points s3
                  else
                    match s3 with
                    | EmptyString => [n0]
                    | String b3 s4 =>
                        (n0 mod 8 * 262144 + low b1 * 4096 + low b2 * 64
                         + low b3)%N :: code_points s4
                    end
              end
        end
  end.

(** The UTF-16 code units of a string, which [length] counts and an index
    selects: a code point from [2^16] on is a pair of surrogates. *)
Definition code_units (s : string) : list N :=
  flat_map
    (fun cp =>
       if (cp <? 65536)%N then [cp]
       else [55296 + (cp - 65536) / 1024; 56320 + (cp - 65536) mod 1024]%N)
    (code_points s).

(** A canonical array index: the decimal string of an integer below
    [2^32 - 1]. *)
Definition array_index (k : string) : option nat :=
  match NilZero.uint_of_string k with
  | Some d =>
      let n := N.of_uint d in
      if bool_decide (String_of_N n = k) && (n <? 4294967295)%N
      then Some (N.to_nat n) else None
  | None => None
  end.

(** [o[k]] on a value that is neither [null] nor [undefined].  Own
    properties only: what an object inherits from its prototype (methods,
    [constructor], the [__proto__] accessor) has none of the fields this
    program goes on to read, and reads as [undefined] here.  The [length]
    and the indices of a string are those of its code units. *)
Definition get_prop (j : JSON) (k : string) : option JSON :=
  match j with
  | JObj o => o !! k
  | JArr l =>
      if bool_decide (k = "length") then Some (JNum (Z.of_nat (length l)))
      else match array_index k with
           | Some i => l !! i
           | None => None
           end
  | JStr s =>
      if bool_decide (k = "length")
      then Some (JNum (Z.of_nat (length (code_units s))))
      else match array_index k with
           | Some i => (fun u => JStr (encode u)) <$> code_units s !! i
           | None => None
           end
  | JNull | JBool _ | JNum _ => None
  end.

(** [v?.k] and [v?.[k]]. *)
Definition optchain (v : option JSON) (k : string) : option JSON :=
  match v with
  | None | Some JNull => None
  | Some j => get_prop j k
  end.

(** [v ?? d]. *)
Definition nullish_or (v : option JSON) (d : JSON) : JSON :=
  match v with
  | None | Some JNull => d
  | Some j => j
  end.

(** [v || d]. *)
Definition falsy_or (v : option JSON) (d : JSON) : JSON :=
  match v with
  | Some j => if truthy j then j else d
  | None => d
  end.

(** [ToString], as applied by [Array.prototype.join] and by [+] on a
    string.  A number is written as its decimal numeral, which is what
    JavaScript writes for a [safe_integer]. *)
Fixpoint ToString (j : JSON) : string :=
  match j with
  | JNull => "null"
  | JBool true => "true"
  | JBool false => "false"
  | JNum n => String_of_Z n
  | JStr s => s
  | JArr l =>
      String.concat ","
        (map (fun x => match x with JNull => EmptyString | _ => ToString x end) l)
  | JObj _ => "[object Object]"
  end.

(** [arr.join(sep)]: [null] elements are rendered as the empty string. *)
Definition Array_join (sep : string) (arr : list JSON) : string :=
  String.concat sep
    (map (fun x => match x with JNull => EmptyString | _ => ToString x end) arr).

(** [typeof] of a primitive, for the text of a [TypeError]. *)
Definition typeof (j : JSON) : string :=
  match j with
  | JNull | JArr _ | JObj _ => "object"
  | JBool _ => "boolean"
  | JNum _ => "number"
  | JStr _ => "string"
  end.

(** [target[k] = v] in strict mode, seen through a later [JSON.stringify]:
    the result is the value that will be serialised, or the message of the
    error thrown.
    - On an object the assignment creates or overwrites the own property
      [k], except for [k = "__proto__"] when the object has no own property
      of that name: the assignment then reaches the accessor of
      [Object.prototype], replaces the prototype and adds no property.
    - On an array an index writes the element (growing the array, the
      holes serialise as [null]), [length] rejects a non-numeric value, and
      any other key is an expando property that [JSON.stringify] skips.
    - On a primitive strict mode throws a [TypeError]: the [length] and
      the code units of a string are read-only, and nothing else can be
      created. *)
Definition set_prop (target : JSON) (k : string) (v : JSON) : string + JSON :=
  match target with
  | JObj o =>
      if bool_decide (k = "__proto__") && bool_decide (o !! k = None)
      then inr (JObj o)
      else inr (JObj (<[k := v]> o))
  | JArr l =>
      match array_index k with
      | Some i =>
          inr (JArr (<[i := v]> (l ++ replicate (S i - length l) JNull)))
      | None =>
          if bool_decide (k = "length") then inl "Invalid array length"
          else inr (JArr l)
      end
  | JNull =>
      inl ("Cannot set properties of null (setting '" +:+ k +:+ "')")
  | JBool _ | JNum _ | JStr _ =>
      let own :=
        match target with
        | JStr s =>
            bool_decide (k = "length")
            || match array_index k with
               | Some i => Nat.ltb i (length (code_units s))
               | None => false
               end
        | _ => false
        end in
      if own
      then inl ("Cannot assign to read only property '" +:+ k +:+ "' of "
                +:+ typeof target +:+ " '" +:+ ToString target +:+ "'")
      else inl ("Cannot create property '" +:+ k +:+ "' on " +:+ typeof target
                +:+ " '" +:+ ToString target +:+ "'")
  end.

(** [hay.includes(needle)]. *)
Fixpoint includes (needle hay : string) : bool :=
  String.prefix needle hay ||
  match hay with
  | EmptyString => false
  | String _ rest => includes needle rest
  end.

(** An object literal. *)
Definition obj (fields : list (string * JSON)) : JSON :=
  JObj (list_to_map fields).

(** A JavaScript [Map] with string keys: entries are kept in insertion
    order, [set] on a present key replaces the value in place. *)
Module Map.

Definition t (V : Type) : Type := list (string * V).

Fixpoint get {V} (k : string) (m : t V) : option V :=
  match m with
  | [] => None
  | (k', v) :: m' => if decide (k = k') then Some v else get k m'
  end.

Fixpoint set {V} (k : string) (v : V) (m : t V) : t V :=
  match m with
  | [] => [(k, v)]
  | (k', v') :: m' =>
      if decide (k = k') then (k, v) :: m' else (k', v') :: set k v m'
  end.

Fixpoint delete {V} (k : string) (m : t V) : t V :=
  match m with
  | [] => []
  | (k', v') :: m' =>
      if decide (k = k') then delete k m' else (k', v') :: delete k m'
  end.

Definition clear {V} (m : t V) : t V := [].

Definition values {V} (m : t V) : list V := map snd m.

End Map.

End Js.

Import Js.

(** ** The Node.js runtime

    Built-ins the script calls and that are not part of it.  [JSON.stringify]
    yields the text of error messages; the two cryptographic functions of
    the script wrap [crypto.sign] and the key export. *)
Class Runtime := {
  JSON_stringify : JSON -> string;
  signPayload : string -> string -> string;
  derivePublicKeyRaw : string -> string;
  base64UrlEncode : string -> string
}.

(** ** Signer: the canonical payload *)

Module Signer.

Record Params := {
  deviceId : string;
  clientId : string;
  clientMode : string;
  role : string;
  scopes : list string;
  signedAtMs : N;
  token : option JSON
}.

(** [buildDeviceAuthPayload], lines 123-127.  [signedAtMs] is a time, what
    [Date.now()] returned: a [safe_integer], which [String] writes as its
    decimal numeral. *)
Definition buildDeviceAuthPayload (params : Params) : string :=
  let scopes := Array_join "," (map JStr (scopes params)) in
  let token := nullish_or (token params) (JStr EmptyString) in
  Array_join "|"
    [JStr "v1"; JStr (deviceId params); JStr (clientId params);
     JStr (clientMode params); JStr (role params); JStr scopes;
     JStr (String_of_N (signedAtMs params)); token].

(** The payload as the specification words it: the eight fields in order,
    a ['|'] between two neighbours, the scopes separated by [','], an
    absent token as the empty string. *)
Fixpoint comma_joined (scopes : list string) : string :=
  match scopes with
  | [] => EmptyString
  | [x] => x
  | x :: rest => x +:+ "," +:+ comma_joined rest
  end.

Definition canonical_payload
  (deviceId clientId clientMode role : string) (scopes : list string)
  (signedAtMs : N) (token : option string) : string :=
  "v1" +:+ "|" +:+ deviceId +:+ "|" +:+ clientId +:+ "|" +:+ clientMode
  +:+ "|" +:+ role +:+ "|" +:+ comma_joined scopes
  +:+ "|" +:+ String_of_N signedAtMs
  +:+ "|" +:+ default EmptyString token.

End Signer.

(** ** Token cache: [device-auth.json] *)

Module TokenCache.

(** The file is absent, holds text that [JSON.parse] rejects, or holds a
    JSON value.  [mkdirSync] and [writeFileSync] are taken to succeed, and
    [JSON.parse] to invert [JSON.stringify]. *)
Inductive Content :=
| Garbled
| Parsed (data : JSON).

Definition File := option Content.

(** The record of [deviceId] in the file: [d?.version === 1 &&
    d.deviceId === deviceId], used by both functions. *)
Definition is_record_of (deviceId : string) (d : JSON) : bool :=
  strict_eq (optchain (Some d) "version") (Some (JNum 1))
  && strict_eq (get_prop d "deviceId") (Some (JStr deviceId)).

(** [data.tokens?.[role]] of [loadStoredDeviceToken], line 134, for a file
    that passed the checks of lines 131-133. *)
Definition storedEntry (deviceId role : string) (file : File) : option JSON :=
  match file with
  | None => None
  | Some Garbled => None
  | Some (Parsed data) =>
      if negb (is_record_of deviceId data) then None
      else optchain (get_prop data "tokens") role
  end.

(** [loadStoredDeviceToken], lines 129-137. *)
Definition loadStoredDeviceToken (deviceId role : string) (file : File) : JSON :=
  match file with
  | None => JNull
  | Some Garbled => JNull
  | Some (Parsed data) =>
      if negb (is_record_of deviceId data) then JNull
      else
        let entry := optchain (get_prop data "tokens") role in
        nullish_or (optchain entry "token") JNull
  end.

(** [storeDeviceToken], lines 139-157; [now] is [Date.now()].  The result
    is the new file, or the message of the error thrown by line 154. *)
Definition storeDeviceToken (deviceId role : string) (token scopes : JSON)
    (now : N) (file : File) : string + File :=
  let existing :=
    match file with
    | Some (Parsed d) => if is_record_of deviceId d then Some d else None
    | _ => None
    end in
  let tokens := nullish_or (optchain existing "tokens") (JObj ∅) in
  let entry :=
    obj [("token", token); ("role", JStr role); ("scopes", scopes);
         ("updatedAtMs", JNum (Z.of_N now))] in
  match set_prop tokens role entry with
  | inl message => inl message
  | inr tokens' =>
      inr (Some (Parsed (obj [("version", JNum 1);
                              ("deviceId", JStr deviceId);
                              ("tokens", tokens')])))
  end.

(** [fs.unlinkSync(DEVICE_AUTH_FILE)] inside [try { } catch {}]: the file
    is gone afterwards; unlinking a missing file throws and is ignored. *)
Definition unlinkSync (file : File) : File := None.

End TokenCache.

(** ** The bridge: state, handlers and continuations *)

Module Bridge.

Import TokenCache.

(** *** Constants, lines 9-13 and 182-183 *)

Definition CONNECTION_TIMEOUT : N := 5000.
Definition OPERATION_TIMEOUT : N := 10000.

Definition EXIT_CONN : Z := 1.
Definition EXIT_AUTH : Z := 2.
Definition EXIT_OP : Z := 3.
Definition EXIT_TIMEOUT : Z := 4.
Definition EXIT_USAGE : Z := 5.

Definition ROLE : string := "operator".

Definition SCOPES : list string :=
  ["operator.read"; "operator.write"; "operator.admin";
   "operator.approvals"; "operator.pairing"].

(** *** What the start of the script computes, lines 34-75 and 180-185 *)

(** The validated command line.  [history]'s limit is
    [parseInt(cliArgs[2], 10)] when the argument is given and not empty. *)
Inductive Command :=
| CmdStatus
| CmdSessions
| CmdSend (sessionKey message : string)
| CmdInject (sessionKey text : string) (label : option string)
| CmdHistory (sessionKey : string) (limit : option Z)
| CmdAbort (sessionKey : string)
| CmdCronList
| CmdCronRun (jobId : string).

Record Identity := {
  deviceId : string;
  publicKeyPem : string;
  privateKeyPem : string
}.

(** The constants of lines 11-17 and 180-185, and the file and the clock
    as the script finds them when it starts. *)
Record Config := {
  IDENTITY : Identity;
  TOKEN : string;
  command : Command;
  SEND_TIMEOUT : N;
  url : string;
  platform : string;
  uuid : string;
  startFile : File;
  startClock : N
}.

(** Line 184: read once, before the connection is opened. *)
Definition STORED_DEVICE_TOKEN (c : Config) : JSON :=
  loadStoredDeviceToken (deviceId (IDENTITY c)) ROLE (startFile c).

(** *** Promises, timers and the pending table *)

Inductive Outcome :=
| Fulfilled (v : Value)
| Rejected (v : Value).

(** A [resolve] or a [reject] function of promise [target]. *)
Inductive How := Resolve | Reject.

Record Settler := { target : nat; how : How }.

Definition outcome_of (f : Settler) (v : Value) : Outcome :=
  match how f with
  | Resolve => Fulfilled v
  | Reject => Rejected v
  end.

(** A value of the [pending] map: [{ resolve, reject, timer }]. *)
Record Entry := { resolve : Settler; reject : Settler; timer : nat }.

(** The entry of a call, line 202: the two functions of its promise. *)
Definition call_entry (p t : nat) : Entry :=
  {| resolve := {| target := p; how := Resolve |};
     reject := {| target := p; how := Reject |};
     timer := t |}.

(** The entry of the completion wait, line 258:
    [{ resolve, reject: resolve, timer }]. *)
Definition wait_entry (p t : nat) : Entry :=
  {| resolve := {| target := p; how := Resolve |};
     reject := {| target := p; how := Resolve |};
     timer := t |}.

(** The three timer callbacks of the script: the one of [sendReq]
    (lines 198-201), the one of [runSend] (lines 254-257) and [connTimer]
    (lines 279-281). *)
Inductive TimerAction :=
| TCall (id method : string) (promise : nat)
| TSendWait (promise : nat)
| TConn.

Record Timer := { delay : N; action : TimerAction }.

(** The code that waits for a promise: what follows each [await]. *)
Inductive Kont :=
| KCaller
| KConnect
| KRetry
| KCommand
| KChatSend
| KSendWait.

Inductive ReadyState := CONNECTING | OPEN | CLOSING | CLOSED.

Inductive Effect :=
| Send (frame : JSON)
| WsClose
| Stdout (v : Value)      (* console.log(JSON.stringify(v, null, 2)) *)
| Stderr (line : string)
| Unlink
| WriteFile (data : JSON)
| Exit (code : Z).

(** *** The state of the process *)

Record State := mkState {
  proc : Config;
  (* variables of the script, lines 188-192 *)
  msgId : N;
  pending : Map.t Entry;
  authenticated : bool;
  sendRunId : option JSON;
  connectNonce : JSON;
  (* the runtime *)
  timers : gmap nat Timer;
  nextTimer : nat;
  awaiting : gmap nat Kont;
  nextPromise : nat;
  settled : list (nat * Outcome);
  jobs : list (nat * Outcome);
  readyState : ReadyState;
  clock : N;
  authFile : File;
  trace : list Effect;
  exited : option Z
}.

Definition set_msgId (x : N) (s : State) : State :=
  mkState (proc s) x (pending s) (authenticated s) (sendRunId s)
    (connectNonce s) (timers s) (nextTimer s) (awaiting s) (nextPromise s)
    (settled s) (jobs s) (readyState s) (clock s) (authFile s) (trace s)
    (exited s).

Definition set_pending (x : Map.t Entry) (s : State) : State :=
  mkState (proc s) (msgId s) x (authenticated s) (sendRunId s)
    (connectNonce s) (timers s) (nextTimer s) (awaiting s) (nextPromise s)
    (settled s) (jobs s) (readyState s) (clock s) (authFile s) (trace s)
    (exited s).

Definition set_authenticated (x : bool) (s : State) : State :=
  mkState (proc s) (msgId s) (pending s) x (sendRunId s)
    (connectNonce s) (timers s) (nextTimer s) (awaiting s) (nextPromise s)
    (settled s) (jobs s) (readyState s) (clock s) (authFile s) (trace s)
    (exited s).

Definition set_sendRunId (x : option JSON) (s : State) : State :=
  mkState (proc s) (msgId s) (pending s) (authenticated s) x
    (connectNonce s) (timers s) (nextTimer s) (awaiting s) (nextPromise s)
    (settled s) (jobs s) (readyState s) (clock s) (authFile s) (trace s)
    (exited s).

Definition set_connectNonce (x : JSON) (s : State) : State :=
  mkState (proc s) (msgId s) (pending s) (authenticated s) (sendRunId s)
    x (timers s) (nextTimer s) (awaiting s) (nextPromise s)
    (settled s) (jobs s) (readyState s) (clock s) (authFile s) (trace s)
    (exited s).

Definition set_timers (x : gmap nat Timer) (n : nat) (s : State) : State :=
  mkState (proc s) (msgId s) (pending s) (authenticated s) (sendRunId s)
    (connectNonce s) x n (awaiting s) (nextPromise s)
    (settled s) (jobs s) (readyState s) (clock s) (authFile s) (trace s)
    (exited s).

Definition set_awaiting (x : gmap nat Kont) (n : nat) (s : State) : State :=
  mkState (proc s) (msgId s) (pending s) (authenticated s) (sendRunId s)
    (connectNonce s) (timers s) (nextTimer s) x n
    (settled s) (jobs s) (readyState s) (clock s) (authFile s) (trace s)
    (exited s).

Definition set_settled (x y : list (nat * Outcome)) (s : State) : State :=
  mkState (proc s) (msgId s) (pending s) (authenticated s) (sendRunId s)
    (connectNonce s) (timers s) (nextTimer s) (awaiting s) (nextPromise s)
    x y (readyState s) (clock s) (authFile s) (trace s)
    (exited s).

Definition set_readyState (x : ReadyState) (s : State) : State :=
  mkState (proc s) (msgId s) (pending s) (authenticated s) (sendRunId s)
    (connectNonce s) (timers s) (nextTimer s) (awaiting s) (nextPromise s)
    (settled s) (jobs s) x (clock s) (authFile s) (trace s)
    (exited s).

Definition set_clock (x : N) (s : State) : State :=
  mkState (proc s) (msgId s) (pending s) (authenticated s) (sendRunId s)
    (connectNonce s) (timers s) (nextTimer s) (awaiting s) (nextPromise s)
    (settled s) (jobs s) (readyState s) x (authFile s) (trace s)
    (exited s).

Definition set_authFile (x : File) (s : State) : State :=
  mkState (proc s) (msgId s) (pending s) (authenticated s) (sendRunId s)
    (connectNonce s) (timers s) (nextTimer s) (awaiting s) (nextPromise s)
    (settled s) (jobs s) (readyState s) (clock s) x (trace s)
    (exited s).

Definition set_trace (x : list Effect) (s : State) : State :=
  mkState (proc s) (msgId s) (pending s) (authenticated s) (sendRunId s)
    (connectNonce s) (timers s) (nextTimer s) (awaiting s) (nextPromise s)
    (settled s) (jobs s) (readyState s) (clock s) (authFile s) x
    (exited s).

Definition set_exited (x : option Z) (s : State) : State :=
  mkState (proc s) (msgId s) (pending s) (authenticated s) (sendRunId s)
    (connectNonce s) (timers s) (nextTimer s) (awaiting s) (nextPromise s)
    (settled s) (jobs s) (readyState s) (clock s) (authFile s) (trace s)
    x.

(** *** Runtime primitives *)

Definition emit (e : Effect) (s : State) : State :=
  set_trace (trace s ++ [e]) s.

(** [process.exit(code)]. *)
Definition process_exit (code : Z) (s : State) : State :=
  set_exited (Some code) (emit (Exit code) s).

(** [setTimeout(callback, delay)]: the new timer's handle is
    [nextTimer s]. *)
Definition setTimeout (a : TimerAction) (d : N) (s : State) : State :=
  set_timers (<[nextTimer s := {| delay := d; action := a |}]> (timers s))
    (S (nextTimer s)) s.

Definition clearTimeout (t : nat) (s : State) : State :=
  set_timers (delete t (timers s)) (nextTimer s) s.

(** [new Promise(...)] awaited by [k]: the new promise is
    [nextPromise s]. *)
Definition new_promise (k : Kont) (s : State) : State :=
  set_awaiting (<[nextPromise s := k]> (awaiting s)) (S (nextPromise s)) s.

Definition is_settled (p : nat) (s : State) : bool :=
  existsb (fun r => bool_decide (r.1 = p)) (settled s).

(** A call [f(v)] of a [resolve] or [reject] function.  Every call is
    logged; only the first one on a promise settles it and schedules the
    code waiting for it. *)
Definition settle (f : Settler) (v : Value) (s : State) : State :=
  let r := (target f, outcome_of f v) in
  set_settled (settled s ++ [r])
    (if is_settled (target f) s then jobs s else jobs s ++ [r]) s.

(** [Date.now()]. *)
Definition Date_now (s : State) : N := clock s.

(** The connection timer is the first timer the script creates. *)
Definition connTimer : nat := 0.

(** *** [sendReq] and [handleResponse], lines 194-214 *)

Definition request_frame (id method : string) (params : JSON) : JSON :=
  obj [("type", JStr "req"); ("id", JStr id); ("method", JStr method);
       ("params", params)].

(** [sendReq(method, params)], its promise awaited by [k]. *)
Definition sendReq (method : string) (params : JSON) (k : Kont) (s : State)
    : State :=
  let n := (msgId s + 1)%N in
  let id := String_of_N n in
  let p := nextPromise s in
  let t := nextTimer s in
  let s := set_msgId n s in
  let s := new_promise k s in
  let s := setTimeout (TCall id method p) OPERATION_TIMEOUT s in
  let s := set_pending (Map.set id (call_entry p t) (pending s)) s in
  emit (Send (request_frame id method params)) s.

(** [pending.get(key)] for a key read off a message: the keys of the map
    are strings, and only an equal string finds one. *)
Definition pending_get (key : option JSON) (s : State) : option (string * Entry) :=
  match key with
  | Some (JStr k) => (fun e => (k, e)) <$> Map.get k (pending s)
  | _ => None
  end.

Definition handleResponse `{Runtime} (msg : JSON) (s : State) : State :=
  match pending_get (get_prop msg "id") s with
  | None => s
  | Some (id, entry) =>
      let s := clearTimeout (timer entry) s in
      let s := set_pending (Map.delete id (pending s)) s in
      if truthy_prop (get_prop msg "ok")
      then settle (resolve entry) (of_prop (get_prop msg "payload")) s
      else settle (reject entry)
             (VError (JSON_stringify
                        (falsy_or (get_prop msg "error") (JStr "Unknown error")))) s
  end.

(** *** [cleanup] and [die], lines 37-40 and 216-224 *)

Definition ws_close (s : State) : State :=
  match readyState s with
  | CLOSED => s
  | _ => set_readyState CLOSING (emit WsClose s)
  end.

Definition cleanup (code : Z) (s : State) : State :=
  let s := fold_left (fun s e => clearTimeout (timer e) s)
             (Map.values (pending s)) s in
  let s := set_pending (Map.clear (pending s)) s in
  let s := ws_close s in
  process_exit code s.

Definition die (msg : string) (code : Z) (s : State) : State :=
  process_exit code (emit (Stderr msg) s).

(** *** Commands, lines 230-276 *)

Definition buildRequest (c : Command) : option (string * JSON) :=
  match c with
  | CmdStatus => Some ("status", obj [])
  | CmdSessions => Some ("sessions.list", obj [])
  | CmdInject k m l =>
      Some ("chat.inject",
            obj ([("sessionKey", JStr k); ("message", JStr m)]
                 ++ match l with Some l => [("label", JStr l)] | None => [] end))
  | CmdHistory k l =>
      Some ("chat.history",
            obj [("sessionKey", JStr k); ("limit", JNum (default 20%Z l))])
  | CmdAbort k => Some ("chat.abort", obj [("sessionKey", JStr k)])
  | CmdCronList => Some ("cron.list", obj [])
  | CmdCronRun j => Some ("cron.run", obj [("jobId", JStr j)])
  | CmdSend _ _ => None
  end.

Definition error_message (e : Value) : string :=
  match e with
  | VError m => m
  | VJson j => ToString (default JNull (get_prop j "message"))
  | VUndef => "undefined"
  end.

(** The end of [runCommand]: print the result; the handler that called
    it goes on with [cleanup(0)] (lines 271, 356 and 383). *)
Definition command_done (result : Value) (s : State) : State :=
  cleanup 0 (emit (Stdout result) s).

(** The [catch] of [runCommand], lines 272-275. *)
Definition command_failed (e : Value) (s : State) : State :=
  cleanup EXIT_OP (emit (Stderr ("Error: " +:+ error_message e)) s).

(** [runSend] up to its [await], lines 243-248. *)
Definition runSend (sessionKey message : string) (s : State) : State :=
  sendReq "chat.send"
    (obj [("sessionKey", JStr sessionKey); ("message", JStr message);
          ("idempotencyKey", JStr (uuid (proc s)))]) KChatSend s.

Definition value_prop (v : Value) : option JSON :=
  match v with
  | VUndef => None
  | VJson j => Some j
  | VError _ => Some (JObj ∅)
  end.

(** [{ runId: sendRunId, status }]; an [undefined] field is left out by
    [JSON.stringify]. *)
Definition wait_result (s : State) (status : string) : Value :=
  VJson (obj (match sendRunId s with
              | Some r => [("runId", r)]
              | None => []
              end ++ [("status", JStr status)])).

(** What an [async] function hands back when it stops: its result, or a
    promise still to be settled. *)
Inductive Returned :=
| Now (result : Value)
| Later (promise : nat).

(** [runSend] after its [await], lines 249-259: it returns the payload of
    [chat.send], or registers the completion wait and returns its
    promise. *)
Definition runSend_resumed (sendResult : Value) (s : State)
    : State * Returned :=
  let s := set_sendRunId (optchain (value_prop sendResult) "runId") s in
  if negb (truthy_prop (sendRunId s)) then (s, Now sendResult)
  else
    let p := nextPromise s in
    let t := nextTimer s in
    let s := new_promise KSendWait s in
    let s := setTimeout (TSendWait p) (SEND_TIMEOUT (proc s)) s in
    (set_pending (Map.set "send-wait" (wait_entry p t) (pending s)) s,
     Later p).

(** [runCommand] up to its [await], lines 262-270. *)
Definition runCommand (s : State) : State :=
  match command (proc s) with
  | CmdSend k m => runSend k m s
  | c =>
      match buildRequest c with
      | Some (method, params) => sendReq method params KCommand s
      | None =>
          command_failed
            (VError "Cannot destructure property 'method' of 'buildRequest(...)' as it is null.") s
      end
  end.

(** *** The handshake, lines 313-392 *)

(** The connect parameters built for [authToken], lines 318-347 for the
    first attempt and 363-376 for the retry. *)
Definition connect_params `{Runtime} (authToken : JSON) (s : State) : JSON :=
  let identity := IDENTITY (proc s) in
  let signedAtMs := Date_now s in
  let payload :=
    Signer.buildDeviceAuthPayload
      {| Signer.deviceId := deviceId identity;
         Signer.clientId := "gateway-client";
         Signer.clientMode := "backend";
         Signer.role := ROLE;
         Signer.scopes := SCOPES;
         Signer.signedAtMs := signedAtMs;
         Signer.token := Some authToken |} in
  let signature := signPayload (privateKeyPem identity) payload in
  let publicKeyRaw := derivePublicKeyRaw (publicKeyPem identity) in
  obj [("minProtocol", JNum 3); ("maxProtocol", JNum 3);
       ("client", obj [("id", JStr "gateway-client"); ("mode", JStr "backend");
                       ("version", JStr "1.0.0");
                       ("platform", JStr (platform (proc s)))]);
       ("caps", JArr []); ("commands", JArr []);
       ("role", JStr ROLE); ("scopes", JArr (map JStr SCOPES));
       ("device", obj [("id", JStr (deviceId identity));
                       ("publicKey", JStr (base64UrlEncode publicKeyRaw));
                       ("signature", JStr signature);
                       ("signedAt", JNum (Z.of_N signedAtMs))]);
       ("auth", obj [("token", authToken)])].

(** The challenge branch of [ws.onmessage] up to its [await],
    lines 314-348. *)
Definition on_challenge `{Runtime} (msg : JSON) (s : State) : State :=
  let s := clearTimeout connTimer s in
  let s :=
    set_connectNonce
      (nullish_or (optchain (get_prop msg "data") "nonce") JNull) s in
  let authToken :=
    nullish_or (Some (STORED_DEVICE_TOKEN (proc s))) (JStr (TOKEN (proc s))) in
  sendReq "connect" (connect_params authToken s) KConnect s.

(** Lines 351-353 and 378-380: keep the device token of a [hello-ok].
    The result is the message of the error thrown by [storeDeviceToken],
    if any. *)
Definition persist_token (connectResult : Value) (s : State) : string + State :=
  let auth := optchain (value_prop connectResult) "auth" in
  let deviceToken := optchain auth "deviceToken" in
  if truthy_prop deviceToken then
    match storeDeviceToken (deviceId (IDENTITY (proc s))) ROLE
            (default JNull deviceToken)
            (nullish_or (optchain auth "scopes") (JArr (map JStr SCOPES)))
            (Date_now s) (authFile s) with
    | inl message => inl message
    | inr file =>
        inr (set_authFile file
               (emit (WriteFile (match file with
                                 | Some (Parsed d) => d
                                 | _ => JNull
                                 end)) s))
    end
  else inr s.

(** Whether the [catch] of line 357 takes the error for a stale device
    token, line 359. *)
Definition stale_token_error (e : Value) : bool :=
  includes "device_token_mismatch" (error_message e)
  || includes "unauthorized" (error_message e).

(** The [catch] of the first attempt, lines 357-390, up to the [await] of
    the retry. *)
Definition connect_failed `{Runtime} (e : Value) (s : State) : State :=
  if truthy (STORED_DEVICE_TOKEN (proc s)) && stale_token_error e then
    let s := set_authFile (unlinkSync (authFile s)) (emit Unlink s) in
    let s :=
      emit (Stderr "Warning: Stored device token expired, retrying with gateway token...") s in
    sendReq "connect" (connect_params (JStr (TOKEN (proc s))) s) KRetry s
  else
    die ("Error: Authentication failed — " +:+ error_message e) EXIT_AUTH s.

(** The [catch] of the retry, lines 385-387. *)
Definition retry_failed (e : Value) (s : State) : State :=
  die ("Error: Authentication failed after retry — " +:+ error_message e)
    EXIT_AUTH s.

(** The code after each [await]. *)
Definition resume `{Runtime} (k : Kont) (o : Outcome) (s : State) : State :=
  match k, o with
  | KCaller, _ => s
  | KConnect, Fulfilled connectResult =>
      match persist_token connectResult s with
      | inl message => connect_failed (VError message) s
      | inr s => runCommand (set_authenticated true s)
      end
  | KConnect, Rejected e => connect_failed e s
  | KRetry, Fulfilled retryResult =>
      match persist_token retryResult s with
      | inl message => retry_failed (VError message) s
      | inr s => runCommand (set_authenticated true s)
      end
  | KRetry, Rejected retryErr => retry_failed retryErr s
  | KCommand, Fulfilled result => command_done result s
  | KCommand, Rejected e => command_failed e s
  | KChatSend, Fulfilled sendResult =>
      match runSend_resumed sendResult s with
      | (s, Now result) => command_done result s
      | (s, Later _) => s
      end
  | KChatSend, Rejected e => command_failed e s
  | KSendWait, Fulfilled result => command_done result s
  | KSendWait, Rejected e => command_failed e s
  end.

(** *** The bodies of the event handlers *)

(** A timer callback; a timer that was cleared, or has fired, does not
    fire. *)
Definition fire (t : nat) (s : State) : State :=
  match timers s !! t with
  | None => s
  | Some tm =>
      let s := clearTimeout t s in
      match action tm with
      | TCall id method p =>
          let s := set_pending (Map.delete id (pending s)) s in
          settle {| target := p; how := Reject |}
            (VError ("Timeout waiting for response to " +:+ method)) s
      | TSendWait p =>
          let s := set_pending (Map.delete "send-wait" (pending s)) s in
          settle {| target := p; how := Resolve |} (wait_result s "timeout") s
      | TConn =>
          die ("Error: Connection to " +:+ url (proc s) +:+ " timed out")
            EXIT_CONN s
      end
  end.

(** The test of lines 402-404. *)
Definition is_completion_of (runId : option JSON) (msg : JSON) : bool :=
  truthy_prop runId
  && strict_eq (get_prop msg "type") (Some (JStr "event"))
  && strict_eq (get_prop msg "event") (Some (JStr "agent"))
  && strict_eq (optchain (get_prop msg "data") "stream") (Some (JStr "lifecycle"))
  && strict_eq (optchain (get_prop msg "data") "phase") (Some (JStr "end"))
  && strict_eq (optchain (get_prop msg "data") "runId") runId.

Definition is_challenge (msg : JSON) : bool :=
  strict_eq (get_prop msg "type") (Some (JStr "event"))
  && strict_eq (get_prop msg "event") (Some (JStr "connect.challenge")).

Definition is_response (msg : JSON) : bool :=
  strict_eq (get_prop msg "type") (Some (JStr "res")).

(** Lines 405-410. *)
Definition complete_wait (s : State) : State :=
  match Map.get "send-wait" (pending s) with
  | Some entry =>
      let s := clearTimeout (timer entry) s in
      let s := set_pending (Map.delete "send-wait" (pending s)) s in
      settle (resolve entry) (wait_result s "completed") s
  | None => s
  end.

(** [ws.onmessage], lines 303-412; [data] is [None] when [JSON.parse]
    throws.  Reading [msg.type] off [null] throws inside the [async]
    handler: an unhandled rejection, which ends the process. *)
Definition ws_onmessage `{Runtime} (data : option JSON) (s : State) : State :=
  match data with
  | None => emit (Stderr "Error: Received malformed message from gateway") s
  | Some JNull =>
      die "TypeError: Cannot read properties of null (reading 'type')" 1 s
  | Some msg =>
      if is_challenge msg then on_challenge msg s
      else if is_response msg then handleResponse msg s
      else if is_completion_of (sendRunId s) msg then complete_wait s
      else s
  end.

(** The loop of lines 296-299 over the entries [es]. *)
Definition reject_all (v : Value) (es : list Entry) (s : State) : State :=
  fold_left (fun s e => settle (reject e) v (clearTimeout (timer e) s)) es s.

(** [ws.onclose], lines 290-301. *)
Definition ws_onclose (s : State) : State :=
  if negb (authenticated s) then
    die "Error: Connection closed before authentication" EXIT_CONN
      (clearTimeout connTimer s)
  else
    let s :=
      reject_all (VError "Connection closed unexpectedly")
        (Map.values (pending s)) s in
    set_pending (Map.clear (pending s)) s.

(** [ws.onerror], lines 285-288. *)
Definition ws_onerror (s : State) : State :=
  die ("Error: Cannot connect to gateway at " +:+ url (proc s)) EXIT_CONN
    (clearTimeout connTimer s).

(** *** Events *)

(** The continuations of the promises settled by a handler run after it,
    in the order of settlement, unless the process has ended.  Each one is
    run to its next [await] before the next one starts.  That is what
    Node.js does when a handler settles one awaited promise; when it settles
    several (only [ws.onclose] can, with more than one entry in the table),
    Node.js advances their continuations in turns, which leaves the log of
    settlements, the table and the timers as they are here but may change
    the order of the output and the status of the exit. *)
Definition run_job `{Runtime} (s : State) (job : nat * Outcome) : State :=
  match exited s with
  | Some _ => s
  | None =>
      match awaiting s !! job.1 with
      | Some k => resume k job.2 s
      | None => s
      end
  end.

Definition drain `{Runtime} (s : State) : State :=
  fold_left run_job (jobs s) (set_settled (settled s) [] s).

(** [EvCall] is a call of [sendReq] by code other than the handlers of
    the script, whose own calls are made by [on_challenge], [connect_failed]
    and [runCommand]; with it the properties of the pending table range
    over every sequence of calls. *)
Inductive Event :=
| EvOpen
| EvCall (method : string) (params : JSON)
| EvMessage (data : option JSON)
| EvTimer (t : nat)
| EvClose
| EvError
| EvSignal
| EvClock (now : N).

(** One turn of the event loop.  Nothing happens in a process that has
    ended. *)
Definition step `{Runtime} (s : State) (e : Event) : State :=
  match exited s with
  | Some _ => s
  | None =>
      match e with
      | EvOpen => set_readyState OPEN s
      | EvCall method params => sendReq method params KCaller s
      | EvMessage data => drain (ws_onmessage data s)
      | EvTimer t => drain (fire t s)
      | EvClose => drain (ws_onclose (set_readyState CLOSED s))
      | EvError => ws_onerror s
      | EvSignal => cleanup EXIT_OP s
      | EvClock now => set_clock now s
      end
  end.

Definition run `{Runtime} (s : State) (es : list Event) : State :=
  fold_left step es s.

(** The state in which the script waits for its first event, lines
    188-192 and 279-283. *)
Definition init (c : Config) : State :=
  {| proc := c;
     msgId := 0; pending := []; authenticated := false;
     sendRunId := Some JNull; connectNonce := JNull;
     timers := {[connTimer := {| delay := CONNECTION_TIMEOUT; action := TConn |}]};
     nextTimer := 1; awaiting := ∅; nextPromise := 0;
     settled := []; jobs := []; readyState := CONNECTING;
     clock := startClock c; authFile := startFile c; trace := [];
     exited := None |}.

End Bridge.

(** ** The role map of a token file *)

(** Whether the record of [deviceId] in [file], if there is one, maps
    roles in a JSON object (or has no role map yet), as every record
    written by [storeDeviceToken] does. *)
Definition role_map_is_object (deviceId : string) (file : TokenCache.File)
    : bool :=
  match file with
  | Some (TokenCache.Parsed d) =>
      if TokenCache.is_record_of deviceId d then
        match get_prop d "tokens" with
        | None | Some JNull | Some (JObj _) => true
        | _ => false
        end
      else true
  | _ => true
  end.

(** ** Invariants of the pending table *)

Module Table.

Import Bridge.

(** The promise a timer callback settles. *)
Definition timer_promise (a : TimerAction) : option nat :=
  match a with
  | TCall _ _ p => Some p
  | TSendWait p => Some p
  | TConn => None
  end.

(** An entry of the table and the callback of its timer belong together:
    the entry of call [id] was made by [sendReq] with the timer that names
    [id] and the same promise; the entry under ["send-wait"] was made by
    [runSend]. *)
Definition entry_matches (n : N) (id : string) (e : Entry) (a : TimerAction)
    : Prop :=
  match a with
  | TCall id' _ p =>
      id' = id ∧ e = call_entry p (timer e)
      ∧ ∃ k, id = String_of_N k ∧ (k <= n)%N
  | TSendWait p => id = "send-wait" ∧ e = wait_entry p (timer e)
  | TConn => False
  end.

(** What holds of the table, the timers and the log whenever a handler or
    a continuation starts. *)
Record wf (s : State) : Prop := {
  wf_keys : NoDup (map fst (pending s));
  wf_conn : ∀ tm, timers s !! connTimer = Some tm → action tm = TConn;
  wf_conn_only : ∀ t tm,
    timers s !! t = Some tm → action tm = TConn → t = connTimer;
  wf_next : 0 < nextTimer s;
  wf_timer_lt : ∀ t tm, timers s !! t = Some tm → t < nextTimer s;
  wf_promise_lt : ∀ t tm p,
    timers s !! t = Some tm → timer_promise (action tm) = Some p →
    p < nextPromise s;
  wf_unsettled : ∀ t tm p o,
    timers s !! t = Some tm → timer_promise (action tm) = Some p →
    ¬ In (p, o) (settled s);
  wf_timer_inj : ∀ t1 t2 tm1 tm2 p,
    timers s !! t1 = Some tm1 → timers s !! t2 = Some tm2 →
    timer_promise (action tm1) = Some p →
    timer_promise (action tm2) = Some p → t1 = t2;
  wf_entry : ∀ id e,
    Map.get id (pending s) = Some e →
    ∃ tm, timers s !! timer e = Some tm
          ∧ entry_matches (msgId s) id e (action tm);
  wf_call : ∀ t tm id m p,
    timers s !! t = Some tm → action tm = TCall id m p →
    Map.get id (pending s) = Some (call_entry p t);
  wf_settled_lt : ∀ p o, In (p, o) (settled s) → p < nextPromise s
}.

(** No continuation is waiting to run: the state between two events. *)
Definition quiescent (s : State) : Prop := jobs s = [].

(** The calls made, in order, of the [resolve] and [reject] functions of
    promise [p]. *)
Definition outcomes_in (p : nat) (log : list (nat * Outcome)) : list Outcome :=
  map snd (filter (fun r => bool_decide (r.1 = p)) log).

Definition outcomes (p : nat) (s : State) : list Outcome :=
  outcomes_in p (settled s).

(** Call [id] of [method] is pending: its entry is in the table and its
    deadline has not passed. *)
Definition outstanding (s : State) (id method : string) (p t : nat) : Prop :=
  Map.get id (pending s) = Some (call_entry p t)
  ∧ timers s !! t
    = Some {| delay := OPERATION_TIMEOUT; action := TCall id method p |}.

(** The completion wait for run [runId] is pending. *)
Definition waiting (s : State) (runId : JSON) (p t : nat) : Prop :=
  Map.get "send-wait" (pending s) = Some (wait_entry p t)
  ∧ timers s !! t
    = Some {| delay := SEND_TIMEOUT (proc s); action := TSendWait p |}
  ∧ sendRunId s = Some runId ∧ truthy runId = true.

(** Promise [p] was created and nothing can settle it any more. *)
Definition retired (s : State) (p : nat) : Prop :=
  p < nextPromise s
  ∧ ∀ t tm, timers s !! t = Some tm → timer_promise (action tm) ≠ Some p.

(** The table holds nothing under [id], an identifier that was handed
    out. *)
Definition released (s : State) (id : string) : Prop :=
  Map.get id (pending s) = None
  ∧ ∃ k, id = String_of_N k ∧ (k <= msgId s)%N.

(** The ways in which the script changes the table, the timers and the
    log. *)
Inductive Label :=
| LSame
| LCall (method : string)
| LWait
| LFinish (id : string) (e : Entry) (o : Outcome)
| LExpireWait (t p : nat) (o : Outcome)
| LDrop (t : nat)
| LWipe
| LCloseAll (v : Value).

Definition cleared (ts : gmap nat Timer) (es : list Entry) : gmap nat Timer :=
  fold_left (fun m e => delete (timer e) m) es ts.

Inductive move : Label → State → State → Prop :=
| move_same s s' :
    pending s' = pending s → timers s' = timers s →
    nextTimer s' = nextTimer s → nextPromise s' = nextPromise s →
    settled s' = settled s → msgId s' = msgId s →
    move LSame s s'
| move_call m s s' :
    pending s'
    = Map.set (String_of_N (msgId s + 1))
        (call_entry (nextPromise s) (nextTimer s)) (pending s) →
    timers s'
    = <[nextTimer s :=
          {| delay := OPERATION_TIMEOUT;
             action := TCall (String_of_N (msgId s + 1)) m (nextPromise s) |}]>
        (timers s) →
    nextTimer s' = S (nextTimer s) → nextPromise s' = S (nextPromise s) →
    settled s' = settled s → msgId s' = (msgId s + 1)%N →
    move (LCall m) s s'
| move_wait d s s' :
    pending s'
    = Map.set "send-wait" (wait_entry (nextPromise s) (nextTimer s))
        (pending s) →
    timers s'
    = <[nextTimer s := {| delay := d; action := TSendWait (nextPromise s) |}]>
        (timers s) →
    nextTimer s' = S (nextTimer s) → nextPromise s' = S (nextPromise s) →
    settled s' = settled s → msgId s' = msgId s →
    move LWait s s'
| move_finish id e o s s' :
    Map.get id (pending s) = Some e →
    pending s' = Map.delete id (pending s) →
    timers s' = delete (timer e) (timers s) →
    nextTimer s' = nextTimer s → nextPromise s' = nextPromise s →
    settled s' = settled s ++ [(target (resolve e), o)] →
    msgId s' = msgId s →
    move (LFinish id e o) s s'
| move_expire t d p o s s' :
    timers s !! t = Some {| delay := d; action := TSendWait p |} →
    pending s' = Map.delete "send-wait" (pending s) →
    timers s' = delete t (timers s) →
    nextTimer s' = nextTimer s → nextPromise s' = nextPromise s →
    settled s' = settled s ++ [(p, o)] → msgId s' = msgId s →
    move (LExpireWait t p o) s s'
| move_drop t s s' :
    (∀ tm, timers s !! t = Some tm → action tm = TConn) →
    pending s' = pending s → timers s' = delete t (timers s) →
    nextTimer s' = nextTimer s → nextPromise s' = nextPromise s →
    settled s' = settled s → msgId s' = msgId s →
    move (LDrop t) s s'
| move_wipe s s' :
    pending s' = [] →
    timers s' = cleared (timers s) (Map.values (pending s)) →
    nextTimer s' = nextTimer s → nextPromise s' = nextPromise s →
    settled s' = settled s → msgId s' = msgId s →
    move LWipe s s'
| move_close v s s' :
    pending s' = [] →
    timers s' = cleared (timers s) (Map.values (pending s)) →
    nextTimer s' = nextTimer s → nextPromise s' = nextPromise s →
    settled s'
    = settled s
      ++ map (fun e => (target (reject e), outcome_of (reject e) v))
           (Map.values (pending s)) →
    msgId s' = msgId s →
    move (LCloseAll v) s s'.

Inductive moves : list Label → State → State → Prop :=
| moves_nil s : moves [] s s
| moves_cons l ls s1 s2 s3 :
    move l s1 s2 → moves ls s2 s3 → moves (l :: ls) s1 s3.

(** What every change respects: counters grow, a new timer and its promise
    are fresh, a new key is fresh or ["send-wait"], and a promise that is
    settled was either awaited by a timer or is new. *)
Record evolves (s s' : State) : Prop := {
  ev_timer : nextTimer s <= nextTimer s';
  ev_promise : nextPromise s <= nextPromise s';
  ev_msgId : (msgId s <= msgId s')%N;
  ev_timers : ∀ t tm,
    timers s' !! t = Some tm →
    timers s !! t = Some tm
    ∨ (nextTimer s <= t
       ∧ ∀ p, timer_promise (action tm) = Some p → nextPromise s <= p);
  ev_pending : ∀ id e,
    Map.get id (pending s') = Some e →
    Map.get id (pending s) = Some e ∨ id = "send-wait"
    ∨ ∃ k, id = String_of_N k ∧ (msgId s < k)%N;
  ev_settled : ∃ new,
    settled s' = settled s ++ new
    ∧ ∀ p o, In (p, o) new →
        (∃ t tm, timers s !! t = Some tm
                 ∧ timer_promise (action tm) = Some p)
        ∨ nextPromise s <= p
}.

(** The timers a change may remove. *)
Definition touches (l : Label) (t : nat) : Prop :=
  match l with
  | LFinish _ e _ => timer e = t
  | LExpireWait t' _ _ => t' = t
  | LDrop t' => t' = t
  | LWipe | LCloseAll _ => True
  | LSame | LCall _ | LWait => False
  end.

(** What [handleResponse] settles the promise of entry [e] with. *)
Definition response_outcome `{Runtime} (e : Entry) (msg : JSON) : Outcome :=
  if truthy_prop (get_prop msg "ok")
  then outcome_of (resolve e) (of_prop (get_prop msg "payload"))
  else outcome_of (reject e)
         (VError (JSON_stringify
                    (falsy_or (get_prop msg "error") (JStr "Unknown error")))).

Definition timeout_error (method : string) : Value :=
  VError ("Timeout waiting for response to " +:+ method).

Definition closed_error : Value := VError "Connection closed unexpectedly".

(** The changes one turn of the event loop can make, and what each of
    them is the consequence of: an entry is finished by the response that
    carries its key, by the completion event of the run, or by its own
    timer; the table is emptied by a close, or when the process ends. *)
Definition allowed `{Runtime} (ev : Event) (s s' : State) (l : Label) : Prop :=
  match l with
  | LSame | LCall _ | LWait => True
  | LDrop t => t = connTimer
  | LFinish id e o =>
      match ev with
      | EvMessage (Some msg) =>
          Map.get id (pending s) = Some e
          ∧ ((is_challenge msg = false ∧ is_response msg = true
           ∧ get_prop msg "id" = Some (JStr id)
           ∧ o = response_outcome e msg)
          ∨ (is_challenge msg = false ∧ is_response msg = false
             ∧ is_completion_of (sendRunId s) msg = true
             ∧ id = "send-wait"
             ∧ o = outcome_of (resolve e) (wait_result s "completed")))
      | EvTimer t =>
          ∃ d method,
            timers s !! t
            = Some {| delay := d;
                      action := TCall id method (target (resolve e)) |}
            ∧ Map.get id (pending s) = Some e
            ∧ timer e = t ∧ o = Rejected (timeout_error method)
      | _ => False
      end
  | LExpireWait t p o =>
      ev = EvTimer t ∧ o = Fulfilled (wait_result s "timeout")
  | LWipe => exited s' ≠ None
  | LCloseAll v => ev = EvClose ∧ authenticated s = true ∧ v = closed_error
  end.

(** The changes a continuation can make: it may issue a call, register
    the wait, or end the process. *)
Definition quiet (s' : State) (l : Label) : Prop :=
  match l with
  | LSame | LCall _ | LWait => True
  | LWipe => exited s' ≠ None
  | _ => False
  end.

(** An event that does not concern call [id], whose timer is [t]. *)
Definition unrelated (id : string) (t : nat) (ev : Event) : bool :=
  match ev with
  | EvMessage (Some msg) =>
      negb (is_response msg && strict_eq (get_prop msg "id") (Some (JStr id)))
  | EvTimer t' => negb (bool_decide (t' = t))
  | EvClose => false
  | _ => true
  end.

(** The error with which event [ev] rejects the promise of call [id] of
    [method], whose timer is [t]: the gateway answers with [ok] false, or
    the deadline passes. *)
Definition rejection `{Runtime} (id : string) (t : nat) (method : string)
    (ev : Event) : option Value :=
  match ev with
  | EvMessage (Some msg) =>
      if is_response msg
         && strict_eq (get_prop msg "id") (Some (JStr id))
         && negb (truthy_prop (get_prop msg "ok"))
      then Some (VError (JSON_stringify
                           (falsy_or (get_prop msg "error")
                              (JStr "Unknown error"))))
      else None
  | EvTimer t' =>
      if bool_decide (t' = t) then Some (timeout_error method) else None
  | _ => None
  end.

(** The state in which the code that awaited call [id] goes on, once the
    promise [p] of the call is settled with [o]. *)
Definition settled_call (id : string) (t p : nat) (o : Outcome) (s : State)
    : State :=
  set_settled (settled s ++ [(p, o)]) []
    (set_pending (Map.delete id (pending s)) (clearTimeout t s)).

(** An [agent] event of the [lifecycle] stream, whatever its phase and
    run. *)
Definition lifecycle_event (msg : JSON) : bool :=
  strict_eq (get_prop msg "type") (Some (JStr "event"))
  && strict_eq (get_prop msg "event") (Some (JStr "agent"))
  && strict_eq (optchain (get_prop msg "data") "stream")
       (Some (JStr "lifecycle")).

End Table.

(** ** A concrete run

    A stand-in for the Node.js built-ins and one configuration of the
    bridge, on which the statements below are evaluated. *)

Module Scenario.

Import Bridge TokenCache.

Definition quote : string := String (ascii_of_nat 34) EmptyString.

(** A compact [JSON.stringify] without escapes; [fuel] bounds the depth of
    the value. *)
Fixpoint stringify (fuel : nat) (j : JSON) : string :=
  match fuel with
  | O => "null"
  | S fuel =>
      match j with
      | JNull => "null"
      | JBool true => "true"
      | JBool false => "false"
      | JNum n => String_of_Z n
      | JStr s => quote +:+ s +:+ quote
      | JArr l => "[" +:+ String.concat "," (map (stringify fuel) l) +:+ "]"
      | JObj o =>
          "{" +:+ String.concat ","
                    (map (fun kv => quote +:+ kv.1 +:+ quote +:+ ":"
                                    +:+ stringify fuel kv.2)
                       (map_to_list o)) +:+ "}"
      end
  end.

Definition node : Runtime :=
  {| JSON_stringify := stringify 16;
     signPayload := fun key payload => "sig:" +:+ payload;
     derivePublicKeyRaw := fun pem => pem;
     base64UrlEncode := fun raw => raw |}.

Definition record (tokens : JSON) : File :=
  Some (Parsed (obj [("version", JNum 1); ("deviceId", JStr "dev");
                     ("tokens", tokens)])).

Definition token_of (t : string) : JSON := obj [("token", JStr t)].

(** The bridge started as [send agent:main:s1 hello], with a cached
    token for [operator] and one for another role. *)
Definition config : Config :=
  {| IDENTITY := {| deviceId := "dev"; publicKeyPem := "PUB";
                    privateKeyPem := "PRIV" |};
     TOKEN := "gateway-token";
     command := CmdSend "agent:main:s1" "hello";
     SEND_TIMEOUT := 120000;
     url := "ws://127.0.0.1:18789";
     platform := "linux";
     uuid := "0b0e6a3c-0000-4000-8000-000000000001";
     startFile := record (obj [("operator", token_of "stale");
                               ("node", token_of "other")]);
     startClock := 1700000000000 |}.

(** The same, with an empty token in the cache. *)
Definition config_empty_token : Config :=
  {| IDENTITY := IDENTITY config; TOKEN := TOKEN config;
     command := command config; SEND_TIMEOUT := SEND_TIMEOUT config;
     url := url config; platform := platform config; uuid := uuid config;
     startFile := record (obj [("operator", token_of EmptyString)]);
     startClock := startClock config |}.

Definition challenge : JSON :=
  obj [("type", JStr "event"); ("event", JStr "connect.challenge");
       ("data", obj [("nonce", JStr "abc")])].

Definition ok_response (id : string) (payload : JSON) : JSON :=
  obj [("type", JStr "res"); ("id", JStr id); ("ok", JBool true);
       ("payload", payload)].

Definition error_response (id : string) (error : JSON) : JSON :=
  obj [("type", JStr "res"); ("id", JStr id); ("ok", JBool false);
       ("error", error)].

Definition lifecycle (phase runId : string) : JSON :=
  obj [("type", JStr "event"); ("event", JStr "agent");
       ("data", obj [("stream", JStr "lifecycle"); ("phase", JStr phase);
                     ("runId", JStr runId)])].

Definition stale_rejection : JSON :=
  obj [("code", JStr "device_token_mismatch")].

(** The challenge has arrived and the first connect request is out. *)
Definition challenged : State :=
  @run node (init config) [EvOpen; EvMessage (Some challenge)].

(** The gateway has rejected the cached token; the retry is out. *)
Definition retrying : State :=
  @run node challenged [EvMessage (Some (error_response "1" stale_rejection))].

(** The retry was accepted and [chat.send] is out. *)
Definition sending : State :=
  @run node retrying
    [EvMessage (Some (ok_response "2"
                        (obj [("auth", obj [("deviceToken", JStr "fresh")])])))].

(** [chat.send] has returned a run; the bridge waits for its end. *)
Definition awaiting_run : State :=
  @run node sending
    [EvMessage (Some (ok_response "3" (obj [("runId", JStr "r1")])))].

(** The tokens of the connect requests sent so far, in order. *)
Definition connect_tokens (s : State) : list (option JSON) :=
  omap (fun e =>
          match e with
          | Send f =>
              if strict_eq (get_prop f "method") (Some (JStr "connect"))
              then Some (optchain (optchain (get_prop f "params") "auth") "token")
              else None
          | _ => None
          end) (trace s).

(** A call of [status] is pending in an authenticated session. *)
Definition status_pending : State :=
  @run node sending [EvCall "status" (obj [])].

(** The events up to the two pending calls of the statements on calls:
    after the handshake, [chat.send] (identifier 3) and a call of [status]
    (identifier 4, promise 3, timer 4) are pending. *)
Definition calls_pending : list Event :=
  [EvOpen; EvMessage (Some challenge);
   EvMessage (Some (error_response "1" stale_rejection));
   EvMessage (Some (ok_response "2"
                      (obj [("auth", obj [("deviceToken", JStr "fresh")])])));
   EvCall "status" (obj [])].

(** Then a lifecycle event, a malformed frame, a third call, its response
    and the response to [chat.send] arrive, in this order. *)
Definition interleaved : list Event :=
  [EvMessage (Some (lifecycle "end" "r9")); EvMessage None;
   EvCall "sessions.list" (obj []);
   EvMessage (Some (ok_response "5" (JArr [])));
   EvMessage (Some (ok_response "3" (obj [("runId", JStr "r1")])));
   EvClock 1700000000500].

(** The events up to the completion wait of run [r1]. *)
Definition until_waiting : list Event :=
  [EvOpen; EvMessage (Some challenge);
   EvMessage (Some (error_response "1" stale_rejection));
   EvMessage (Some (ok_response "2"
                      (obj [("auth", obj [("deviceToken", JStr "fresh")])])));
   EvMessage (Some (ok_response "3" (obj [("runId", JStr "r1")])))].

End Scenario.

(** ** What a run shows: requests, output and the exit status *)

Module Log.

Import Bridge.

(** The part of the state an observer of the process sees, with the
    configuration and the counter of identifiers. *)
Record View := {
  v_proc : Config;
  v_msgId : N;
  v_authenticated : bool;
  v_trace : list Effect;
  v_exited : option Z
}.

Definition view (s : State) : View :=
  {| v_proc := proc s; v_msgId := msgId s;
     v_authenticated := authenticated s;
     v_trace := trace s; v_exited := exited s |}.

(** What the code does to it: it writes to [stderr], to the token file or
    closes the socket ([ASay]); it sends a request through [sendReq]; it
    sets [authenticated]; it prints the result of the command and ends
    with status 0 (lines 271 and 356, with [cleanup] in between); it ends
    with another status. *)
Inductive Act :=
| ASay (e : Effect)
| ARequest (method : string) (params : JSON)
| AAuth
| ADone (result : Value) (closing : bool)
| AFail (code : Z).

Definition do_act (v : View) (a : Act) : View :=
  match a with
  | ASay e =>
      {| v_proc := v_proc v; v_msgId := v_msgId v;
         v_authenticated := v_authenticated v;
         v_trace := v_trace v ++ [e]; v_exited := v_exited v |}
  | ARequest method params =>
      {| v_proc := v_proc v; v_msgId := v_msgId v + 1;
         v_authenticated := v_authenticated v;
         v_trace :=
           v_trace v
           ++ [Send (request_frame (String_of_N (v_msgId v + 1)) method
                        params)];
         v_exited := v_exited v |}
  | AAuth =>
      {| v_proc := v_proc v; v_msgId := v_msgId v;
         v_authenticated := true;
         v_trace := v_trace v; v_exited := v_exited v |}
  | ADone result closing =>
      {| v_proc := v_proc v; v_msgId := v_msgId v;
         v_authenticated := v_authenticated v;
         v_trace :=
           v_trace v ++ [Stdout result]
           ++ (if closing then [WsClose] else []) ++ [Exit 0];
         v_exited := Some 0%Z |}
  | AFail code =>
      {| v_proc := v_proc v; v_msgId := v_msgId v;
         v_authenticated := v_authenticated v;
         v_trace := v_trace v ++ [Exit code]; v_exited := Some code |}
  end.

Definition do_acts (v : View) (acts : list Act) : View :=
  fold_left do_act acts v.

(** What holds of every act of the script in a turn started by [ev]: the
    process is running; a request other than [connect] is sent in an
    authenticated session, unless it is the call [ev] itself makes; a
    result is printed in an authenticated session; a failure ends the
    process with status 1, 2 or 3. *)
Definition ok_act (ev : Event) (v : View) (a : Act) : bool :=
  bool_decide (v_exited v = None)
  && match a with
     | ASay (Stderr _) | ASay Unlink | ASay (WriteFile _) | ASay WsClose => true
     | ASay _ => false
     | ARequest method _ =>
         bool_decide (method = "connect") || v_authenticated v
         || match ev with
            | EvCall method' _ => bool_decide (method' = method)
            | _ => false
            end
     | AAuth => true
     | ADone _ _ => v_authenticated v
     | AFail code =>
         bool_decide (code = EXIT_CONN) || bool_decide (code = EXIT_AUTH)
         || bool_decide (code = EXIT_OP)
     end.

Fixpoint valid (ev : Event) (v : View) (acts : list Act) : bool :=
  match acts with
  | [] => true
  | a :: acts => ok_act ev v a && valid ev (do_act v a) acts
  end.

(** The continuations that belong to the command: they are created once
    the handshake has succeeded. *)
Definition of_command (k : Kont) : bool :=
  match k with
  | KCommand | KChatSend | KSendWait => true
  | KCaller | KConnect | KRetry => false
  end.

Definition command_after_auth (s : State) : Prop :=
  ∀ p k, awaiting s !! p = Some k → of_command k = true →
         authenticated s = true.

(** The request frames of a trace, in the order sent, and the results
    printed. *)
Definition requests (tr : list Effect) : list JSON :=
  omap (fun e => match e with Send f => Some f | _ => None end) tr.

Definition printed (tr : list Effect) : list Value :=
  omap (fun e => match e with Stdout v => Some v | _ => None end) tr.

(** An event of the script's own run: no call from outside [runCommand]
    and the handshake. *)
Definition own_event (ev : Event) : bool :=
  match ev with
  | EvCall _ _ => false
  | _ => true
  end.

(** In a turn started by [ev], the code that takes [s] to [s'] does
    [acts], each of them in order. *)
Definition performs (ev : Event) (s s' : State) (acts : list Act) : Prop :=
  view s' = do_acts (view s) acts ∧ valid ev (view s) acts = true.

(** A request of [method] is one the script may send in the turn of
    [ev], in state [s]. *)
Definition may_request (ev : Event) (s : State) (method : string) : Prop :=
  method = "connect" ∨ authenticated s = true
  ∨ ∃ params, ev = EvCall method params.

(** The statuses of a failure: [EXIT.CONN], [EXIT.AUTH] and [EXIT.OP]. *)
Definition failure (code : Z) : Prop :=
  code = EXIT_CONN ∨ code = EXIT_AUTH ∨ code = EXIT_OP.

(** Nothing of this is changed between [s] and [s']. *)
Definition same_face (s s' : State) : Prop :=
  view s' = view s ∧ awaiting s' = awaiting s.


End Log.

(** ** The command line, lines 19-75 *)

Module Cli.

Import Bridge.

Definition LF : string := String (ascii_of_nat 10) EmptyString.
Definition DQUOTE : string := String (ascii_of_nat 34) EmptyString.

(** An entry of [COMMANDS]: [{ args: [min, max], usage }], the bounds on
    [cliArgs.length]. *)
Record Spec := { args : nat * nat; usage_line : string }.

Definition COMMANDS : list (string * Spec) :=
  [("status", {| args := (1, 1); usage_line := "status" |});
   ("sessions", {| args := (1, 1); usage_line := "sessions" |});
   ("send",
    {| args := (3, 3);
       usage_line :=
         "send <sessionKey> " +:+ DQUOTE +:+ "message" +:+ DQUOTE |});
   ("inject",
    {| args := (3, 4);
       usage_line := "inject <sessionKey> " +:+ DQUOTE +:+ "text" +:+ DQUOTE
                     +:+ " [" +:+ DQUOTE +:+ "Label" +:+ DQUOTE +:+ "]" |});
   ("history",
    {| args := (2, 3); usage_line := "history <sessionKey> [limit]" |});
   ("abort", {| args := (2, 2); usage_line := "abort <sessionKey>" |});
   ("cron-list", {| args := (1, 1); usage_line := "cron-list" |});
   ("cron-run", {| args := (2, 2); usage_line := "cron-run <jobId>" |})].

Definition SESSION_KEY_COMMANDS : list string :=
  ["send"; "inject"; "history"; "abort"].

(** The properties every object literal inherits from [Object.prototype]:
    [COMMANDS[name]] is a function, or the prototype itself, for these
    names. *)
Definition Object_prototype : list string :=
  ["constructor"; "__defineGetter__"; "__defineSetter__"; "hasOwnProperty";
   "__lookupGetter__"; "__lookupSetter__"; "isPrototypeOf";
   "propertyIsEnumerable"; "toString"; "valueOf"; "__proto__";
   "toLocaleString"].

(** [COMMANDS[command]]. *)
Inductive Member :=
| Own (spec : Spec)
| Inherited
| Absent.

Fixpoint own_property (k : string) (o : list (string * Spec)) : option Spec :=
  match o with
  | [] => None
  | (k', v) :: o => if String.eqb k k' then Some v else own_property k o
  end.

Definition COMMANDS_get (command : string) : Member :=
  match own_property command COMMANDS with
  | Some spec => Own spec
  | None =>
      if existsb (String.eqb command) Object_prototype then Inherited
      else Absent
  end.

(** The text of [usage()], lines 42-53. *)
Definition usage_text : string :=
  String.concat LF
    (["Usage: openclaw-bridge.js <command> [args]" +:+ LF; "Commands:"]
     ++ map (fun s => "  " +:+ usage_line s.2) COMMANDS
     ++ [LF +:+ "Environment:";
         "  OPENCLAW_HOST          Gateway host (default: 127.0.0.1)";
         "  OPENCLAW_PORT          Gateway port (default: 18789)";
         "  OPENCLAW_SEND_TIMEOUT  Send timeout in ms (default: 120000)"]).

(** The white space that [parseInt] skips ([StrWhiteSpaceChar]): the
    code points of [WhiteSpace] and of [LineTerminator]. *)
Definition StrWhiteSpaceChar : list N :=
  [9; 10; 11; 12; 13; 32; 160; 5760; 8192; 8193; 8194; 8195; 8196; 8197;
   8198; 8199; 8200; 8201; 8202; 8232; 8233; 8239; 8287; 12288; 65279]%N.

(** [s] after the prefix [p], if it starts with it. *)
Fixpoint after (p s : string) : option string :=
  match p, s with
  | EmptyString, _ => Some s
  | String a p, String b s => if Ascii.eqb a b then after p s else None
  | String _ _, EmptyString => None
  end.

(** [s] without its first character, when that is white space. *)
Definition skip_white_space (s : string) : option string :=
  head (omap (fun cp => after (encode cp) s) StrWhiteSpaceChar).

Fixpoint trim (fuel : nat) (s : string) : string :=
  match fuel with
  | O => s
  | S fuel =>
      match skip_white_space s with
      | Some rest => trim fuel rest
      | None => s
      end
  end.

Definition trimStart (s : string) : string := trim (String.length s) s.

Definition is_digit (c : ascii) : bool :=
  Nat.leb 48 (nat_of_ascii c) && Nat.leb (nat_of_ascii c) 57.

Fixpoint digits (s : string) : string :=
  match s with
  | String c rest => if is_digit c then String c (digits rest) else EmptyString
  | EmptyString => EmptyString
  end.

(** The integer that [parseInt(s, 10)] reads: leading white space is
    skipped, a sign is read, then the longest run of decimal digits; what
    follows is ignored.  [None]: there is no digit. *)
Definition mathInt (s : string) : option Z :=
  let s := trimStart s in
  let (sign, s) :=
    match s with
    | String "-" rest => ((-1)%Z, rest)
    | String "+" rest => (1%Z, rest)
    | _ => (1%Z, s)
    end in
  match NilZero.uint_of_string (digits s) with
  | Some d => Some (sign * Z.of_N (N.of_uint d))%Z
  | None => None
  end.

(** A number of JavaScript that is not a fraction. *)
Inductive Number :=
| NaN
| Finite (n : Z)
| Infinite (negative : bool).

(** The number nearest to the integer [a], [0 <= a]: [a] itself below
    [2^53]; beyond, the 53 leading bits of [a], rounded to the nearest and
    to the even one of two that are as near; [None], an infinity, when
    that is [2^1024] or more. *)
Definition nearest_double (a : Z) : option Z :=
  if (a <? 2 ^ 53)%Z then Some a
  else
    let e := (Z.log2 a - 52)%Z in
    let q := (a / 2 ^ e)%Z in
    let r := (a mod 2 ^ e)%Z in
    let q :=
      if (2 ^ e <? 2 * r)%Z || ((2 * r =? 2 ^ e)%Z && Z.odd q)
      then (q + 1)%Z else q in
    if (2 ^ 1024 <=? q * 2 ^ e)%Z then None else Some (q * 2 ^ e)%Z.

Definition Number_of_integer (m : Z) : Number :=
  match nearest_double (Z.abs m) with
  | Some v => Finite (Z.sgn m * v)
  | None => Infinite (m <? 0)%Z
  end.

(** [parseInt(s, 10)], as Node.js computes it: the number nearest to the
    integer read.  (The language lets an implementation read the digits
    after the twentieth as zeros.) *)
Definition parseInt (s : string) : Number :=
  match mathInt s with
  | Some m => Number_of_integer m
  | None => NaN
  end.

(** [key.split(":").length]. *)
Fixpoint split_length (s : string) : nat :=
  match s with
  | String ":" rest => S (split_length rest)
  | String _ rest => split_length rest
  | EmptyString => 1
  end.

(** How the script goes on after lines 34-75: to the connection, to
    [process.exit(EXIT.USAGE)] after a message on [stderr], or to an
    uncaught [TypeError], with which Node.js ends the process. *)
Inductive Checked :=
| Accepted
| Usage (message : string)
| Uncaught (message : string).

Definition validate (cliArgs : list string) : Checked :=
  match cliArgs with
  | [] => Usage usage_text
  | command :: _ =>
      if String.eqb command EmptyString then Usage usage_text
      else
        match COMMANDS_get command with
        | Absent => Usage usage_text
        | Inherited =>
            Uncaught "Cannot read properties of undefined (reading '0')"
        | Own spec =>
            if Nat.ltb (length cliArgs) (args spec).1
               || Nat.ltb (args spec).2 (length cliArgs)
            then Usage ("Usage: openclaw-bridge.js " +:+ usage_line spec)
            else
              let key := nth 1 cliArgs EmptyString in
              if existsb (String.eqb command) SESSION_KEY_COMMANDS
                 && (negb (String.prefix "agent:" key)
                     || Nat.ltb (split_length key) 3)
              then
                Usage ("Error: Invalid session key format. "
                       +:+ "Expected agent:{id}:{session}, got: " +:+ key)
              else
                let limit := nth 2 cliArgs EmptyString in
                if String.eqb command "history"
                   && negb (String.eqb limit EmptyString)
                then
                  if match parseInt limit with
                     | NaN => true
                     | Finite n => Z.ltb n 1
                     | Infinite negative => negative
                     end
                  then Usage "Error: limit must be a positive integer"
                  else Accepted
                else Accepted
        end
  end.

(** The keys that pass the test of line 64. *)
Definition key_ok (key : string) : bool :=
  String.prefix "agent:" key && Nat.leb 3 (split_length key).

(** [command] and [cliArgs] as [buildRequest] and [runSend] read them,
    lines 230-247: a command with its arguments, when the arguments it
    reads are there and the limit of [history], if given, is a finite
    number.  (An infinite limit, which [JSON.stringify] writes as [null],
    is no limit of a [Command].) *)
Definition command_of (cliArgs : list string) : option Command :=
  match cliArgs with
  | "status" :: _ => Some CmdStatus
  | "sessions" :: _ => Some CmdSessions
  | "send" :: sessionKey :: message :: _ => Some (CmdSend sessionKey message)
  | "inject" :: sessionKey :: message :: rest =>
      Some (CmdInject sessionKey message (head rest))
  | "history" :: sessionKey :: rest =>
      match rest with
      | limit :: _ =>
          if String.eqb limit EmptyString
          then Some (CmdHistory sessionKey None)
          else
            match parseInt limit with
            | Finite n => Some (CmdHistory sessionKey (Some n))
            | NaN | Infinite _ => None
            end
      | [] => Some (CmdHistory sessionKey None)
      end
  | "abort" :: sessionKey :: _ => Some (CmdAbort sessionKey)
  | "cron-list" :: _ => Some CmdCronList
  | "cron-run" :: jobId :: _ => Some (CmdCronRun jobId)
  | _ => None
  end.

(** The session key of a command. *)
Definition sessionKey_of (c : Command) : option string :=
  match c with
  | CmdSend k _ | CmdInject k _ _ | CmdHistory k _ | CmdAbort k => Some k
  | CmdStatus | CmdSessions | CmdCronList | CmdCronRun _ => None
  end.

End Cli.

(** ** The gateway token and the identity, lines 95-116 and 160-178 *)

Module Startup.

Import TokenCache.

(** [process.env]: the variables of the environment, all strings.  The
    object inherits from [Object.prototype], so reading a name that is
    not a variable finds the inherited member, if there is one. *)
Definition Env := gmap string string.

Inductive EnvValue :=
| EnvString (value : string)
| EnvInherited
| EnvUndefined.

Definition env_get (env : Env) (name : string) : EnvValue :=
  match env !! name with
  | Some value => EnvString value
  | None =>
      if existsb (String.eqb name) Cli.Object_prototype then EnvInherited
      else EnvUndefined
  end.

(** [~/.openclaw/openclaw.json] as [readToken] finds it: [readFileSync]
    or [JSON.parse] throws an error with a message, or the file parses. *)
Inductive ConfigFile :=
| Unreadable (message : string)
| Config (config : JSON).

(** [s] without its last character, when that is the closing brace. *)
Fixpoint before_brace (s : string) : option string :=
  match s with
  | EmptyString => None
  | String c EmptyString => if Ascii.eqb c "}" then Some EmptyString else None
  | String c rest => String c <$> before_brace rest
  end.

(** The line terminators, the characters [.] does not match. *)
Definition LineTerminator : list N := [10; 13; 8232; 8233]%N.

Definition has_LineTerminator (s : string) : bool :=
  existsb (fun cp => includes (encode cp) s) LineTerminator.

(** [token.match(/^\$\{(.+)\}$/)]: the first group of the match. *)
Definition env_reference (token : string) : option string :=
  match token with
  | String "$" (String "{" rest) =>
      match before_brace rest with
      | Some name =>
          if String.eqb name EmptyString || has_LineTerminator name
          then None else Some name
      | None => None
      end
  | _ => None
  end.

(** What [readToken] comes to: it returns a string; it returns what
    [process.env] inherits under [name], which is not a string; or it
    ends the process with [EXIT.AUTH] after a message. *)
Inductive TokenRead :=
| Token (token : string)
| InheritedMember (name : string)
| Died (message : string).

(** Lines 162-177 of [readToken]: the token of the configuration file.
    A [die] inside the [try] ends the process: its [catch] does not
    run. *)
Definition token_of_config (env : Env) (configPath : string)
    (file : ConfigFile) : TokenRead :=
  match file with
  | Unreadable message =>
      Died ("Error: Cannot read config at " +:+ configPath +:+ " — "
            +:+ message)
  | Config config =>
      let token :=
        optchain (optchain (optchain (Some config) "gateway") "auth")
          "token" in
      if negb (truthy_prop token) then
        Died ("Error: No gateway.auth.token found in " +:+ configPath)
      else
        match token with
        | Some (JStr token) =>
            match env_reference token with
            | Some name =>
                match env_get env name with
                | EnvString value =>
                    if String.eqb value EmptyString
                    then
                      Died ("Error: Env var " +:+ name
                            +:+ " referenced in gateway.auth.token is not set")
                    else Token value
                | EnvInherited => InheritedMember name
                | EnvUndefined =>
                    Died ("Error: Env var " +:+ name
                          +:+ " referenced in gateway.auth.token is not set")
                end
            | None => Token token
            end
        | _ =>
            Died ("Error: Cannot read config at " +:+ configPath +:+ " — "
                  +:+ "token.match is not a function")
        end
  end.

(** [readToken], lines 160-178. *)
Definition readToken (env : Env) (configPath : string) (file : ConfigFile)
    : TokenRead :=
  match env !! "OPENCLAW_GATEWAY_TOKEN" with
  | Some value =>
      if String.eqb value EmptyString
      then token_of_config env configPath file
      else Token value
  | None => token_of_config env configPath file
  end.

(** The test of line 99 on the parsed identity file. *)
Definition is_identity (data : JSON) : bool :=
  strict_eq (optchain (Some data) "version") (Some (JNum 1))
  && truthy_prop (get_prop data "deviceId")
  && truthy_prop (get_prop data "publicKeyPem")
  && truthy_prop (get_prop data "privateKeyPem").

(** [loadOrCreateIdentity], lines 95-116: the identity and the file
    afterwards.  [sha256hex] is the hexadecimal SHA-256 digest;
    [publicKeyPem] and [privateKeyPem] are the two exports of the pair
    that [crypto.generateKeyPairSync] would make, and [now] is the
    time. *)
Definition loadOrCreateIdentity `{Runtime} (sha256hex : string → string)
    (publicKeyPem privateKeyPem : string) (now : N) (file : File)
    : JSON * File :=
  let created :=
    let rawPub := derivePublicKeyRaw publicKeyPem in
    let deviceId := sha256hex rawPub in
    let identity :=
      obj [("version", JNum 1); ("deviceId", JStr deviceId);
           ("publicKeyPem", JStr publicKeyPem);
           ("privateKeyPem", JStr privateKeyPem);
           ("createdAtMs", JNum (Z.of_N now))] in
    (identity, Some (Parsed identity)) in
  match file with
  | Some (Parsed data) => if is_identity data then (data, file) else created
  | _ => created
  end.

End Startup.

(** ** Reading a signed payload back *)

Module Payload.

(** [s] holds no ['|']. *)
Definition no_pipe (s : string) : bool := negb (includes "|" s).

(** The last field of the payload: the token as [join] renders it. *)
Definition token_text (token : option JSON) : string :=
  match nullish_or token (JStr EmptyString) with
  | JNull => EmptyString
  | t => ToString t
  end.

(** The fields [join] separates have no separator in them. *)
Definition separable (p : Signer.Params) : bool :=
  no_pipe (Signer.deviceId p) && no_pipe (Signer.clientId p)
  && no_pipe (Signer.clientMode p) && no_pipe (Signer.role p)
  && forallb no_pipe (Signer.scopes p).

End Payload.

(** ** [base64UrlEncode], lines 84-86 *)

Module Base64Url.

(** The 64 characters of the URL-safe alphabet, in order. *)
Definition alphabet : list ascii :=
  list_ascii_of_string
    "ABCDEFGHIJKLMNOPQRSTUVWXYZabcdefghijklmnopqrstuvwxyz0123456789-_".

(** The groups of six bits of a buffer: three bytes make four groups; one
    or two bytes left over make two or three, the last one filled with
    zero bits. *)
Fixpoint sextets (buf : list Byte.byte) : list N :=
  match buf with
  | b0 :: b1 :: b2 :: rest =>
      let n0 := Byte.to_N b0 in
      let n1 := Byte.to_N b1 in
      let n2 := Byte.to_N b2 in
      [n0 / 4; (n0 mod 4) * 16 + n1 / 16; (n1 mod 16) * 4 + n2 / 64;
       n2 mod 64]%N ++ sextets rest
  | [b0; b1] =>
      let n0 := Byte.to_N b0 in
      let n1 := Byte.to_N b1 in
      [n0 / 4; (n0 mod 4) * 16 + n1 / 16; (n1 mod 16) * 4]%N
  | [b0] =>
      let n0 := Byte.to_N b0 in
      [n0 / 4; (n0 mod 4) * 16]%N
  | [] => []
  end.

(** [Buffer.from(buf).toString("base64url")]: one character of the
    alphabet for each group, and no padding. *)
Definition base64UrlEncode (buf : list Byte.byte) : string :=
  string_of_list_ascii
    (map (fun n => nth (N.to_nat n) alphabet "A"%char) (sextets buf)).

(** The place of a character in the alphabet. *)
Fixpoint index_in (c : ascii) (l : list ascii) : option N :=
  match l with
  | [] => None
  | x :: l => if Ascii.eqb c x then Some 0%N else N.succ <$> index_in c l
  end.

(** The bytes of a list of groups: the inverse of [sextets]. *)
Fixpoint bytes_of (groups : list N) : list N :=
  match groups with
  | c0 :: c1 :: c2 :: c3 :: rest =>
      [c0 * 4 + c1 / 16; (c1 mod 16) * 16 + c2 / 4; (c2 mod 4) * 64 + c3]%N
      ++ bytes_of rest
  | [c0; c1; c2] => [c0 * 4 + c1 / 16; (c1 mod 16) * 16 + c2 / 4]%N
  | [c0; c1] => [c0 * 4 + c1 / 16]%N
  | _ => []
  end.

End Base64Url.

(** ** More concrete runs *)

Module Cases.

Import Bridge TokenCache Scenario.

(** The bridge started as [status], with no token file. *)
Definition config_status : Config :=
  {| IDENTITY := IDENTITY config; TOKEN := TOKEN config;
     command := CmdStatus; SEND_TIMEOUT := SEND_TIMEOUT config;
     url := url config; platform := platform config; uuid := uuid config;
     startFile := None; startClock := startClock config |}.

(** The same, with a token file whose role map is a number. *)
Definition config_number_map : Config :=
  {| IDENTITY := IDENTITY config; TOKEN := TOKEN config;
     command := CmdStatus; SEND_TIMEOUT := SEND_TIMEOUT config;
     url := url config; platform := platform config; uuid := uuid config;
     startFile := record (JNum 5); startClock := startClock config |}.

(** A [hello-ok] that hands out a device token. *)
Definition hello (id : string) : JSON :=
  ok_response id (obj [("auth", obj [("deviceToken", JStr "fresh")])]).

(** The handshake of [status] up to the pending call of the command:
    identifier 2, promise 1, timer 2. *)
Definition status_called : list Event :=
  [EvOpen; EvMessage (Some challenge); EvMessage (Some (hello "1"))].

(** The handshake of [send] up to the retry. *)
Definition retried : list Event :=
  [EvOpen; EvMessage (Some challenge);
   EvMessage (Some (error_response "1" stale_rejection))].

(** A challenge with another nonce. *)
Definition challenge' : JSON :=
  obj [("type", JStr "event"); ("event", JStr "connect.challenge");
       ("data", obj [("nonce", JStr "xyz")])].

(** An environment and a configuration file whose token refers to it. *)
Definition env : Startup.Env := {["MY_TOKEN" := "secret"]}.

Definition openclaw_json : JSON :=
  obj [("gateway", obj [("auth", obj [("token", JStr "${MY_TOKEN}")])])].

(** A stand-in for the SHA-256 digest. *)
Definition sha256hex (raw : string) : string := "sha256:" +:+ raw.

(** Parameters of a payload, without a token and with an empty one. *)
Definition params (token : option JSON) : Signer.Params :=
  {| Signer.deviceId := "dev"; Signer.clientId := "gateway-client";
     Signer.clientMode := "backend"; Signer.role := ROLE;
     Signer.scopes := SCOPES; Signer.signedAtMs := 1700000000000;
     Signer.token := token |}.

End Cases.

(** * Properties *)

Import Bridge TokenCache Table.

(** ** The [Map] *)

Section MapFacts.
Context {V : Type}.
Implicit Types (m : Map.t V) (k : string) (v : V).

Lemma get_set_eq k v m : Map.get k (Map.set k v m) = Some v.
Proof.
  induction m as [|[k' v'] m IH]; simpl.
  - by rewrite decide_True.
  - destruct (decide (k = k')); simpl.
    + by rewrite decide_True.
    + by rewrite decide_False.
Qed.

Lemma get_set_ne k k' v m :
  k ≠ k' → Map.get k' (Map.set k v m) = Map.get k' m.
Proof.
  intros Hne. induction m as [|[k0 v0] m IH]; simpl.
  - by rewrite decide_False.
  - destruct (decide (k = k0)) as [->|]; simpl.
    + by rewrite !decide_False.
    + by rewrite IH.
Qed.

Lemma get_delete_eq k m : Map.get k (Map.delete k m) = None.
Proof.
  induction m as [|[k' v'] m IH]; simpl; [done|].
  destruct (decide (k = k')); simpl; [done|]. by rewrite decide_False.
Qed.

Lemma get_delete_ne k k' m :
  k ≠ k' → Map.get k' (Map.delete k m) = Map.get k' m.
Proof.
  intros Hne. induction m as [|[k0 v0] m IH]; simpl; [done|].
  destruct (decide (k = k0)) as [->|]; simpl.
  - by rewrite IH, decide_False.
  - by rewrite IH.
Qed.

Lemma get_delete_Some k k' v m :
  Map.get k' (Map.delete k m) = Some v → k ≠ k' ∧ Map.get k' m = Some v.
Proof.
  intros Hg. destruct (decide (k = k')) as [->|Hne].
  - by rewrite get_delete_eq in Hg.
  - by rewrite get_delete_ne in Hg.
Qed.

Lemma get_In k v m : Map.get k m = Some v → In (k, v) m.
Proof.
  induction m as [|[k' v'] m IH]; simpl; [done|].
  destruct (decide (k = k')) as [->|]; [intros [= ->]; by left | auto].
Qed.

Lemma get_values k v m : Map.get k m = Some v → In v (Map.values m).
Proof.
  intros Hg. apply get_In in Hg. unfold Map.values.
  apply in_map_iff. by exists (k, v).
Qed.

Lemma get_None_keys k m : Map.get k m = None → ¬ In k (map fst m).
Proof.
  induction m as [|[k' v'] m IH]; simpl; [tauto|].
  destruct (decide (k = k')); [done|]. intros Hg [?|?]; [congruence|tauto].
Qed.

Lemma In_get k v m : NoDup (map fst m) → In (k, v) m → Map.get k m = Some v.
Proof.
  induction m as [|[k' v'] m IH]; simpl; [done|].
  rewrite NoDup_cons. intros [Hk Hnd] [[= -> ->]|Hin].
  - by rewrite decide_True.
  - destruct (decide (k = k')) as [->|]; [|auto].
    exfalso. apply Hk. apply list_elem_of_In, in_map_iff. by exists (k', v).
Qed.

Lemma values_get v m :
  NoDup (map fst m) → In v (Map.values m) → ∃ k, Map.get k m = Some v.
Proof.
  intros Hnd Hin. unfold Map.values in Hin.
  apply in_map_iff in Hin as [[k v'] [? Hin]]; simplify_eq/=.
  exists k. by apply In_get.
Qed.

Lemma keys_set k v m :
  ∀ x, In x (map fst (Map.set k v m)) → x = k ∨ In x (map fst m).
Proof.
  induction m as [|[k' v'] m IH]; simpl; intros x.
  - intros [<-|[]]. by left.
  - destruct (decide (k = k')) as [->|]; simpl.
    + intros [<-|?]; [by left | by right; right].
    + intros [<-|Hx]; [by right; left|].
      destruct (IH _ Hx); [by left | by right; right].
Qed.

Lemma NoDup_set k v m : NoDup (map fst m) → NoDup (map fst (Map.set k v m)).
Proof.
  induction m as [|[k' v'] m IH]; simpl.
  - intros _. apply NoDup_cons. split; [apply not_elem_of_nil | apply NoDup_nil_2].
  - rewrite NoDup_cons. intros [Hk Hnd].
    destruct (decide (k = k')) as [->|Hne]; simpl.
    + apply NoDup_cons. by split.
    + apply NoDup_cons. split; [|auto].
      intros Hin. apply list_elem_of_In, keys_set in Hin as [?|Hin]; [congruence|].
      by apply Hk, list_elem_of_In.
Qed.

Lemma keys_delete k m :
  ∀ x, In x (map fst (Map.delete k m)) → In x (map fst m).
Proof.
  induction m as [|[k' v'] m IH]; simpl; intros x; [done|].
  destruct (decide (k = k')); simpl; [by right; apply IH|].
  intros [<-|?]; [by left | by right; apply IH].
Qed.

Lemma NoDup_delete k m : NoDup (map fst m) → NoDup (map fst (Map.delete k m)).
Proof.
  induction m as [|[k' v'] m IH]; simpl; [done|].
  rewrite NoDup_cons. intros [Hk Hnd].
  destruct (decide (k = k')); simpl; [auto|].
  apply NoDup_cons. split; [|auto].
  intros Hin. by apply Hk, list_elem_of_In, (keys_delete k), list_elem_of_In.
Qed.

End MapFacts.

(** ** Decimal identifiers *)

Lemma N_to_uint_nonnil n : N.to_uint n ≠ Nil.
Proof.
  destruct n; simpl; [discriminate | apply DecimalPos.Unsigned.to_uint_nonnil].
Qed.

Lemma String_of_N_parse n :
  NilZero.uint_of_string (String_of_N n) = Some (N.to_uint n).
Proof. apply NilZero.usu, N_to_uint_nonnil. Qed.

Lemma String_of_N_inj n m : String_of_N n = String_of_N m → n = m.
Proof.
  intros E. apply DecimalN.Unsigned.to_uint_inj.
  pose proof (String_of_N_parse n) as Hn.
  rewrite E, String_of_N_parse in Hn. congruence.
Qed.

Lemma String_of_N_not_send_wait n : String_of_N n ≠ "send-wait".
Proof.
  intros E. pose proof (String_of_N_parse n) as Hn.
  rewrite E in Hn. discriminate.
Qed.

(** ** Object literals and property reads *)

Lemma get_prop_obj_cons k v l k' :
  get_prop (obj ((k, v) :: l)) k'
  = if decide (k = k') then Some v else get_prop (obj l) k'.
Proof.
  unfold obj; simpl. rewrite lookup_insert. by destruct (decide (k = k')).
Qed.

Lemma get_prop_obj_nil k : get_prop (obj []) k = None.
Proof. unfold obj; simpl. apply lookup_empty. Qed.

Ltac obj_lookup :=
  repeat (rewrite get_prop_obj_cons;
          first [rewrite decide_True by done | rewrite decide_False by done]).

Lemma optchain_Some d k : optchain (Some d) k = get_prop d k.
Proof. by destruct d. Qed.

(** The fields of a state after the setters. *)
Ltac fields :=
  cbn [proc msgId pending authenticated sendRunId connectNonce timers
       nextTimer awaiting nextPromise settled jobs readyState clock authFile
       trace exited set_msgId set_pending set_authenticated set_sendRunId
       set_connectNonce set_timers set_awaiting set_settled set_readyState
       set_clock set_authFile set_trace set_exited emit process_exit
       setTimeout clearTimeout new_promise Date_now].

(** ** The invariant *)

Lemma cleared_lookup_Some ts es t tm :
  cleared ts es !! t = Some tm → ts !! t = Some tm ∧ ¬ In t (map timer es).
Proof.
  unfold cleared. revert ts. induction es as [|e es IH]; simpl; intros ts Hl.
  - tauto.
  - apply IH in Hl as [Hl Hnot].
    destruct (decide (timer e = t)) as [<-|Hne].
    + by rewrite lookup_delete_eq in Hl.
    + rewrite lookup_delete_ne in Hl by done. tauto.
Qed.

Lemma cleared_lookup_notin ts es t :
  ¬ In t (map timer es) → cleared ts es !! t = ts !! t.
Proof.
  unfold cleared. revert ts. induction es as [|e es IH]; simpl; intros ts Hn.
  - done.
  - rewrite IH by tauto. apply lookup_delete_ne. tauto.
Qed.

Lemma cleared_lookup_in ts es t :
  In t (map timer es) → cleared ts es !! t = None.
Proof.
  intros Hin. destruct (cleared ts es !! t) eqn:E; [|done].
  apply cleared_lookup_Some in E. tauto.
Qed.

Lemma entry_matches_mono n n' id e a :
  (n <= n')%N → entry_matches n id e a → entry_matches n' id e a.
Proof.
  destruct a; simpl; [|done..].
  intros Hle (? & ? & k & ? & ?). repeat split; [done..|].
  exists k. split; [done|lia].
Qed.

Lemma entry_promise s id e :
  wf s → Map.get id (pending s) = Some e →
  ∃ tm p, timers s !! timer e = Some tm
          ∧ timer_promise (action tm) = Some p
          ∧ target (resolve e) = p ∧ target (reject e) = p
          ∧ entry_matches (msgId s) id e (action tm).
Proof.
  intros Hwf Hg. destruct (wf_entry _ Hwf _ _ Hg) as (tm & Ht & Hm).
  exists tm. destruct (action tm) as [id' m p|p|] eqn:Ha; simpl in Hm.
  - exists p. destruct Hm as (? & He & ?). rewrite He. simpl. rewrite <- He. eauto 10.
  - exists p. destruct Hm as (? & He). rewrite He. simpl. rewrite <- He. eauto 10.
  - done.
Qed.

Lemma entry_key s id e tm :
  wf s → Map.get id (pending s) = Some e → timers s !! timer e = Some tm →
  match action tm with
  | TCall id' _ _ => id' = id ∧ id ≠ "send-wait"
  | TSendWait _ => id = "send-wait"
  | TConn => False
  end.
Proof.
  intros Hwf Hg Ht. destruct (wf_entry _ Hwf _ _ Hg) as (tm' & Ht' & Hm).
  simplify_eq. destruct (action tm); simpl in Hm; [|tauto..].
  destruct Hm as (? & ? & k & -> & ?). split; [done|].
  apply String_of_N_not_send_wait.
Qed.

Lemma entry_timer_key s id1 id2 e1 e2 :
  wf s → Map.get id1 (pending s) = Some e1 → Map.get id2 (pending s) = Some e2 →
  timer e1 = timer e2 → id1 = id2.
Proof.
  intros Hwf H1 H2 Ht.
  destruct (wf_entry _ Hwf _ _ H1) as (tm & Ht1 & _).
  pose proof (entry_key _ _ _ _ Hwf H1 Ht1) as K1.
  rewrite Ht in Ht1. pose proof (entry_key _ _ _ _ Hwf H2 Ht1) as K2.
  destruct (action tm); intuition congruence.
Qed.

Lemma call_timer_key s t tm id m p :
  wf s → timers s !! t = Some tm → action tm = TCall id m p →
  id ≠ "send-wait" ∧ ∃ k, id = String_of_N k ∧ (k <= msgId s)%N.
Proof.
  intros Hwf Ht Ha. pose proof (wf_call _ Hwf _ _ _ _ _ Ht Ha) as Hg.
  destruct (wf_entry _ Hwf _ _ Hg) as (tm' & Ht' & Hm). simpl in Ht'.
  simplify_eq. rewrite Ha in Hm. simpl in Hm.
  destruct Hm as (_ & _ & k & -> & ?). split; [apply String_of_N_not_send_wait|eauto].
Qed.

Lemma fresh_key s k e :
  wf s → Map.get (String_of_N k) (pending s) = Some e → (k <= msgId s)%N.
Proof.
  intros Hwf Hg. destruct (wf_entry _ Hwf _ _ Hg) as (tm & Ht & Hm).
  destruct (action tm); simpl in Hm.
  - destruct Hm as (_ & _ & k' & E & ?). apply String_of_N_inj in E. lia.
  - destruct Hm as [E _]. by apply String_of_N_not_send_wait in E.
  - done.
Qed.

Lemma move_wf l s s' : wf s → move l s s' → wf s'.
Proof.
  intros Hwf Hmv. destruct Hmv.
  - (* same *)
    destruct Hwf. split; intros *;
      rewrite ?H, ?H0, ?H1, ?H2, ?H3, ?H4; eauto.
  - (* call *)
    pose proof (wf_next _ Hwf).
    split; intros *; rewrite ?H, ?H0, ?H1, ?H2, ?H3, ?H4.
    + apply NoDup_set, Hwf.
    + rewrite lookup_insert_ne by (unfold connTimer; lia). apply Hwf.
    + rewrite lookup_insert. case_decide; [by intros [= <-]|]. apply Hwf.
    + lia.
    + rewrite lookup_insert. case_decide; [lia|].
      intros Ht. apply (wf_timer_lt _ Hwf) in Ht. lia.
    + rewrite lookup_insert. case_decide.
      * intros [= <-]. simpl. intros [= <-]. lia.
      * intros Ht Hp. pose proof (wf_promise_lt _ Hwf _ _ _ Ht Hp). lia.
    + rewrite lookup_insert. case_decide.
      * intros [= <-]. simpl. intros [= <-] Hin.
        apply (wf_settled_lt _ Hwf) in Hin. lia.
      * apply Hwf.
    + rewrite !lookup_insert. repeat case_decide; subst; try done.
      * intros [= <-] Ht2. simpl. intros [= <-] Hp.
        pose proof (wf_promise_lt _ Hwf _ _ _ Ht2 Hp). lia.
      * intros Ht1 [= <-] Hp. simpl. intros [= <-].
        pose proof (wf_promise_lt _ Hwf _ _ _ Ht1 Hp). lia.
      * apply Hwf.
    + destruct (decide (String_of_N (msgId s + 1) = id)) as [<-|Hne].
      * rewrite get_set_eq. intros [= <-]. simpl.
        rewrite lookup_insert_eq. eexists. split; [done|]. simpl.
        repeat split. exists (msgId s + 1)%N. split; [done|lia].
      * rewrite get_set_ne by done. intros Hg.
        destruct (wf_entry _ Hwf _ _ Hg) as (tm & Ht & Hm).
        exists tm. rewrite lookup_insert_ne.
        -- split; [done|]. eapply entry_matches_mono; [|done]. lia.
        -- apply (wf_timer_lt _ Hwf) in Ht. lia.
    + rewrite lookup_insert. case_decide.
      * intros [= <-]. simpl. intros [= <- <- <-]. subst. apply get_set_eq.
      * intros Ht Ha. rewrite get_set_ne.
        -- eapply wf_call; eauto.
        -- destruct (call_timer_key _ _ _ _ _ _ Hwf Ht Ha) as (_ & k & -> & ?).
           intros E. apply String_of_N_inj in E. lia.
    + intros Hin. apply (wf_settled_lt _ Hwf) in Hin. lia.
  - (* wait *)
    pose proof (wf_next _ Hwf).
    split; intros *; rewrite ?H, ?H0, ?H1, ?H2, ?H3, ?H4.
    + apply NoDup_set, Hwf.
    + rewrite lookup_insert_ne by (unfold connTimer; lia). apply Hwf.
    + rewrite lookup_insert. case_decide; [by intros [= <-]|]. apply Hwf.
    + lia.
    + rewrite lookup_insert. case_decide; [lia|].
      intros Ht. apply (wf_timer_lt _ Hwf) in Ht. lia.
    + rewrite lookup_insert. case_decide.
      * intros [= <-]. simpl. intros [= <-]. lia.
      * intros Ht Hp. pose proof (wf_promise_lt _ Hwf _ _ _ Ht Hp). lia.
    + rewrite lookup_insert. case_decide.
      * intros [= <-]. simpl. intros [= <-] Hin.
        apply (wf_settled_lt _ Hwf) in Hin. lia.
      * apply Hwf.
    + rewrite !lookup_insert. repeat case_decide; subst; try done.
      * intros [= <-] Ht2. simpl. intros [= <-] Hp.
        pose proof (wf_promise_lt _ Hwf _ _ _ Ht2 Hp). lia.
      * intros Ht1 [= <-] Hp. simpl. intros [= <-].
        pose proof (wf_promise_lt _ Hwf _ _ _ Ht1 Hp). lia.
      * apply Hwf.
    + destruct (decide ("send-wait" = id)) as [<-|Hne].
      * rewrite get_set_eq. intros [= <-]. simpl.
        rewrite lookup_insert_eq. eexists. split; [done|]. by simpl.
      * rewrite get_set_ne by done. intros Hg.
        destruct (wf_entry _ Hwf _ _ Hg) as (tm & Ht & Hm).
        exists tm. rewrite lookup_insert_ne; [done|].
        apply (wf_timer_lt _ Hwf) in Ht. lia.
    + rewrite lookup_insert. case_decide.
      * intros [= <-]. simpl. done.
      * intros Ht Ha. rewrite get_set_ne.
        -- eapply wf_call; eauto.
        -- destruct (call_timer_key _ _ _ _ _ _ Hwf Ht Ha) as (? & _). congruence.
    + intros Hin. apply (wf_settled_lt _ Hwf) in Hin. lia.
  - (* finish *)
    destruct (entry_promise _ _ _ Hwf H) as (tm0 & p0 & Ht0 & Hp0 & Hr & Hj & Hm0).
    split; intros *; rewrite ?H0, ?H1, ?H2, ?H3, ?H4, ?H5.
    + apply NoDup_delete, Hwf.
    + intros Hl. apply lookup_delete_Some in Hl as [_ Hl]. by apply Hwf.
    + intros Hl. apply lookup_delete_Some in Hl as [_ Hl]. by eapply wf_conn_only.
    + apply Hwf.
    + intros Hl. apply lookup_delete_Some in Hl as [_ Hl]. by eapply wf_timer_lt.
    + intros Hl. apply lookup_delete_Some in Hl as [_ Hl]. by eapply wf_promise_lt.
    + intros Hl Hp Hin. apply lookup_delete_Some in Hl as [Hne Hl].
      apply in_app_or in Hin as [Hin|[[= <- <-]|[]]].
      * by eapply wf_unsettled.
      * apply Hne. rewrite Hr in Hp. eapply wf_timer_inj; eauto.
    + intros Hl1 Hl2. apply lookup_delete_Some in Hl1 as [_ Hl1].
      apply lookup_delete_Some in Hl2 as [_ Hl2]. by eapply wf_timer_inj.
    + intros Hg. apply get_delete_Some in Hg as [Hne Hg].
      destruct (wf_entry _ Hwf _ _ Hg) as (tm & Ht & Hm).
      exists tm. split; [|done]. rewrite lookup_delete_ne; [done|].
      intros E. apply Hne. eapply entry_timer_key; eauto.
    + intros Hl Ha. apply lookup_delete_Some in Hl as [Hne Hl].
      pose proof (wf_call _ Hwf _ _ _ _ _ Hl Ha) as Hg.
      rewrite get_delete_ne; [done|]. intros <-. by simplify_eq.
    + intros Hin. apply in_app_or in Hin as [Hin|[[= <- <-]|[]]].
      * by eapply wf_settled_lt.
      * rewrite Hr. by eapply wf_promise_lt.
  - (* expire wait *)
    split; intros *; rewrite ?H0, ?H1, ?H2, ?H3, ?H4, ?H5.
    + apply NoDup_delete, Hwf.
    + intros Hl. apply lookup_delete_Some in Hl as [_ Hl]. by apply Hwf.
    + intros Hl. apply lookup_delete_Some in Hl as [_ Hl]. by eapply wf_conn_only.
    + apply Hwf.
    + intros Hl. apply lookup_delete_Some in Hl as [_ Hl]. by eapply wf_timer_lt.
    + intros Hl. apply lookup_delete_Some in Hl as [_ Hl]. by eapply wf_promise_lt.
    + intros Hl Hp Hin. apply lookup_delete_Some in Hl as [Hne Hl].
      apply in_app_or in Hin as [Hin|[[= <- <-]|[]]].
      * by eapply wf_unsettled.
      * apply Hne. eapply wf_timer_inj; eauto.
    + intros Hl1 Hl2. apply lookup_delete_Some in Hl1 as [_ Hl1].
      apply lookup_delete_Some in Hl2 as [_ Hl2]. by eapply wf_timer_inj.
    + intros Hg. apply get_delete_Some in Hg as [Hne Hg].
      destruct (wf_entry _ Hwf _ _ Hg) as (tm & Ht & Hm).
      exists tm. split; [|done]. rewrite lookup_delete_ne; [done|].
      intros E. rewrite <- E in Ht. simplify_eq. simpl in Hm. destruct Hm. congruence.
    + intros Hl Ha. apply lookup_delete_Some in Hl as [Hne Hl].
      rewrite get_delete_ne; [by eapply wf_call|].
      destruct (call_timer_key _ _ _ _ _ _ Hwf Hl Ha) as (? & _). congruence.
    + intros Hin. apply in_app_or in Hin as [Hin|[[= <- <-]|[]]].
      * by eapply wf_settled_lt.
      * by eapply wf_promise_lt.
  - (* drop *)
    split; intros *; rewrite ?H0, ?H1, ?H2, ?H3, ?H4, ?H5.
    + apply Hwf.
    + intros Hl. apply lookup_delete_Some in Hl as [_ Hl]. by apply Hwf.
    + intros Hl. apply lookup_delete_Some in Hl as [_ Hl]. by eapply wf_conn_only.
    + apply Hwf.
    + intros Hl. apply lookup_delete_Some in Hl as [_ Hl]. by eapply wf_timer_lt.
    + intros Hl. apply lookup_delete_Some in Hl as [_ Hl]. by eapply wf_promise_lt.
    + intros Hl. apply lookup_delete_Some in Hl as [_ Hl]. by eapply wf_unsettled.
    + intros Hl1 Hl2. apply lookup_delete_Some in Hl1 as [_ Hl1].
      apply lookup_delete_Some in Hl2 as [_ Hl2]. by eapply wf_timer_inj.
    + intros Hg. destruct (wf_entry _ Hwf _ _ Hg) as (tm & Ht & Hm).
      exists tm. split; [|done]. rewrite lookup_delete_ne; [done|].
      intros E. rewrite <- E in Ht. apply H in Ht. rewrite Ht in Hm. done.
    + intros Hl Ha. apply lookup_delete_Some in Hl as [Hne Hl]. by eapply wf_call.
    + apply Hwf.
  - (* wipe *)
    split; intros *; rewrite ?H, ?H0, ?H1, ?H2, ?H3, ?H4.
    + apply NoDup_nil_2.
    + intros Hl. apply cleared_lookup_Some in Hl as [Hl _]. by apply Hwf.
    + intros Hl. apply cleared_lookup_Some in Hl as [Hl _]. by eapply wf_conn_only.
    + apply Hwf.
    + intros Hl. apply cleared_lookup_Some in Hl as [Hl _]. by eapply wf_timer_lt.
    + intros Hl. apply cleared_lookup_Some in Hl as [Hl _]. by eapply wf_promise_lt.
    + intros Hl. apply cleared_lookup_Some in Hl as [Hl _]. by eapply wf_unsettled.
    + intros Hl1 Hl2. apply cleared_lookup_Some in Hl1 as [Hl1 _].
      apply cleared_lookup_Some in Hl2 as [Hl2 _]. by eapply wf_timer_inj.
    + done.
    + intros Hl Ha. apply cleared_lookup_Some in Hl as [Hl Hnot].
      pose proof (wf_call _ Hwf _ _ _ _ _ Hl Ha) as Hg.
      exfalso. apply Hnot. apply get_values in Hg.
      apply in_map_iff. exists (call_entry p t). by split.
    + apply Hwf.
  - (* close *)
    split; intros *; rewrite ?H, ?H0, ?H1, ?H2, ?H3, ?H4.
    + apply NoDup_nil_2.
    + intros Hl. apply cleared_lookup_Some in Hl as [Hl _]. by apply Hwf.
    + intros Hl. apply cleared_lookup_Some in Hl as [Hl _]. by eapply wf_conn_only.
    + apply Hwf.
    + intros Hl. apply cleared_lookup_Some in Hl as [Hl _]. by eapply wf_timer_lt.
    + intros Hl. apply cleared_lookup_Some in Hl as [Hl _]. by eapply wf_promise_lt.
    + intros Hl Hp Hin. apply cleared_lookup_Some in Hl as [Hl Hnot].
      apply in_app_or in Hin as [Hin|Hin]; [by eapply wf_unsettled|].
      apply in_map_iff in Hin as (e & [= Hpe _] & Hin).
      apply values_get in Hin as [id Hg]; [|apply Hwf].
      destruct (entry_promise _ _ _ Hwf Hg) as (tm0 & p0 & Ht0 & Hp0 & _ & Hj & _).
      apply Hnot. apply in_map_iff. exists e. split; [|by eapply get_values].
      eapply wf_timer_inj; eauto. congruence.
    + intros Hl1 Hl2. apply cleared_lookup_Some in Hl1 as [Hl1 _].
      apply cleared_lookup_Some in Hl2 as [Hl2 _]. by eapply wf_timer_inj.
    + done.
    + intros Hl Ha. apply cleared_lookup_Some in Hl as [Hl Hnot].
      pose proof (wf_call _ Hwf _ _ _ _ _ Hl Ha) as Hg.
      exfalso. apply Hnot. apply get_values in Hg.
      apply in_map_iff. exists (call_entry p t). by split.
    + intros Hin. apply in_app_or in Hin as [Hin|Hin]; [by eapply wf_settled_lt|].
      apply in_map_iff in Hin as (e & [= Hpe _] & Hin).
      apply values_get in Hin as [id Hg]; [|apply Hwf].
      destruct (entry_promise _ _ _ Hwf Hg) as (tm0 & p0 & Ht0 & Hp0 & _ & Hj & _).
      replace p with p0 by congruence. by eapply wf_promise_lt.
Qed.

(** ** Changes of the table *)

Lemma evolves_refl s : evolves s s.
Proof.
  split; try lia; auto.
  exists []. split; [by rewrite app_nil_r|]. intros ?? [].
Qed.

Lemma evolves_trans s1 s2 s3 : evolves s1 s2 → evolves s2 s3 → evolves s1 s3.
Proof.
  intros [T1 P1 M1 Ts1 Pe1 (new1 & E1 & S1)] [T2 P2 M2 Ts2 Pe2 (new2 & E2 & S2)].
  split; try lia.
  - intros t tm Ht. destruct (Ts2 _ _ Ht) as [Ht'|[Hlt Hp]].
    + auto.
    + right. split; [lia|]. intros p Hpp. specialize (Hp _ Hpp). lia.
  - intros id e Hg. destruct (Pe2 _ _ Hg) as [Hg'|[?|(k & -> & ?)]].
    + auto.
    + auto.
    + right; right. exists k. split; [done|lia].
  - exists (new1 ++ new2). split; [by rewrite E2, E1, app_assoc|].
    intros p o Hin. apply in_app_or in Hin as [Hin|Hin]; [eauto|].
    destruct (S2 _ _ Hin) as [(t & tm & Ht & Hp)|Hle]; [|right; lia].
    destruct (Ts1 _ _ Ht) as [Ht'|[_ Hfresh]]; [left; eauto|].
    right. by apply Hfresh.
Qed.

Lemma move_evolves l s s' : wf s → move l s s' → evolves s s'.
Proof.
  intros Hwf Hmv. destruct Hmv.
  - split; rewrite ?H, ?H0, ?H1, ?H2, ?H3, ?H4; try lia; auto.
    exists []. split; [by rewrite app_nil_r|]. intros ?? [].
  - split; rewrite ?H, ?H0, ?H1, ?H2, ?H3, ?H4; try lia.
    + intros t tm. rewrite lookup_insert. case_decide; [|auto].
      intros [= <-]. right. subst. split; [lia|]. simpl. intros p [= <-]. lia.
    + intros id e.
      destruct (decide (String_of_N (msgId s + 1) = id)) as [<-|Hne].
      * intros _. right; right. exists (msgId s + 1)%N. split; [done|lia].
      * rewrite get_set_ne by done. auto.
    + exists []. split; [by rewrite app_nil_r|]. intros ?? [].
  - split; rewrite ?H, ?H0, ?H1, ?H2, ?H3, ?H4; try lia.
    + intros t tm. rewrite lookup_insert. case_decide; [|auto].
      intros [= <-]. right. subst. split; [lia|]. simpl. intros p [= <-]. lia.
    + intros id e. destruct (decide ("send-wait" = id)) as [<-|Hne]; [auto|].
      rewrite get_set_ne by done. auto.
    + exists []. split; [by rewrite app_nil_r|]. intros ?? [].
  - destruct (entry_promise _ _ _ Hwf H) as (tm0 & p0 & Ht0 & Hp0 & Hr & _).
    split; rewrite ?H0, ?H1, ?H2, ?H3, ?H4, ?H5; try lia.
    + intros t tm Hl. apply lookup_delete_Some in Hl as [_ Hl]. auto.
    + intros id' e' Hg. apply get_delete_Some in Hg as [_ Hg]. auto.
    + eexists. split; [done|]. intros p o' [[= <- <-]|[]].
      left. exists (timer e), tm0. by rewrite Hr.
  - split; rewrite ?H0, ?H1, ?H2, ?H3, ?H4, ?H5; try lia.
    + intros t' tm Hl. apply lookup_delete_Some in Hl as [_ Hl]. auto.
    + intros id' e' Hg. apply get_delete_Some in Hg as [_ Hg]. auto.
    + eexists. split; [done|]. intros p' o' [[= <- <-]|[]].
      left. eauto.
  - split; rewrite ?H0, ?H1, ?H2, ?H3, ?H4, ?H5; try lia; auto.
    + intros t' tm Hl. apply lookup_delete_Some in Hl as [_ Hl]. auto.
    + exists []. split; [by rewrite app_nil_r|]. intros ?? [].
  - split; rewrite ?H, ?H0, ?H1, ?H2, ?H3, ?H4; try lia.
    + intros t' tm Hl. apply cleared_lookup_Some in Hl as [Hl _]. auto.
    + done.
    + exists []. split; [by rewrite app_nil_r|]. intros ?? [].
  - split; rewrite ?H, ?H0, ?H1, ?H2, ?H3, ?H4; try lia.
    + intros t' tm Hl. apply cleared_lookup_Some in Hl as [Hl _]. auto.
    + done.
    + eexists. split; [done|]. intros p o Hin.
      apply in_map_iff in Hin as (e & [= Hpe _] & Hin).
      apply values_get in Hin as [id Hg]; [|apply Hwf].
      destruct (entry_promise _ _ _ Hwf Hg) as (tm0 & p0 & Ht0 & Hp0 & _ & Hj & _).
      left. exists (timer e), tm0. split; [done|]. congruence.
Qed.

Lemma move_touches l s s' t tm :
  move l s s' → timers s !! t = Some tm → timers s' !! t = None → touches l t.
Proof.
  intros Hmv Ht Hn. destruct Hmv; simpl.
  - congruence.
  - rewrite H0, lookup_insert in Hn. case_decide; congruence.
  - rewrite H0, lookup_insert in Hn. case_decide; congruence.
  - rewrite H1 in Hn. destruct (decide (timer e = t)); [done|].
    rewrite lookup_delete_ne in Hn by done. congruence.
  - rewrite H1 in Hn. destruct (decide (t0 = t)); [done|].
    rewrite lookup_delete_ne in Hn by done. congruence.
  - rewrite H1 in Hn. destruct (decide (t0 = t)); [done|].
    rewrite lookup_delete_ne in Hn by done. congruence.
  - done.
  - done.
Qed.

Lemma moves_app ls1 ls2 s1 s2 s3 :
  moves ls1 s1 s2 → moves ls2 s2 s3 → moves (ls1 ++ ls2) s1 s3.
Proof.
  induction 1; simpl; [done|]. intros. econstructor; eauto.
Qed.

Lemma moves_one l s s' : move l s s' → moves [l] s s'.
Proof. intros. econstructor; [done|constructor]. Qed.

Lemma moves_wf ls s s' : wf s → moves ls s s' → wf s'.
Proof.
  intros Hwf Hm. induction Hm; [done|]. eauto using move_wf.
Qed.

Lemma moves_evolves ls s s' : wf s → moves ls s s' → evolves s s'.
Proof.
  intros Hwf Hm. induction Hm; [apply evolves_refl|].
  eapply evolves_trans; [by eapply move_evolves|].
  eauto using move_wf.
Qed.

Lemma moves_touches ls s s' t tm :
  moves ls s s' → timers s !! t = Some tm → timers s' !! t = None →
  Exists (fun l => touches l t) ls.
Proof.
  intros Hm. revert tm.
  induction Hm as [|l ls s1 s2 s3 Hmv Hms IH]; intros tm Ht Hn.
  - congruence.
  - destruct (timers s2 !! t) as [tm'|] eqn:E.
    + apply Exists_cons_tl. by eapply IH.
    + apply Exists_cons_hd. by eapply move_touches.
Qed.

(** ** The handlers as changes of the table *)

Section Handlers.
Context `{Runtime}.

Lemma state_eta s :
  mkState (proc s) (msgId s) (pending s) (authenticated s) (sendRunId s)
    (connectNonce s) (timers s) (nextTimer s) (awaiting s) (nextPromise s)
    (settled s) (jobs s) (readyState s) (clock s) (authFile s) (trace s)
    (exited s) = s.
Proof. by destruct s. Qed.

Lemma clear_loop es s :
  fold_left (fun s e => clearTimeout (timer e) s) es s
  = set_timers (cleared (timers s) es) (nextTimer s) s.
Proof.
  revert s. induction es as [|e es IH]; intros s; simpl.
  - unfold set_timers, cleared; simpl. by rewrite state_eta.
  - rewrite IH. reflexivity.
Qed.

Lemma reject_all_fields v es s :
  let s' := reject_all v es s in
  timers s' = cleared (timers s) es
  ∧ settled s'
    = settled s ++ map (fun e => (target (reject e), outcome_of (reject e) v)) es
  ∧ pending s' = pending s ∧ nextTimer s' = nextTimer s
  ∧ nextPromise s' = nextPromise s ∧ msgId s' = msgId s
  ∧ exited s' = exited s ∧ awaiting s' = awaiting s ∧ trace s' = trace s
  ∧ authFile s' = authFile s ∧ proc s' = proc s
  ∧ authenticated s' = authenticated s ∧ sendRunId s' = sendRunId s
  ∧ readyState s' = readyState s.
Proof.
  unfold reject_all. revert s. induction es as [|e es IH]; intros s; simpl.
  - rewrite app_nil_r. tauto.
  - destruct (IH (settle (reject e) v (clearTimeout (timer e) s)))
      as (-> & -> & -> & -> & -> & -> & -> & -> & -> & -> & -> & -> & -> & ->).
    simpl. rewrite <- app_assoc. tauto.
Qed.

Lemma sendReq_move method params k s :
  move (LCall method) s (sendReq method params k s).
Proof. by constructor. Qed.

Lemma die_move msg code s : move LSame s (die msg code s).
Proof. by constructor. Qed.

Lemma cleanup_move code s : move LWipe s (cleanup code s).
Proof.
  unfold cleanup. rewrite clear_loop.
  constructor; try reflexivity; unfold ws_close; simpl;
    by destruct (readyState s).
Qed.

Lemma cleanup_exited code s : exited (cleanup code s) = Some code.
Proof. reflexivity. Qed.

Lemma handleResponse_move msg s :
  wf s →
  handleResponse msg s = s
  ∨ ∃ id e,
      get_prop msg "id" = Some (JStr id)
      ∧ move (LFinish id e (response_outcome e msg)) s (handleResponse msg s).
Proof.
  intros Hwf. unfold handleResponse, pending_get, response_outcome.
  destruct (get_prop msg "id") as [[| | |id| |]|]; auto.
  destruct (Map.get id (pending s)) as [e|] eqn:Hg; simpl; auto.
  right. exists id, e. split; [done|].
  destruct (entry_promise _ _ _ Hwf Hg) as (_ & p & _ & _ & Hr & Hj & _).
  destruct (truthy_prop (get_prop msg "ok")).
  - by constructor.
  - constructor; try done. simpl. by rewrite Hr, Hj.
Qed.

Lemma complete_wait_move s :
  complete_wait s = s
  ∨ ∃ e, move (LFinish "send-wait" e
                 (outcome_of (resolve e) (wait_result s "completed")))
           s (complete_wait s).
Proof.
  unfold complete_wait.
  destruct (Map.get "send-wait" (pending s)) as [e|] eqn:Hg; auto.
  right. exists e. by constructor.
Qed.

Lemma on_challenge_moves msg s :
  wf s → moves [LDrop connTimer; LCall "connect"] s (on_challenge msg s).
Proof.
  intros Hwf. unfold on_challenge.
  econstructor; [|apply moves_one, sendReq_move].
  constructor; try done. apply Hwf.
Qed.

Lemma sync_moves_one l s s' (P : Label → Prop) :
  move l s s' → P l → ∃ ls, moves ls s s' ∧ Forall P ls.
Proof.
  intros. exists [l]. split; [by apply moves_one|]. by repeat constructor.
Qed.

Lemma sync_moves_nil s (P : Label → Prop) : ∃ ls, moves ls s s ∧ Forall P ls.
Proof. exists []. split; constructor. Qed.

(** Every handler body is a sequence of changes the event accounts for. *)
Lemma ws_onmessage_moves data s s1 :
  wf s →
  ∃ ls, moves ls s (ws_onmessage data s)
        ∧ Forall (allowed (EvMessage data) s s1) ls.
Proof.
  intros Hwf. unfold ws_onmessage.
  destruct data as [msg|].
  2:{ eapply (sync_moves_one LSame); [|exact I]. by constructor. }
  assert (
    ∃ ls, moves ls s
            (if is_challenge msg then on_challenge msg s
             else if is_response msg then handleResponse msg s
             else if is_completion_of (sendRunId s) msg then complete_wait s
             else s)
          ∧ Forall (allowed (EvMessage (Some msg)) s s1) ls) as Hgoal.
  { destruct (is_challenge msg) eqn:Hc.
    { eexists. split; [by apply on_challenge_moves|].
      repeat constructor. }
    destruct (is_response msg) eqn:Hr.
    { destruct (handleResponse_move msg s Hwf) as [->|(id & e & Hid & Hmv)].
      - apply sync_moves_nil.
      - eapply sync_moves_one; [exact Hmv|]. simpl.
        inversion Hmv; subst. split; [done|]. left. auto. }
    destruct (is_completion_of (sendRunId s) msg) eqn:Hd.
    { destruct (complete_wait_move s) as [->|(e & Hmv)].
      - apply sync_moves_nil.
      - eapply sync_moves_one; [exact Hmv|]. simpl.
        inversion Hmv; subst. split; [done|]. right. auto. }
    apply sync_moves_nil. }
  destruct msg; try exact Hgoal.
  eapply (sync_moves_one LSame); [apply die_move|exact I].
Qed.

Lemma fire_moves t s s1 :
  wf s →
  ∃ ls, moves ls s (fire t s) ∧ Forall (allowed (EvTimer t) s s1) ls.
Proof.
  intros Hwf. unfold fire.
  destruct (timers s !! t) as [[d a]|] eqn:Ht; [|apply sync_moves_nil].
  destruct a as [id method p|p|]; simpl.
  - pose proof (wf_call _ Hwf _ _ _ _ _ Ht eq_refl) as Hg.
    eapply (sync_moves_one (LFinish id (call_entry p t)
                              (Rejected (timeout_error method)))).
    + by constructor.
    + simpl. exists d, method. done.
  - eapply (sync_moves_one (LExpireWait t p _)).
    + by econstructor.
    + by simpl.
  - assert (t = connTimer) as -> by (by eapply wf_conn_only).
    eapply (sync_moves_one (LDrop connTimer)); [|done].
    constructor; try done. apply Hwf.
Qed.

Lemma ws_onclose_moves s s1 :
  wf s →
  ∃ ls, moves ls s (ws_onclose s) ∧ Forall (allowed EvClose s s1) ls.
Proof.
  intros Hwf. unfold ws_onclose.
  destruct (authenticated s) eqn:Ha; simpl.
  - eapply (sync_moves_one (LCloseAll closed_error)); [|done].
    fold (reject_all closed_error (Map.values (pending s)) s).
    pose proof (reject_all_fields closed_error (Map.values (pending s)) s)
      as (? & ? & ? & ? & ? & ? & _).
    by constructor.
  - eapply (sync_moves_one (LDrop connTimer)); [|done].
    constructor; try done. apply Hwf.
Qed.

Lemma ws_onerror_move s : wf s → move (LDrop connTimer) s (ws_onerror s).
Proof. intros Hwf. constructor; try done. apply Hwf. Qed.

(** *** Continuations *)

Lemma persist_token_fields r s s' :
  persist_token r s = inr s' →
  pending s' = pending s ∧ timers s' = timers s
  ∧ nextTimer s' = nextTimer s ∧ nextPromise s' = nextPromise s
  ∧ settled s' = settled s ∧ msgId s' = msgId s ∧ jobs s' = jobs s
  ∧ exited s' = exited s ∧ awaiting s' = awaiting s ∧ proc s' = proc s
  ∧ sendRunId s' = sendRunId s ∧ readyState s' = readyState s
  ∧ clock s' = clock s.
Proof.
  unfold persist_token.
  destruct (truthy_prop _); [|intros [= <-]; tauto].
  destruct (storeDeviceToken _ _ _ _ _ _); [done|].
  intros [= <-]. simpl. tauto.
Qed.

Lemma quiet_allowed ev s s' l : quiet s' l → allowed ev s s' l.
Proof. by destruct l. Qed.

Lemma command_done_move r s :
  move LWipe s (command_done r s) ∧ exited (command_done r s) = Some 0%Z.
Proof.
  split; [|done]. unfold command_done.
  pose proof (cleanup_move 0 (emit (Stdout r) s)) as Hm.
  inversion Hm; subst. by constructor.
Qed.

Lemma command_failed_move e s :
  move LWipe s (command_failed e s)
  ∧ exited (command_failed e s) = Some EXIT_OP.
Proof.
  split; [|done]. unfold command_failed.
  pose proof (cleanup_move EXIT_OP (emit (Stderr ("Error: " +:+ error_message e)) s)) as Hm.
  inversion Hm; subst. by constructor.
Qed.

Lemma runCommand_move s :
  ∃ l, move l s (runCommand s) ∧ quiet (runCommand s) l.
Proof.
  unfold runCommand, runSend.
  destruct (command (proc s)); simpl;
    try (eexists; split; [apply sendReq_move|done]).
Qed.

Lemma move_same_then l s s1 s2 :
  move LSame s s1 → move l s1 s2 → move l s s2.
Proof.
  intros Hs Hm. inversion Hs as [? ? Ep Et En Er Es Em| | | | | | |]; subst.
  destruct Hm.
  - apply move_same; congruence.
  - apply move_call; congruence.
  - apply (move_wait d); congruence.
  - apply move_finish; congruence.
  - apply (move_expire t d); congruence.
  - apply move_drop; try congruence. intros tm. rewrite <- Et. auto.
  - apply move_wipe; congruence.
  - apply move_close; congruence.
Qed.

Lemma connect_failed_move e s :
  ∃ l, move l s (connect_failed e s) ∧ quiet (connect_failed e s) l.
Proof.
  unfold connect_failed.
  destruct (truthy _ && stale_token_error e).
  - exists (LCall "connect"). split; [|done]. by constructor.
  - exists LSame. split; [apply die_move|done].
Qed.

Lemma runSend_resumed_move r s :
  match runSend_resumed r s with
  | (s', Now result) => move LSame s s' ∧ result = r
  | (s', Later p) => move LWait s s'
  end.
Proof.
  unfold runSend_resumed. cbv zeta.
  destruct (negb _).
  - split; [by constructor|done].
  - by econstructor.
Qed.

Lemma after_connect_move r s (fail : Value → State → State) :
  (∀ e s, ∃ l, move l s (fail e s) ∧ quiet (fail e s) l) →
  ∃ l, move l s
         match persist_token r s with
         | inl message => fail (VError message) s
         | inr s => runCommand (set_authenticated true s)
         end
       ∧ quiet
           match persist_token r s with
           | inl message => fail (VError message) s
           | inr s => runCommand (set_authenticated true s)
           end l.
Proof.
  intros Hfail. destruct (persist_token r s) as [m|s'] eqn:Hp; [apply Hfail|].
  apply persist_token_fields in Hp as (? & ? & ? & ? & ? & ? & _).
  destruct (runCommand_move (set_authenticated true s')) as (l & Hm & Hq).
  exists l. split; [|done].
  eapply move_same_then; [|exact Hm]. by constructor.
Qed.

Lemma resume_move k o s :
  ∃ l, move l s (resume k o s) ∧ quiet (resume k o s) l.
Proof.
  destruct k, o; simpl.
  all: try (exists LSame; split; [by constructor|done]).
  all: try apply connect_failed_move.
  all: try (apply after_connect_move; intros; first
              [apply connect_failed_move
              |exists LSame; split; [apply die_move|done]]).
  all: try (exists LSame; split; [apply die_move|done]).
  all: try (pose proof (runSend_resumed_move v s) as Hrs;
            destruct (runSend_resumed v s) as [s' [result|p]];
            [destruct Hrs as [Hrs _]; exists LWipe; split; [|done];
             eapply move_same_then; [exact Hrs|apply command_done_move]
            |exists LWait; split; [exact Hrs|done]]).
  all: try (exists LWipe; split; [apply command_done_move|done]).
  all: try (exists LWipe; split; [apply command_failed_move|done]).
Qed.

Lemma cleanup_jobs c s : jobs (cleanup c s) = jobs s.
Proof.
  unfold cleanup. rewrite clear_loop. unfold ws_close; simpl.
  by destruct (readyState s).
Qed.

Lemma runCommand_jobs s : jobs (runCommand s) = jobs s.
Proof.
  unfold runCommand, runSend, command_failed.
  destruct (command (proc s)); simpl; done.
Qed.

Lemma connect_failed_jobs e s : jobs (connect_failed e s) = jobs s.
Proof.
  unfold connect_failed. by destruct (truthy _ && stale_token_error e).
Qed.

Lemma runSend_resumed_jobs r s : jobs (runSend_resumed r s).1 = jobs s.
Proof.
  unfold runSend_resumed. cbv zeta. by destruct (negb _).
Qed.

Lemma resume_jobs k o s : jobs (resume k o s) = jobs s.
Proof.
  destruct k, o; cbn [resume];
    unfold command_done, command_failed, retry_failed;
    rewrite ?cleanup_jobs, ?connect_failed_jobs;
    try done.
  3:{ pose proof (runSend_resumed_jobs v s) as Hj.
      destruct (runSend_resumed v s) as [s' [result|p]]; simpl in Hj; [|done].
      by rewrite cleanup_jobs. }
  - destruct (persist_token v s) eqn:Hp; [apply connect_failed_jobs|].
    apply persist_token_fields in Hp. rewrite runCommand_jobs. simpl. tauto.
  - destruct (persist_token v s) eqn:Hp; [done|].
    apply persist_token_fields in Hp. rewrite runCommand_jobs. simpl. tauto.
Qed.

Lemma resume_settled k o s : settled (resume k o s) = settled s.
Proof.
  destruct (resume_move k o s) as (l & Hm & Hq).
  destruct Hm; simpl in Hq; try done.
Qed.

Lemma resume_exited k o s : exited s ≠ None → exited (resume k o s) ≠ None.
Proof.
  assert (∀ s, exited s ≠ None → exited (runCommand s) ≠ None) as Hrc.
  { intros s0 Hs. unfold runCommand, runSend.
    destruct (command (proc s0)); simpl; done. }
  assert (∀ e s, exited s ≠ None → exited (connect_failed e s) ≠ None) as Hcf.
  { intros e s0 Hs. unfold connect_failed.
    by destruct (truthy _ && stale_token_error e). }
  intros Hs.
  destruct k, o; cbn [resume]; auto; try done.
  - destruct (persist_token v s) eqn:Hp; [by apply Hcf|].
    apply persist_token_fields in Hp. apply Hrc. simpl.
    destruct Hp as (_&_&_&_&_&_&_&->&_). done.
  - destruct (persist_token v s) eqn:Hp; [done|].
    apply persist_token_fields in Hp. apply Hrc. simpl.
    destruct Hp as (_&_&_&_&_&_&_&->&_). done.
  - unfold runSend_resumed. cbv zeta. destruct (negb _); simpl; done.
Qed.

Lemma run_job_moves s job :
  ∃ ls, moves ls s (run_job s job) ∧ Forall (quiet (run_job s job)) ls
        ∧ jobs (run_job s job) = jobs s
        ∧ settled (run_job s job) = settled s
        ∧ (exited s ≠ None → run_job s job = s).
Proof.
  unfold run_job. destruct (exited s) eqn:He.
  { exists []. repeat split; try constructor. }
  destruct (awaiting s !! job.1) as [k|].
  - destruct (resume_move k job.2 s) as (l & Hm & Hq).
    exists [l]. split; [by apply moves_one|].
    split; [by repeat constructor|].
    split; [apply resume_jobs|]. split; [apply resume_settled|done].
  - exists []. repeat split; first [done|constructor].
Qed.

Lemma quiet_exited s s' l : exited s ≠ None → s' = s → quiet s l → quiet s' l.
Proof. by intros ? ->. Qed.

Lemma run_jobs_moves js s :
  let s' := fold_left run_job js s in
  ∃ ls, moves ls s s' ∧ Forall (quiet s') ls
        ∧ jobs s' = jobs s ∧ settled s' = settled s
        ∧ (exited s ≠ None → s' = s).
Proof.
  revert s. induction js as [|j js IH]; intros s; simpl.
  - exists []. repeat split; constructor.
  - destruct (run_job_moves s j) as (ls1 & Hm1 & Hq1 & Hj1 & Hs1 & He1).
    destruct (IH (run_job s j)) as (ls2 & Hm2 & Hq2 & Hj2 & Hs2 & He2).
    exists (ls1 ++ ls2). split; [by eapply moves_app|].
    split; [|split; [congruence|split; [congruence|]]].
    + apply Forall_app. split; [|done].
      eapply Forall_impl; [exact Hq1|]. intros l Hl.
      destruct l; simpl in *; try done.
      rewrite He2; done.
    + intros Hex. rewrite He2; rewrite He1; done.
Qed.

Lemma drain_moves s :
  ∃ ls, moves ls s (drain s) ∧ Forall (quiet (drain s)) ls
        ∧ jobs (drain s) = [] ∧ settled (drain s) = settled s.
Proof.
  unfold drain.
  destruct (run_jobs_moves (jobs s) (set_settled (settled s) [] s))
    as (ls & Hm & Hq & Hj & Hs & _).
  exists (LSame :: ls). split; [|split; [|split]]; try done.
  - econstructor; [|exact Hm]. by constructor.
  - constructor; done.
Qed.

(** *** One turn of the event loop *)

Lemma step_moves s ev :
  wf s →
  ∃ ls, moves ls s (step s ev) ∧ Forall (allowed ev s (step s ev)) ls.
Proof.
  intros Hwf. unfold step. destruct (exited s) eqn:He.
  { exists []. split; constructor. }
  assert (∀ h,
    (∃ ls, moves ls s h ∧ Forall (allowed ev s (drain h)) ls) →
    ∃ ls, moves ls s (drain h) ∧ Forall (allowed ev s (drain h)) ls) as Hdrain.
  { intros h (ls1 & Hm1 & Ha1).
    destruct (drain_moves h) as (ls2 & Hm2 & Hq2 & _).
    exists (ls1 ++ ls2). split; [by eapply moves_app|].
    apply Forall_app. split; [done|].
    eapply Forall_impl; [exact Hq2|]. intros. by apply quiet_allowed. }
  destruct ev.
  - eapply (sync_moves_one LSame); [|exact I]. by constructor.
  - eapply (sync_moves_one (LCall method)); [apply sendReq_move|exact I].
  - apply Hdrain. by apply ws_onmessage_moves.
  - apply Hdrain. by apply fire_moves.
  - apply Hdrain.
    assert (wf (set_readyState CLOSED s)) as Hwf'.
    { eapply move_wf; [exact Hwf|]. by constructor. }
    destruct (ws_onclose_moves (set_readyState CLOSED s)
                (drain (ws_onclose (set_readyState CLOSED s))) Hwf')
      as (ls & Hm & Ha).
    exists (LSame :: ls). split.
    + econstructor; [|exact Hm]. by constructor.
    + constructor; [done|].
      eapply Forall_impl; [exact Ha|]. intros l Hl. by destruct l.
  - eapply (sync_moves_one (LDrop connTimer)); [by apply ws_onerror_move|done].
  - eapply (sync_moves_one LWipe); [apply cleanup_move|done].
  - eapply (sync_moves_one LSame); [|exact I]. by constructor.
Qed.

Lemma step_wf s ev : wf s → wf (step s ev).
Proof.
  intros Hwf. destruct (step_moves s ev Hwf) as (ls & Hm & _).
  by eapply moves_wf.
Qed.

Lemma step_evolves s ev : wf s → evolves s (step s ev).
Proof.
  intros Hwf. destruct (step_moves s ev Hwf) as (ls & Hm & _).
  by eapply moves_evolves.
Qed.

Lemma step_quiescent s ev : quiescent s → quiescent (step s ev).
Proof.
  unfold quiescent, step. intros Hq. destruct (exited s); [done|].
  destruct ev; simpl; try done;
    try (by destruct (drain_moves (ws_onmessage data s)) as (_&_&_&?&_));
    try (by destruct (drain_moves (fire t s)) as (_&_&_&?&_));
    try (by destruct (drain_moves (ws_onclose (set_readyState CLOSED s)))
              as (_&_&_&?&_)).
  unfold cleanup. rewrite clear_loop. unfold ws_close; simpl.
  by destruct (readyState s).
Qed.

Lemma step_exited s ev c : exited s = Some c → step s ev = s.
Proof. unfold step. by intros ->. Qed.

Lemma run_exited s es c : exited s = Some c → run s es = s.
Proof.
  intros He. unfold run. induction es as [|e es IH]; simpl; [done|].
  by rewrite (step_exited _ _ _ He).
Qed.

Lemma run_app s es1 es2 : run s (es1 ++ es2) = run (run s es1) es2.
Proof. apply fold_left_app. Qed.

Lemma init_wf c : wf (init c).
Proof.
  split; simpl.
  - apply NoDup_nil_2.
  - intros tm. rewrite lookup_singleton_eq. by intros [= <-].
  - intros t tm Hl. by apply lookup_singleton_Some in Hl as [<- _].
  - lia.
  - intros t tm Hl. apply lookup_singleton_Some in Hl as [<- _].
    unfold connTimer. lia.
  - intros t tm p Hl. apply lookup_singleton_Some in Hl as [_ <-]. done.
  - intros t tm p o Hl. apply lookup_singleton_Some in Hl as [_ <-]. done.
  - intros t1 t2 tm1 tm2 p Hl. apply lookup_singleton_Some in Hl as [_ <-]. done.
  - done.
  - intros t tm id m p Hl. apply lookup_singleton_Some in Hl as [_ <-]. done.
  - done.
Qed.

Lemma run_wf s es : wf s → wf (run s es).
Proof.
  unfold run. revert s. induction es; simpl; auto using step_wf.
Qed.

Lemma run_quiescent s es : quiescent s → quiescent (run s es).
Proof.
  unfold run. revert s. induction es; simpl; auto using step_quiescent.
Qed.

Lemma run_evolves s es : wf s → evolves s (run s es).
Proof.
  unfold run. revert s. induction es as [|e es IH]; simpl; intros s Hwf.
  - apply evolves_refl.
  - eapply evolves_trans; [by apply step_evolves|]. apply IH. by apply step_wf.
Qed.

End Handlers.

(** ** Calls along a run *)

Section Traces.
Context `{Runtime}.

Lemma outcomes_in_app p l1 l2 :
  outcomes_in p (l1 ++ l2) = outcomes_in p l1 ++ outcomes_in p l2.
Proof. unfold outcomes_in. by rewrite filter_app, map_app. Qed.

Lemma outcomes_in_nil p l :
  (∀ o, ¬ In (p, o) l) → outcomes_in p l = [].
Proof.
  unfold outcomes_in. induction l as [|[q o] l IH]; intros Hn; [done|].
  rewrite filter_cons. simpl. case_bool_decide as E.
  - exfalso. apply (Hn o). left. by subst.
  - apply IH. intros o' Hin. apply (Hn o'). by right.
Qed.

Lemma outcomes_in_one p o : outcomes_in p [(p, o)] = [o].
Proof.
  unfold outcomes_in. rewrite filter_cons. simpl.
  by rewrite bool_decide_eq_true_2.
Qed.

Lemma drain_quiescent s : quiescent s → drain s = s.
Proof.
  unfold quiescent, drain. intros Hq. rewrite Hq. simpl.
  unfold set_settled. rewrite <- Hq. apply state_eta.
Qed.

Lemma outstanding_unsettled s id m p t :
  wf s → outstanding s id m p t → outcomes p s = [].
Proof.
  intros Hwf [_ Ht]. apply outcomes_in_nil. intros o.
  by eapply (wf_unsettled _ Hwf).
Qed.

Lemma outstanding_key s id m p t :
  wf s → outstanding s id m p t →
  id ≠ "send-wait" ∧ ∃ k, id = String_of_N k ∧ (k <= msgId s)%N.
Proof. intros Hwf [_ Ht]. by eapply call_timer_key. Qed.

(** A response is not a challenge, and is not [null]. *)
Lemma response_not_challenge msg :
  is_response msg = true → is_challenge msg = false.
Proof.
  unfold is_response, is_challenge.
  destruct (get_prop msg "type") as [[| | |ty| |]|]; simpl; try done.
  case_bool_decide; [subst|done]. intros _. done.
Qed.

Lemma strict_eq_str v x :
  strict_eq v (Some (JStr x)) = true ↔ v = Some (JStr x).
Proof.
  destruct v as [[| | |y| |]|]; simpl; try (split; [done|congruence]).
  rewrite bool_decide_eq_true. split; [by intros ->|by intros [= ->]].
Qed.

(** An event that leaves the call alone leaves its timer in place. *)
Lemma step_outstanding s ev id m p t :
  wf s → outstanding s id m p t → unrelated id t ev = true →
  exited (step s ev) = None →
  outstanding (step s ev) id m p t.
Proof.
  intros Hwf Hout Hun Hex.
  destruct (step_moves s ev Hwf) as (ls & Hm & Hall).
  pose proof (moves_wf _ _ _ Hwf Hm) as Hwf'.
  pose proof (moves_evolves _ _ _ Hwf Hm) as Hev.
  destruct Hout as [Hg Ht].
  destruct (outstanding_key s id m p t Hwf (conj Hg Ht)) as (Hsw & k & Hk & _).
  assert (timers (step s ev) !! t
          = Some {| delay := OPERATION_TIMEOUT; action := TCall id m p |}) as Ht'.
  { destruct (timers (step s ev) !! t) as [tm'|] eqn:E.
    - destruct (ev_timers _ _ Hev _ _ E) as [Hold|[Hlt _]]; [congruence|].
      apply (wf_timer_lt _ Hwf) in Ht. lia.
    - exfalso.
      pose proof (moves_touches _ _ _ _ _ Hm Ht E) as Hex'.
      apply Exists_exists in Hex' as (l & Hin & Htouch).
      rewrite Forall_forall in Hall. specialize (Hall _ Hin).
      destruct l; simpl in Hall, Htouch; try done.
      + (* finish *)
        destruct ev as [| |[msg|]|t0| | | |]; try done.
        * destruct Hall as (Hg' & Hcase).
          assert (id0 = id) as ->
            by exact (entry_timer_key s id0 id e (call_entry p t) Hwf Hg' Hg Htouch).
          destruct Hcase as [(_ & Hr & Hid & _)|(_ & _ & _ & ? & _)]; [|congruence].
          simpl in Hun. rewrite Hr, Hid in Hun. simpl in Hun.
          by rewrite bool_decide_eq_true_2 in Hun.
        * destruct Hall as (d0 & m0 & _ & _ & Hte & _).
          subst. simpl in Hun. by rewrite bool_decide_eq_true_2 in Hun.
      + destruct Hall as [-> _]. subst. simpl in Hun.
        by rewrite bool_decide_eq_true_2 in Hun.
      + subst. pose proof (wf_conn _ Hwf _ Ht). done.
      + destruct Hall as [-> _]. done. }
  split; [|done]. by eapply (wf_call _ Hwf').
Qed.

Lemma run_outstanding s es id m p t :
  wf s → outstanding s id m p t → forallb (unrelated id t) es = true →
  exited (run s es) = None →
  outstanding (run s es) id m p t.
Proof.
  revert s. induction es as [|e es IH]; intros s Hwf Ho Hun Hex.
  - done.
  - change (run s (e :: es)) with (run (step s e) es) in *.
    simpl in Hun. apply andb_prop in Hun as [Hu Hun].
    destruct (exited (step s e)) as [c|] eqn:He.
    { rewrite (run_exited _ _ _ He) in Hex. congruence. }
    apply IH; auto using step_wf. by apply step_outstanding.
Qed.

(** A promise no timer awaits is never settled again. *)
Lemma evolves_retired s s' p :
  evolves s s' → retired s p →
  retired s' p ∧ outcomes p s' = outcomes p s.
Proof.
  intros Hev [Hlt Hno]. split; [split|].
  - pose proof (ev_promise _ _ Hev). lia.
  - intros t tm Ht Hp. destruct (ev_timers _ _ Hev _ _ Ht) as [Hold|[_ Hfresh]].
    + by eapply Hno.
    + specialize (Hfresh _ Hp). lia.
  - destruct (ev_settled _ _ Hev) as (new & E & Hnew).
    unfold outcomes. rewrite E, outcomes_in_app.
    rewrite (outcomes_in_nil p new); [by rewrite app_nil_r|].
    intros o Hin. destruct (Hnew _ _ Hin) as [(t & tm & Ht & Hp)|Hle]; [|lia].
    by eapply Hno.
Qed.

Lemma run_retired s es p :
  wf s → retired s p →
  retired (run s es) p ∧ outcomes p (run s es) = outcomes p s.
Proof.
  intros Hwf Hr. apply evolves_retired; [|done]. by apply run_evolves.
Qed.

Lemma evolves_released s s' id :
  evolves s s' → released s id → released s' id.
Proof.
  intros Hev [Hn (k & -> & Hk)]. split.
  - destruct (Map.get (String_of_N k) (pending s')) as [e|] eqn:E; [|done].
    destruct (ev_pending _ _ Hev _ _ E) as [?|[Hsw|(k' & Hk' & ?)]].
    + congruence.
    + by apply String_of_N_not_send_wait in Hsw.
    + apply String_of_N_inj in Hk'. lia.
  - exists k. split; [done|]. pose proof (ev_msgId _ _ Hev). lia.
Qed.

(** Once the timer of a promise is gone, the promise is retired. *)
Lemma consumed_retired s s' t tm p :
  wf s → evolves s s' → timers s !! t = Some tm →
  timer_promise (action tm) = Some p → timers s' !! t = None →
  retired s' p.
Proof.
  intros Hwf Hev Ht Hp Hn. split.
  - pose proof (wf_promise_lt _ Hwf _ _ _ Ht Hp).
    pose proof (ev_promise _ _ Hev). lia.
  - intros t' tm' Ht' Hp'.
    destruct (ev_timers _ _ Hev _ _ Ht') as [Hold|[_ Hfresh]].
    + assert (t' = t) as -> by (eapply wf_timer_inj; eauto). congruence.
    + specialize (Hfresh _ Hp').
      pose proof (wf_promise_lt _ Hwf _ _ _ Ht Hp). lia.
Qed.

(** What follows a handler cannot bring a timer back. *)
Lemma drain_keeps_gone h t :
  wf h → t < nextTimer h → timers h !! t = None → timers (drain h) !! t = None.
Proof.
  intros Hwf Hlt Hn. destruct (drain_moves h) as (ls & Hm & _).
  pose proof (moves_evolves _ _ _ Hwf Hm) as Hev.
  destruct (timers (drain h) !! t) as [tm|] eqn:E; [|done].
  destruct (ev_timers _ _ Hev _ _ E) as [?|[? _]]; [congruence|lia].
Qed.

Lemma drain_released h id :
  wf h → released h id → released (drain h) id.
Proof.
  intros Hwf Hr. destruct (drain_moves h) as (ls & Hm & _).
  eapply evolves_released; [|done]. by eapply moves_evolves.
Qed.

(** The response that carries the identifier of a pending call settles
    its promise, with what the frame holds. *)
Lemma step_response s msg id m p t :
  wf s → exited s = None → outstanding s id m p t →
  is_response msg = true → get_prop msg "id" = Some (JStr id) →
  let s' := step s (EvMessage (Some msg)) in
  settled s' = settled s ++ [(p, response_outcome (call_entry p t) msg)]
  ∧ retired s' p ∧ released s' id.
Proof.
  intros Hwf Hex Hout Hr Hid. simpl.
  pose proof Hout as [Hg Ht].
  destruct (outstanding_key _ _ _ _ _ Hwf Hout) as (_ & k & Hk & Hle).
  unfold step. rewrite Hex.
  set (h := ws_onmessage (Some msg) s).
  assert (h = handleResponse msg s) as Hh.
  { subst h. unfold ws_onmessage.
    rewrite (response_not_challenge _ Hr), Hr.
    destruct msg; try done. }
  assert (move (LFinish id (call_entry p t)
                  (response_outcome (call_entry p t) msg)) s h) as Hmv.
  { rewrite Hh. unfold handleResponse, pending_get, response_outcome.
    rewrite Hid, Hg. simpl.
    destruct (truthy_prop (get_prop msg "ok")); by constructor. }
  pose proof (move_wf _ _ _ Hwf Hmv) as Hwfh.
  pose proof (move_evolves _ _ _ Hwf Hmv) as Hevh.
  destruct (drain_moves h) as (ls & Hm & _ & _ & Hs).
  pose proof (moves_evolves _ _ _ Hwfh Hm) as Hevd.
  inversion Hmv; subst.
  match goal with
  | H1 : pending h = _, H2 : timers h = _, H3 : nextTimer h = _,
    H4 : settled h = _ |- _ =>
      rename H1 into Ep; rename H2 into Et; rename H3 into En; rename H4 into Es
  end.
  split; [by rewrite Hs, Es|]. split.
  - eapply (consumed_retired s); [done|by eapply evolves_trans|exact Ht|done|].
    apply drain_keeps_gone; [done| |].
    + rewrite En. by eapply wf_timer_lt.
    + rewrite Et. simpl. apply lookup_delete_eq.
  - apply drain_released; [done|]. split.
    + rewrite Ep. apply get_delete_eq.
    + exists k. split; [done|]. pose proof (ev_msgId _ _ Hevh). lia.
Qed.

(** The deadline of a pending call rejects its promise with the time-out
    that names the method. *)
Lemma step_timeout s id m p t :
  wf s → exited s = None → outstanding s id m p t →
  let s' := step s (EvTimer t) in
  settled s' = settled s ++ [(p, Rejected (timeout_error m))]
  ∧ retired s' p ∧ released s' id.
Proof.
  intros Hwf Hex Hout. simpl.
  pose proof Hout as [Hg Ht].
  destruct (outstanding_key _ _ _ _ _ Hwf Hout) as (_ & k & Hk & Hle).
  unfold step. rewrite Hex.
  set (h := fire t s).
  assert (move (LFinish id (call_entry p t) (Rejected (timeout_error m))) s h)
    as Hmv.
  { subst h. unfold fire. rewrite Ht. simpl. by constructor. }
  pose proof (move_wf _ _ _ Hwf Hmv) as Hwfh.
  pose proof (move_evolves _ _ _ Hwf Hmv) as Hevh.
  destruct (drain_moves h) as (ls & Hm & _ & _ & Hs).
  pose proof (moves_evolves _ _ _ Hwfh Hm) as Hevd.
  inversion Hmv; subst.
  match goal with
  | H1 : pending h = _, H2 : timers h = _, H3 : nextTimer h = _,
    H4 : settled h = _ |- _ =>
      rename H1 into Ep; rename H2 into Et; rename H3 into En; rename H4 into Es
  end.
  split; [by rewrite Hs, Es|]. split.
  - eapply (consumed_retired s); [done|by eapply evolves_trans|exact Ht|done|].
    apply drain_keeps_gone; [done| |].
    + rewrite En. by eapply wf_timer_lt.
    + rewrite Et. simpl. apply lookup_delete_eq.
  - apply drain_released; [done|]. split.
    + rewrite Ep. apply get_delete_eq.
    + exists k. split; [done|]. pose proof (ev_msgId _ _ Hevh). lia.
Qed.

(** A response whose identifier the table does not hold changes
    nothing. *)
Lemma step_late_response s msg id :
  quiescent s → released s id →
  is_response msg = true → get_prop msg "id" = Some (JStr id) →
  step s (EvMessage (Some msg)) = s.
Proof.
  intros Hq [Hn _] Hr Hid. unfold step. destruct (exited s); [done|].
  assert (ws_onmessage (Some msg) s = s) as ->.
  { unfold ws_onmessage. rewrite (response_not_challenge _ Hr), Hr.
    unfold handleResponse, pending_get. rewrite Hid, Hn. simpl.
    destruct msg; try done. }
  by apply drain_quiescent.
Qed.

End Traces.

(** ** The handshake *)

Section Handshake.
Context `{Runtime}.

Lemma is_settled_false p s :
  (∀ o, ¬ In (p, o) (settled s)) → is_settled p s = false.
Proof.
  unfold is_settled. intros Hn. apply not_true_is_false. intros E.
  apply existsb_exists in E as ([q o] & Hin & Hq).
  apply bool_decide_eq_true in Hq. simpl in Hq. subst. by eapply Hn.
Qed.

Lemma call_rejected s id m p t k ev e :
  wf s → quiescent s → exited s = None → outstanding s id m p t →
  awaiting s !! p = Some k →
  rejection id t m ev = Some e →
  step s ev = resume k (Rejected e) (settled_call id t p (Rejected e) s).
Proof.
  intros Hwf Hq Hex [Hg Ht] Hk Hrej.
  assert (is_settled p s = false) as Hns.
  { apply is_settled_false. intros o. by eapply (wf_unsettled _ Hwf). }
  unfold step. rewrite Hex.
  assert (∀ h, h = settle {| target := p; how := Reject |} e
                     (set_pending (Map.delete id (pending s)) (clearTimeout t s)) →
               drain h = resume k (Rejected e) (settled_call id t p (Rejected e) s))
    as Hdrain.
  { intros h ->. unfold drain, settle.
    replace (is_settled _ _) with false by (symmetry; exact Hns).
    cbn [jobs set_settled set_pending clearTimeout set_timers settled target].
    rewrite Hq. cbn [app fold_left]. unfold run_job.
    cbn [exited awaiting set_settled set_pending clearTimeout set_timers fst snd].
    rewrite Hex, Hk. reflexivity. }
  destruct ev as [| |[msg|]|t'| | | |]; simpl in Hrej; try done.
  - destruct (is_response msg) eqn:Hr; [|done]. simpl in Hrej.
    destruct (strict_eq (get_prop msg "id") (Some (JStr id))) eqn:Hid; [|done].
    apply strict_eq_str in Hid. simpl in Hrej.
    destruct (truthy_prop (get_prop msg "ok")) eqn:Hok; [done|].
    simpl in Hrej. injection Hrej as <-.
    apply Hdrain. unfold ws_onmessage.
    rewrite (response_not_challenge _ Hr), Hr.
    unfold handleResponse, pending_get. rewrite Hid, Hg. simpl. rewrite Hok.
    by destruct msg.
  - case_bool_decide; [subst|done]. injection Hrej as <-.
    apply Hdrain. unfold fire. rewrite Ht. reflexivity.
Qed.


Lemma sendReq_outstanding method params k s :
  let s' := sendReq method params k s in
  outstanding s' (String_of_N (msgId s + 1)) method (nextPromise s) (nextTimer s)
  ∧ awaiting s' !! nextPromise s = Some k
  ∧ trace s'
    = trace s ++ [Send (request_frame (String_of_N (msgId s + 1)) method params)]
  ∧ exited s' = exited s ∧ authFile s' = authFile s ∧ proc s' = proc s
  ∧ msgId s' = (msgId s + 1)%N ∧ nextPromise s' = S (nextPromise s)
  ∧ nextTimer s' = S (nextTimer s) ∧ jobs s' = jobs s ∧ clock s' = clock s.
Proof.
  unfold sendReq, outstanding. fields.
  rewrite get_set_eq, !lookup_insert_eq. done.
Qed.

Lemma challenge_step s msg :
  quiescent s → exited s = None → is_challenge msg = true →
  step s (EvMessage (Some msg)) = on_challenge msg s.
Proof.
  intros Hq Hex Hc. unfold step. rewrite Hex.
  assert (ws_onmessage (Some msg) s = on_challenge msg s) as ->.
  { unfold ws_onmessage. rewrite Hc. by destruct msg. }
  apply drain_quiescent. unfold quiescent.
  unfold on_challenge, sendReq. fields. done.
Qed.

(** The connect parameters depend on the configuration and the clock
    only, and carry the token they are built for. *)
Lemma connect_params_ext tok s s' :
  proc s' = proc s → clock s' = clock s →
  connect_params tok s' = connect_params tok s.
Proof. unfold connect_params, Date_now. by intros -> ->. Qed.

Lemma connect_params_token tok s :
  optchain (get_prop (connect_params tok s) "auth") "token" = Some tok.
Proof.
  unfold connect_params. obj_lookup. rewrite optchain_Some. by obj_lookup.
Qed.

(** The handshake, as the code has it.  In a state the bridge can reach, still
    running, a challenge makes it send one connect request, with the token
    of the cache when the cache returned one (anything but [null]) and
    with the gateway token otherwise.  When that request is rejected, by a
    response or by its deadline, with error [e]: if the cached token is
    truthy and [e] names a stale token, the token file is unlinked, the
    warning is printed and one connect request with the gateway token is
    sent, in this order, and a rejection of that request ends the process
    with the authentication status and sends nothing more; in every other
    case (no cached token, an empty one, another error) the process ends
    with the authentication status at once. *)
Theorem handshake_retry (c : Config) (es : list Event) (msg : JSON) :
  let s0 := run (init c) es in
  let cached := STORED_DEVICE_TOKEN (proc s0) in
  let gateway := JStr (TOKEN (proc s0)) in
  let s1 := step s0 (EvMessage (Some msg)) in
  let id1 := String_of_N (msgId s0 + 1) in
  let id2 := String_of_N (msgId s1 + 1) in
  exited s0 = None →
  is_challenge msg = true →
  trace s1
  = trace s0
    ++ [Send (request_frame id1 "connect"
                (connect_params (nullish_or (Some cached) gateway) s1))]
  ∧ outstanding s1 id1 "connect" (nextPromise s0) (nextTimer s0)
  ∧ ∀ ev e,
      rejection id1 (nextTimer s0) "connect" ev = Some e →
      let s2 := step s1 ev in
      (truthy cached = true → stale_token_error e = true →
       exited s2 = None
       ∧ authFile s2 = None
       ∧ trace s2
         = trace s1
           ++ [Unlink;
               Stderr "Warning: Stored device token expired, retrying with gateway token...";
               Send (request_frame id2 "connect" (connect_params gateway s2))]
       ∧ outstanding s2 id2 "connect" (nextPromise s1) (nextTimer s1)
       ∧ ∀ ev' e',
           rejection id2 (nextTimer s1) "connect" ev' = Some e' →
           let s3 := step s2 ev' in
           exited s3 = Some EXIT_AUTH
           ∧ trace s3
             = trace s2
               ++ [Stderr ("Error: Authentication failed after retry — "
                           +:+ error_message e');
                   Exit EXIT_AUTH]
           ∧ ∀ es', run s3 es' = s3)
      ∧ (truthy cached && stale_token_error e = false →
         exited s2 = Some EXIT_AUTH
         ∧ trace s2
           = trace s1
             ++ [Stderr ("Error: Authentication failed — " +:+ error_message e);
                 Exit EXIT_AUTH]
         ∧ ∀ es', run s2 es' = s2).
Proof.
  intros s0 cached gateway s1 id1 id2 Hex Hc.
  assert (wf s0) as Hwf0 by apply run_wf, init_wf.
  assert (quiescent s0) as Hq0 by (by apply run_quiescent).
  assert (s1 = on_challenge msg s0) as Hs1 by (by apply challenge_step).
  assert (wf s1) as Hwf1 by (by apply step_wf).
  assert (quiescent s1) as Hq1 by (by apply step_quiescent).
  unfold on_challenge in Hs1. cbv zeta in Hs1.
  match type of Hs1 with
  | _ = sendReq ?m ?params ?k ?s =>
      pose proof (sendReq_outstanding m params k s) as Hsend;
      rewrite <- Hs1 in Hsend
  end.
  revert Hsend. fields.
  intros (Hout1 & Haw1 & Htr1 & Hex1 & Hfile1 & Hproc1 & Hid1 & Hp1 & Ht1 & _ & Hclk1).
  split; [|split; [exact Hout1|]].
  { rewrite Htr1. do 4 f_equal. symmetry. by apply connect_params_ext. }
  intros ev e Hrej.
  rewrite Hex in Hex1.
  pose proof (call_rejected s1 id1 "connect" (nextPromise s0) (nextTimer s0)
                KConnect ev e Hwf1 Hq1 Hex1 Hout1 Haw1 Hrej) as Hs2.
  cbn [resume] in Hs2.
  assert (wf (step s1 ev)) as Hwf2 by (apply step_wf; exact Hwf1).
  assert (quiescent (step s1 ev)) as Hq2 by (apply step_quiescent; exact Hq1).
  set (s2 := step s1 ev) in *.
  set (h := settled_call id1 (nextTimer s0) (nextPromise s0) (Rejected e) s1) in *.
  assert (proc h = proc s0) as Hph by (subst h; unfold settled_call; by fields).
  split.
  - intros Hcached Hstale.
    unfold connect_failed in Hs2. rewrite Hph in Hs2.
    fold cached in Hs2. rewrite Hcached, Hstale in Hs2. cbn [andb] in Hs2.
    match type of Hs2 with
    | _ = sendReq ?m ?params ?k ?s =>
        pose proof (sendReq_outstanding m params k s) as Hsend2;
        rewrite <- Hs2 in Hsend2
    end.
    revert Hsend2. subst h. unfold settled_call, unlinkSync. fields.
    rewrite Hex1, Hproc1.
    intros (Hout2 & Haw2 & Htr2 & Hex2 & Hfile2 & Hproc2 & _ & _ & _ & _ & Hclk2).
    split; [exact Hex2|]. split; [exact Hfile2|].
    split; [|split; [exact Hout2|]].
    { rewrite Htr2, <- !app_assoc. cbn [app]. do 6 f_equal.
      symmetry. apply connect_params_ext; [by rewrite Hproc2|by rewrite Hclk2]. }
    intros ev' e' Hrej'.
    pose proof (call_rejected s2 id2 "connect" (nextPromise s1) (nextTimer s1)
                  KRetry ev' e' Hwf2 Hq2 Hex2 Hout2 Haw2 Hrej') as Hs3.
    cbn [resume] in Hs3.
    set (s3 := step s2 ev') in *.
    assert (exited s3 = Some EXIT_AUTH) as Hex3 by (by rewrite Hs3).
    split; [done|]. split; [|intros es'; by eapply run_exited].
    rewrite Hs3. unfold retry_failed, die, settled_call. fields.
    by rewrite <- app_assoc.
  - intros Hno.
    unfold connect_failed in Hs2. rewrite Hph in Hs2.
    fold cached in Hs2. rewrite Hno in Hs2.
    assert (exited s2 = Some EXIT_AUTH) as Hex2 by (by rewrite Hs2).
    split; [done|]. split; [|intros es'; by eapply run_exited].
    rewrite Hs2. unfold die. subst h. unfold settled_call. fields.
    by rewrite <- app_assoc.
Qed.

End Handshake.

(** ** Calls, waits, shutdown and the signed payload *)

Section Statements.
Context `{Runtime}.

(** *** Calls and their responses *)

(** C2.  Responses are matched to calls by identifier, never by arrival.
    Take a call issued via [sendReq] that is pending ([outstanding]) in a
    state the bridge can reach, and let any events follow that do not
    concern it: other calls, responses to other identifiers in any order,
    lifecycle events, malformed frames, other deadlines.  While the process
    runs the promise of the call stays unsettled, and the response frame
    that carries the identifier of the call settles it, once and for all
    later events, with the payload of that frame when [ok] is truthy and
    otherwise with the [Error] made from the [error] of that frame. *)
Theorem response_correlation (c : Config) (es1 es2 : list Event)
    (id method : string) (p t : nat) (msg : JSON) :
  outstanding (run (init c) es1) id method p t →
  forallb (unrelated id t) es2 = true →
  exited (run (run (init c) es1) es2) = None →
  is_response msg = true →
  get_prop msg "id" = Some (JStr id) →
  outcomes p (run (run (init c) es1) es2) = []
  ∧ ∀ es3,
      outcomes p
        (run (step (run (run (init c) es1) es2) (EvMessage (Some msg))) es3)
      = [if truthy_prop (get_prop msg "ok")
         then Fulfilled (of_prop (get_prop msg "payload"))
         else Rejected
                (VError (JSON_stringify
                           (falsy_or (get_prop msg "error")
                              (JStr "Unknown error"))))].
Proof.
  intros Hout Hun Hex Hr Hid.
  set (s := run (init c) es1) in *. set (s' := run s es2) in *.
  assert (wf s) as Hwf by apply run_wf, init_wf.
  assert (wf s') as Hwf' by (by apply run_wf).
  assert (outstanding s' id method p t) as Hout' by (by apply run_outstanding).
  pose proof (outstanding_unsettled _ _ _ _ _ Hwf' Hout') as Hnone.
  split; [done|]. intros es3.
  destruct (step_response s' msg id method p t Hwf' Hex Hout' Hr Hid)
    as (Hs & Hret & _).
  destruct (run_retired _ es3 p (step_wf _ _ Hwf') Hret) as [_ ->].
  unfold outcomes in *. rewrite Hs, outcomes_in_app, Hnone, outcomes_in_one.
  unfold response_outcome. simpl. by destruct (truthy_prop _).
Qed.

(** C3.  A pending call that no response reaches before its deadline is
    rejected by its timer with the time-out that names the method; from
    then on, whatever happens, the log holds that one rejection for its
    promise, the table does not hold its identifier, and a response frame
    that carries the identifier leaves the state exactly as it is. *)
Theorem call_timeout (c : Config) (es1 es2 es3 : list Event)
    (id method : string) (p t : nat) :
  outstanding (run (init c) es1) id method p t →
  forallb (unrelated id t) es2 = true →
  exited (run (run (init c) es1) es2) = None →
  let s3 := run (step (run (run (init c) es1) es2) (EvTimer t)) es3 in
  outcomes p s3
  = [Rejected (VError ("Timeout waiting for response to " +:+ method))]
  ∧ Map.get id (pending s3) = None
  ∧ ∀ late,
      is_response late = true → get_prop late "id" = Some (JStr id) →
      step s3 (EvMessage (Some late)) = s3.
Proof.
  intros Hout Hun Hex.
  set (s := run (init c) es1) in *. set (s' := run s es2) in *.
  assert (wf s) as Hwf by apply run_wf, init_wf.
  assert (quiescent s) as Hq by (by apply run_quiescent).
  assert (wf s') as Hwf' by (by apply run_wf).
  assert (outstanding s' id method p t) as Hout' by (by apply run_outstanding).
  pose proof (outstanding_unsettled _ _ _ _ _ Hwf' Hout') as Hnone.
  destruct (step_timeout s' id method p t Hwf' Hex Hout') as (Hs & Hret & Hrel).
  set (s'' := step s' (EvTimer t)) in *.
  assert (wf s'') as Hwf'' by (by apply step_wf).
  intros s3.
  destruct (run_retired _ es3 p Hwf'' Hret) as [_ Ho].
  assert (released s3 id) as Hrel3.
  { eapply evolves_released; [by apply run_evolves|done]. }
  split; [|split].
  - subst s3. rewrite Ho. unfold outcomes in *.
    by rewrite Hs, outcomes_in_app, Hnone, outcomes_in_one.
  - apply Hrel3.
  - intros late Hr Hid. eapply step_late_response; eauto.
    subst s3 s'' s' s. by repeat first [apply run_quiescent|apply step_quiescent].
Qed.

(** *** The completion wait *)

Lemma lifecycle_fields msg :
  lifecycle_event msg = true →
  get_prop msg "type" = Some (JStr "event")
  ∧ get_prop msg "event" = Some (JStr "agent").
Proof.
  unfold lifecycle_event. intros E.
  apply andb_prop in E as [E _]. apply andb_prop in E as [E1 E2].
  by rewrite strict_eq_str in E1, E2.
Qed.

Lemma completion_lifecycle runId msg :
  is_completion_of runId msg = true → lifecycle_event msg = true.
Proof.
  unfold is_completion_of, lifecycle_event. intros E.
  repeat (apply andb_prop in E as [E ?]).
  by repeat (apply andb_true_intro; split).
Qed.

Lemma lifecycle_dispatch msg s :
  lifecycle_event msg = true →
  ws_onmessage (Some msg) s
  = if is_completion_of (sendRunId s) msg then complete_wait s else s.
Proof.
  intros E. destruct (lifecycle_fields _ E) as [Ht Hev].
  unfold ws_onmessage, is_challenge, is_response. rewrite Ht, Hev. simpl.
  destruct msg; try done.
Qed.

Lemma lifecycle_ignored msg runId s :
  quiescent s → sendRunId s = Some runId →
  lifecycle_event msg = true → is_completion_of (Some runId) msg = false →
  step s (EvMessage (Some msg)) = s.
Proof.
  intros Hq Hrun Hl Hno. unfold step. destruct (exited s); [done|].
  rewrite lifecycle_dispatch, Hrun, Hno by done. by apply drain_quiescent.
Qed.

Lemma run_lifecycle_ignored evs runId s :
  quiescent s → sendRunId s = Some runId →
  Forall (fun msg => lifecycle_event msg = true
                     ∧ is_completion_of (Some runId) msg = false) evs →
  run s (map (fun msg => EvMessage (Some msg)) evs) = s.
Proof.
  intros Hq Hrun Hall. induction Hall as [|msg evs [Hl Hno] _ IH]; [done|].
  simpl. change (run s (?e :: ?es)) with (run (step s e) es).
  by rewrite (lifecycle_ignored _ runId).
Qed.

(** What settles the wait retires its promise. *)
Lemma wait_settled s runId p t h o :
  wf s → waiting s runId p t →
  move (LFinish "send-wait" (wait_entry p t) o) s h
  ∨ (∃ d, move (LExpireWait t p o) s h
          ∧ timers s !! t = Some {| delay := d; action := TSendWait p |}) →
  settled (drain h) = settled s ++ [(p, o)] ∧ retired (drain h) p
  ∧ wf (drain h).
Proof.
  intros Hwf (Hg & Ht & _) Hmv.
  assert (∃ l, move l s h ∧ settled h = settled s ++ [(p, o)]
               ∧ timers h = delete t (timers s)
               ∧ nextTimer h = nextTimer s) as (l & Hm & Es & Et & En).
  { destruct Hmv as [Hm|(d & Hm & _)].
    - eexists. split; [exact Hm|]. by inversion Hm; subst.
    - eexists. split; [exact Hm|]. by inversion Hm; subst. }
  pose proof (move_wf _ _ _ Hwf Hm) as Hwfh.
  pose proof (move_evolves _ _ _ Hwf Hm) as Hevh.
  destruct (drain_moves h) as (ls & Hmd & _ & _ & Hs).
  pose proof (moves_evolves _ _ _ Hwfh Hmd) as Hevd.
  split; [by rewrite Hs|]. split; [|by eapply moves_wf].
  eapply (consumed_retired s); [done|by eapply evolves_trans|exact Ht|done|].
  apply drain_keeps_gone; [done| |].
  - rewrite En. by eapply wf_timer_lt.
  - rewrite Et. apply lookup_delete_eq.
Qed.

Lemma wait_result_value s runId status :
  sendRunId s = Some runId →
  wait_result s status
  = VJson (obj [("runId", runId); ("status", JStr status)]).
Proof. unfold wait_result. by intros ->. Qed.

(** C4.  While a completion wait registered by [runSend] is pending for
    run [runId]: lifecycle events that are not the end of that run, in any
    number, leave the state as it is, and an event of another run is not
    the end of that run; the [end] event of the run resolves the wait with
    [{runId, status: "completed"}]; the deadline resolves it with
    [{runId, status: "timeout"}], a fulfilment, not a rejection.  In both
    cases the log holds that single outcome whatever follows, a second
    [end] event included. *)
Theorem completion_wait (c : Config) (es : list Event) (runId : JSON)
    (p t : nat) (evs : list JSON) (es' : list Event) :
  let s := run (init c) es in
  waiting s runId p t →
  exited s = None →
  Forall (fun msg => lifecycle_event msg = true
                     ∧ is_completion_of (Some runId) msg = false) evs →
  let quiet_events := map (fun msg => EvMessage (Some msg)) evs in
  (∀ msg, lifecycle_event msg = true →
          strict_eq (optchain (get_prop msg "data") "runId") (Some runId)
          = false →
          is_completion_of (Some runId) msg = false)
  ∧ run s quiet_events = s
  ∧ outcomes p s = []
  ∧ (∀ msg,
       is_completion_of (Some runId) msg = true →
       outcomes p (run s (quiet_events ++ EvMessage (Some msg) :: es'))
       = [Fulfilled (VJson (obj [("runId", runId);
                                 ("status", JStr "completed")]))])
  ∧ outcomes p (run s (quiet_events ++ EvTimer t :: es'))
    = [Fulfilled (VJson (obj [("runId", runId); ("status", JStr "timeout")]))].
Proof.
  intros s Hw Hex Hall quiet_events.
  assert (wf s) as Hwf by apply run_wf, init_wf.
  assert (quiescent s) as Hq by (by apply run_quiescent).
  pose proof Hw as (Hg & Ht & Hrun & Htruthy).
  assert (run s quiet_events = s) as Hquiet
    by (by apply (run_lifecycle_ignored _ runId)).
  assert (outcomes p s = []) as Hnone.
  { apply outcomes_in_nil. intros o. by eapply (wf_unsettled _ Hwf). }
  split; [|split; [done|split; [done|split]]].
  - intros msg _ Hne. unfold is_completion_of. rewrite Hne.
    by rewrite andb_false_r.
  - intros msg Hdone. rewrite run_app, Hquiet.
    change (run s (?e :: ?l)) with (run (step s e) l).
    assert (step s (EvMessage (Some msg)) = drain (complete_wait s)) as ->.
    { unfold step. rewrite Hex, lifecycle_dispatch, Hrun, Hdone; [done|].
      by eapply completion_lifecycle. }
    destruct (wait_settled s runId p t (complete_wait s)
                (Fulfilled (wait_result s "completed")) Hwf Hw)
      as (Hs & Hret & Hwfd).
    { left. unfold complete_wait. rewrite Hg. by constructor. }
    destruct (run_retired _ es' p Hwfd Hret) as [_ ->].
    unfold outcomes in *. rewrite Hs, outcomes_in_app, Hnone, outcomes_in_one.
    by rewrite (wait_result_value _ runId).
  - rewrite run_app, Hquiet.
    change (run s (?e :: ?l)) with (run (step s e) l).
    assert (step s (EvTimer t) = drain (fire t s)) as ->.
    { unfold step. by rewrite Hex. }
    destruct (wait_settled s runId p t (fire t s)
                (Fulfilled (wait_result s "timeout")) Hwf Hw)
      as (Hs & Hret & Hwfd).
    { right. eexists. split; [|exact Ht].
      unfold fire. rewrite Ht. simpl. by econstructor. }
    destruct (run_retired _ es' p Hwfd Hret) as [_ ->].
    unfold outcomes in *. rewrite Hs, outcomes_in_app, Hnone, outcomes_in_one.
    by rewrite (wait_result_value _ runId).
Qed.




(** *** Closing the connection *)

(** Among the outcomes a close hands to the entries of the table, the
    promise of one entry gets the outcome of that entry only. *)
Lemma outcomes_of_entries (m : Map.t Entry) (p : nat) (v : Value) k e :
  NoDup (map fst m) → In (k, e) m → target (reject e) = p →
  (∀ k' e', In (k', e') m → target (reject e') = p → k' = k) →
  outcomes_in p
    (map (fun e => (target (reject e), outcome_of (reject e) v)) (Map.values m))
  = [outcome_of (reject e) v].
Proof.
  unfold Map.values, outcomes_in.
  induction m as [|[k0 e0] m IH]; simpl; [done|].
  rewrite NoDup_cons. intros [Hk Hnd] Hin Hp Huniq.
  rewrite filter_cons. simpl. destruct Hin as [[= -> ->]|Hin].
  - rewrite bool_decide_eq_true_2 by done. simpl. f_equal.
    apply (outcomes_in_nil p). intros o Ho.
    apply in_map_iff in Ho as (e' & [= Hpe _] & Hin').
    apply in_map_iff in Hin' as ([k' e''] & ? & Hin'); simplify_eq/=.
    assert (k' = k) as -> by (apply (Huniq k' e'); auto).
    apply Hk. apply list_elem_of_In, in_map_iff. by exists (k, e').
  - case_bool_decide as E.
    + exfalso. assert (k0 = k) as -> by (apply (Huniq k0 e0); auto).
      apply Hk. apply list_elem_of_In, in_map_iff. by exists (k, e).
    + apply IH; auto. intros k' e' Hin'. apply Huniq. by right.
Qed.

(** C5, as the code has it.  When the connection
    closes in an authenticated session while the completion wait is
    pending, the [reject] of the wait's entry is its [resolve] (line 258),
    so the loop of lines 296-299 FULFILS the promise of the wait with the
    [Error] object; and when the wait is all the table holds, [runCommand]
    prints that value as the result of the command and the process ends
    with status 0. *)
Theorem close_resolves_completion_wait (c : Config) (es : list Event)
    (runId : JSON) (p t : nat) :
  let s := run (init c) es in
  waiting s runId p t →
  authenticated s = true →
  exited s = None →
  outcomes p (step s EvClose)
  = [Fulfilled (VError "Connection closed unexpectedly")]
  ∧ (pending s = [("send-wait", wait_entry p t)] →
     awaiting s !! p = Some KSendWait →
     trace (step s EvClose)
     = trace s ++ [Stdout (VError "Connection closed unexpectedly"); Exit 0]
     ∧ exited (step s EvClose) = Some 0%Z).
Proof.
  intros s Hw Hauth Hex.
  assert (wf s) as Hwf by apply run_wf, init_wf.
  assert (quiescent s) as Hq by (by apply run_quiescent).
  pose proof Hw as (Hg & Ht & _).
  assert (∀ o, ¬ In (p, o) (settled s)) as Hnot.
  { intros o. by eapply (wf_unsettled _ Hwf). }
  split.
  - unfold step. rewrite Hex.
    destruct (drain_moves (ws_onclose (set_readyState CLOSED s)))
      as (_ & _ & _ & _ & Hs).
    unfold outcomes. rewrite Hs. unfold ws_onclose. fields. rewrite Hauth.
    cbn [negb]. fields.
    destruct (reject_all_fields (VError "Connection closed unexpectedly")
                (Map.values (pending s)) (set_readyState CLOSED s))
      as (_ & -> & _).
    fields. rewrite outcomes_in_app, (outcomes_in_nil p (settled s)) by done.
    simpl.
    apply (outcomes_of_entries _ p (VError "Connection closed unexpectedly")
             "send-wait" (wait_entry p t)).
    + apply Hwf.
    + by apply get_In.
    + done.
    + intros k' e' Hin Hp. apply In_get in Hin; [|apply Hwf].
      destruct (entry_promise _ _ _ Hwf Hin) as (tm & p' & Ht' & Hp' & _ & Hj & _).
      assert (timer e' = t) as Htt.
      { eapply (wf_timer_inj _ Hwf); eauto. simpl. congruence. }
      by apply (entry_timer_key s k' "send-wait" e' (wait_entry p t) Hwf).
  - intros Hpend Haw. unfold step. rewrite Hex.
    unfold ws_onclose. fields. rewrite Hauth. cbn [negb].
    rewrite Hpend. unfold reject_all, Map.values, settle. simpl.
    rewrite (is_settled_false p) by done.
    unfold drain. fields. rewrite Hq. simpl.
    unfold run_job. simpl. rewrite Hex, Haw. simpl.
    unfold command_done, cleanup, ws_close. simpl.
    by rewrite <- app_assoc.
Qed.

(** *** Forced shutdown *)

(** What [cleanup] leaves. *)
Lemma cleanup_fields (code : Z) (s : State) :
  let s' := cleanup code s in
  pending s' = []
  ∧ timers s' = cleared (timers s) (Map.values (pending s))
  ∧ settled s' = settled s
  ∧ jobs s' = jobs s
  ∧ trace s'
    = trace s
      ++ match readyState s with CLOSED => [] | _ => [WsClose] end
      ++ [Exit code]
  ∧ exited s' = Some code.
Proof.
  assert (∀ x, timers (ws_close x) = timers x ∧ settled (ws_close x) = settled x
               ∧ jobs (ws_close x) = jobs x ∧ pending (ws_close x) = pending x
               ∧ trace (ws_close x)
                 = trace x ++ match readyState x with
                              | CLOSED => []
                              | _ => [WsClose]
                              end) as Hws.
  { intros x. unfold ws_close. destruct (readyState x); simpl;
      rewrite ?app_nil_r; done. }
  cbv zeta. unfold cleanup. rewrite clear_loop. simpl.
  match goal with
  | |- context [ws_close ?x] => destruct (Hws x) as (-> & -> & -> & -> & ->)
  end.
  simpl. rewrite <- app_assoc. done.
Qed.

(** C6, as the code has it.  [cleanup] cancels the deadline of every
    entry, empties the table, closes the socket unless it is closed
    already, and ends the process with the status it is given; it settles
    no promise: the log of settlements and the queue of reactions are what
    they were.  An interrupt signal runs it with status 3. *)
Theorem cleanup_discards_pending (code : Z) (s : State) :
  let s' := cleanup code s in
  pending s' = []
  ∧ timers s' = cleared (timers s) (Map.values (pending s))
  ∧ Forall (fun e => timers s' !! timer e = None) (Map.values (pending s))
  ∧ settled s' = settled s
  ∧ jobs s' = jobs s
  ∧ trace s'
    = trace s
      ++ match readyState s with CLOSED => [] | _ => [WsClose] end
      ++ [Exit code]
  ∧ exited s' = Some code
  ∧ step s EvSignal
    = match exited s with Some _ => s | None => cleanup EXIT_OP s end.
Proof.
  intros s'. subst s'.
  destruct (cleanup_fields code s) as (Hp & Ht & Hs & Hj & Htr & Hex).
  split_and!; try assumption.
  - rewrite Ht. apply Forall_forall. intros e Hin.
    apply cleared_lookup_in, in_map_iff.
    exists e. split; [done|]. by apply list_elem_of_In.
  - unfold step. by destruct (exited s).
Qed.

(** *** The stale record *)

(** C7, as the code has it.  When the [catch] of the first attempt takes
    the error for a stale device token, it unlinks the token file, the
    whole record, before the retry is sent: afterwards no role of any
    identity can be loaded from it. *)
Theorem stale_retry_unlinks_record (e : Value) (s : State) :
  truthy (STORED_DEVICE_TOKEN (proc s)) = true →
  stale_token_error e = true →
  let s' := connect_failed e s in
  authFile s' = None
  ∧ (∀ deviceId role,
       loadStoredDeviceToken deviceId role (authFile s') = JNull
       ∧ storedEntry deviceId role (authFile s') = None)
  ∧ trace s'
    = trace s
      ++ [Unlink;
          Stderr "Warning: Stored device token expired, retrying with gateway token...";
          Send (request_frame (String_of_N (msgId s + 1)) "connect"
                  (connect_params (JStr (TOKEN (proc s))) s))].
Proof.
  intros Hc Hs. unfold connect_failed. rewrite Hc, Hs. cbn [andb].
  unfold sendReq, unlinkSync. fields.
  split; [done|]. split; [done|].
  by rewrite <- !app_assoc.
Qed.

(** *** The canonical payload *)

Lemma comma_joined_scopes scopes :
  Array_join "," (map JStr scopes) = Signer.comma_joined scopes.
Proof.
  unfold Array_join. induction scopes as [|x [|y rest] IH]; try reflexivity.
  change (Signer.comma_joined (x :: y :: rest))
    with (x +:+ "," +:+ Signer.comma_joined (y :: rest)).
  rewrite <- IH. reflexivity.
Qed.

(** C9.  For all fields and every signing time that is a time of
    JavaScript (a [safe_integer], as [Date.now()] returns),
    [buildDeviceAuthPayload] is the version tag, the device identifier, the
    client id, the client mode, the role, the scopes joined by [','] in the
    order given, the signing time and the token, joined by ['|'] in this
    order; the signing time is written in base ten, and an absent token is
    the empty string. *)
Theorem payload_is_pipe_joined (deviceId clientId clientMode role : string)
    (scopes : list string) (signedAtMs : N) (token : option string) :
  safe_integer (Z.of_N signedAtMs) = true →
  Signer.buildDeviceAuthPayload
    {| Signer.deviceId := deviceId; Signer.clientId := clientId;
       Signer.clientMode := clientMode; Signer.role := role;
       Signer.scopes := scopes; Signer.signedAtMs := signedAtMs;
       Signer.token := JStr <$> token |}
  = Signer.canonical_payload deviceId clientId clientMode role scopes
      signedAtMs token
  ∧ N.of_uint <$> NilZero.uint_of_string (String_of_N signedAtMs)
    = Some signedAtMs.
Proof.
  intros _. split.
  - unfold Signer.buildDeviceAuthPayload, Signer.canonical_payload; simpl.
    rewrite comma_joined_scopes. unfold Array_join. by destruct token.
  - rewrite String_of_N_parse. simpl. by rewrite DecimalN.Unsigned.of_to.
Qed.

(** *** A send without a run *)

(** C10.  When the payload of [chat.send] has no truthy [runId],
    [runSend] returns that payload at once: the state it leaves differs
    from the one it found in [sendRunId] only (no entry, no timer, no
    promise is made), no message is the completion of a run any more, so a
    lifecycle event is ignored, and [runCommand] prints the payload and
    the process ends with status 0. *)
Theorem send_without_runId (sendResult : Value) (s : State) :
  truthy_prop (optchain (value_prop sendResult) "runId") = false →
  let s' := set_sendRunId (optchain (value_prop sendResult) "runId") s in
  runSend_resumed sendResult s = (s', Now sendResult)
  ∧ pending s' = pending s ∧ timers s' = timers s
  ∧ nextTimer s' = nextTimer s ∧ awaiting s' = awaiting s
  ∧ nextPromise s' = nextPromise s
  ∧ (∀ msg, is_completion_of (sendRunId s') msg = false)
  ∧ (∀ msg, lifecycle_event msg = true → ws_onmessage (Some msg) s' = s')
  ∧ resume KChatSend (Fulfilled sendResult) s = command_done sendResult s'
  ∧ trace (command_done sendResult s')
    = trace s ++ [Stdout sendResult]
      ++ match readyState s with CLOSED => [] | _ => [WsClose] end
      ++ [Exit 0]
  ∧ exited (command_done sendResult s') = Some 0%Z.
Proof.
  intros Hno s'.
  assert (runSend_resumed sendResult s = (s', Now sendResult)) as Hrs.
  { unfold runSend_resumed. cbv zeta. fields. by rewrite Hno. }
  assert (∀ msg, is_completion_of (sendRunId s') msg = false) as Hdead.
  { intros msg. unfold is_completion_of. subst s'. fields. by rewrite Hno. }
  split; [done|]. repeat (split; [done|]).
  split; [|split; [|split]].
  - intros msg Hl. by rewrite lifecycle_dispatch, Hdead.
  - cbn [resume]. by rewrite Hrs.
  - destruct (cleanup_fields 0 (emit (Stdout sendResult) s'))
      as (_ & _ & _ & _ & Htr & _).
    unfold command_done. rewrite Htr. subst s'. fields.
    by rewrite <- app_assoc.
  - done.
Qed.

End Statements.

(** ** The token cache *)

Lemma is_record_of_written deviceId tokens :
  is_record_of deviceId
    (obj [("version", JNum 1); ("deviceId", JStr deviceId); ("tokens", tokens)])
  = true.
Proof.
  unfold is_record_of. rewrite optchain_Some. obj_lookup. simpl.
  by rewrite !bool_decide_eq_true_2.
Qed.

Lemma storedEntry_written deviceId o r :
  storedEntry deviceId r
    (Some (Parsed (obj [("version", JNum 1); ("deviceId", JStr deviceId);
                        ("tokens", JObj o)]))) = o !! r.
Proof.
  unfold storedEntry. rewrite is_record_of_written. cbn [negb].
  obj_lookup. reflexivity.
Qed.

Lemma load_as_entry deviceId r file :
  loadStoredDeviceToken deviceId r file
  = nullish_or (optchain (storedEntry deviceId r file) "token") JNull.
Proof.
  unfold loadStoredDeviceToken, storedEntry.
  destruct file as [[|d]|]; try reflexivity.
  by destruct (is_record_of deviceId d).
Qed.

Lemma existing_role_map deviceId file :
  role_map_is_object deviceId file = true →
  ∃ o,
    nullish_or
      (optchain match file with
                | Some (Parsed d) => if is_record_of deviceId d then Some d else None
                | _ => None
                end "tokens") (JObj ∅) = JObj o
    ∧ ∀ r, storedEntry deviceId r file = o !! r.
Proof.
  intros Hok. unfold storedEntry, role_map_is_object in *.
  destruct file as [[|d]|];
    try (exists ∅; split; [done|]; intros r; by rewrite lookup_empty).
  destruct (is_record_of deviceId d) eqn:Hrec;
    [|exists ∅; split; [done|]; intros r; by rewrite lookup_empty].
  rewrite optchain_Some.
  destruct (get_prop d "tokens") as [[| | | | |o]|]; try discriminate.
  - exists ∅; split; [done|]. intros r. by rewrite lookup_empty.
  - exists o; done.
  - exists ∅; split; [done|]. intros r. by rewrite lookup_empty.
Qed.

(** C8, as the code has it.  For a role other than the reserved property
    name [__proto__], and a file whose record of the identifier, if it has
    one, maps roles in a JSON object: [storeDeviceToken] succeeds, loading
    the role afterwards returns the token stored, and the entry of every
    other role is the one the file held before. *)
Theorem store_load_roundtrip (deviceId role : string) (token scopes : JSON)
    (now : N) (file : File) :
  role ≠ "__proto__" →
  role_map_is_object deviceId file = true →
  ∃ file',
    storeDeviceToken deviceId role token scopes now file = inr file'
    ∧ loadStoredDeviceToken deviceId role file' = token
    ∧ storedEntry deviceId role file'
      = Some (obj [("token", token); ("role", JStr role); ("scopes", scopes);
                   ("updatedAtMs", JNum (Z.of_N now))])
    ∧ ∀ role', role' ≠ role →
        storedEntry deviceId role' file' = storedEntry deviceId role' file
        ∧ loadStoredDeviceToken deviceId role' file'
          = loadStoredDeviceToken deviceId role' file.
Proof.
  intros Hrole Hok. unfold storeDeviceToken.
  destruct (existing_role_map deviceId file Hok) as (o & -> & Ho).
  unfold set_prop. rewrite bool_decide_eq_false_2 by done. cbn [andb].
  eexists; split; [reflexivity|].
  split; [|split].
  - rewrite load_as_entry, storedEntry_written, lookup_insert_eq.
    rewrite optchain_Some. obj_lookup. by destruct token.
  - by rewrite storedEntry_written, lookup_insert_eq.
  - intros r Hr. rewrite !load_as_entry, storedEntry_written, Ho.
    by rewrite lookup_insert_ne.
Qed.

(** ** The statements on the concrete run *)

Section Examples.
Import Scenario.

Local Abbreviation inbound msg := (EvMessage (Some msg)).

(** The handshake at an input where the sentence of the specification
    fails: the cache holds the empty token.  [loadStoredDeviceToken]
    returns it (it is not [null]), the first connect request carries it,
    the gateway's answer is one the script takes for a stale token, and yet
    no retry is sent: the process ends with the authentication status after
    a single connect request. *)
Lemma empty_cached_token_is_not_retried :
  let s1 := @run node (init config_empty_token) [EvOpen; inbound challenge] in
  let s2 := @step node s1 (inbound (error_response "1" stale_rejection)) in
  STORED_DEVICE_TOKEN config_empty_token = JStr EmptyString
  ∧ connect_tokens s1 = [Some (JStr EmptyString)]
  ∧ stale_token_error (VError (@JSON_stringify node stale_rejection)) = true
  ∧ connect_tokens s2 = [Some (JStr EmptyString)]
  ∧ exited s2 = Some EXIT_AUTH.
Proof. cbv zeta. split_and!; vm_compute; reflexivity. Qed.

Lemma handshake_retry_witness :
  let s0 := @run node (init config) [EvOpen] in
  let s1 := @step node s0 (inbound challenge) in
  let rejected := inbound (error_response "1" stale_rejection) in
  let e := VError (@JSON_stringify node stale_rejection) in
  let s2 := @step node s1 rejected in
  let rejected_again := inbound (error_response "2" stale_rejection) in
  let s3 := @step node s2 rejected_again in
  (exited s0 = None ∧ is_challenge challenge = true
   ∧ @rejection node "1" 1 "connect" rejected = Some e
   ∧ truthy (STORED_DEVICE_TOKEN config) = true
   ∧ stale_token_error e = true
   ∧ @rejection node "2" 2 "connect" rejected_again = Some e)
  ∧ (connect_tokens s1 = [Some (JStr "stale")]
     ∧ exited s2 = None ∧ authFile s2 = None
     ∧ connect_tokens s2 = [Some (JStr "stale"); Some (JStr "gateway-token")]
     ∧ exited s3 = Some EXIT_AUTH
     ∧ connect_tokens s3 = [Some (JStr "stale"); Some (JStr "gateway-token")]).
Proof.
  intros s0 s1 rejected e s2 rejected_again s3.
  assert (exited s0 = None) as H0 by reflexivity.
  assert (is_challenge challenge = true) as H1 by reflexivity.
  assert (@rejection node "1" 1 "connect" rejected = Some e) as H2
    by (vm_compute; reflexivity).
  assert (truthy (STORED_DEVICE_TOKEN config) = true) as H3 by reflexivity.
  assert (stale_token_error e = true) as H4 by (vm_compute; reflexivity).
  assert (@rejection node "2" 2 "connect" rejected_again = Some e) as H5
    by (vm_compute; reflexivity).
  split; [split_and!; assumption|].
  destruct (@handshake_retry node config [EvOpen] challenge H0 H1)
    as (Htrace1 & Hout1 & Hrej).
  destruct (Hrej rejected e H2) as [Hretry _].
  destruct (Hretry H3 H4) as (Hex2 & Hfile2 & Htrace2 & Hout2 & Hfail).
  destruct (Hfail rejected_again e H5) as (Hex3 & _).
  split; [vm_compute; reflexivity|].
  split; [exact Hex2|]. split; [exact Hfile2|].
  split; [vm_compute; reflexivity|].
  split; [exact Hex3|].
  vm_compute. reflexivity.
Defined.

Lemma response_correlation_witness :
  let s := @run node (init config) calls_pending in
  let s' := @run node s interleaved in
  let msg := error_response "4" (JStr "busy") in
  (outstanding s "4" "status" 3 4
   ∧ forallb (unrelated "4" 4) interleaved = true
   ∧ exited s' = None
   ∧ is_response msg = true
   ∧ get_prop msg "id" = Some (JStr "4"))
  ∧ outcomes 3 s' = []
  ∧ ∀ es3,
      outcomes 3 (@run node (@step node s' (inbound msg)) es3)
      = [Rejected (VError (@JSON_stringify node (JStr "busy")))].
Proof.
  intros s s' msg.
  assert (outstanding s "4" "status" 3 4) as H0
    by (split; vm_compute; reflexivity).
  assert (forallb (unrelated "4" 4) interleaved = true) as H1
    by (vm_compute; reflexivity).
  assert (exited s' = None) as H2 by (vm_compute; reflexivity).
  assert (is_response msg = true) as H3 by reflexivity.
  assert (get_prop msg "id" = Some (JStr "4")) as H4 by reflexivity.
  split; [split_and!; assumption|].
  exact (@response_correlation node config calls_pending interleaved
           "4" "status" 3 4 msg H0 H1 H2 H3 H4).
Defined.

Lemma call_timeout_witness :
  let s := @run node (init config) calls_pending in
  let s' := @run node s interleaved in
  let late := ok_response "4" (obj []) in
  let s3 := @run node (@step node s' (EvTimer 4)) [inbound late; EvClock 7] in
  (outstanding s "4" "status" 3 4
   ∧ forallb (unrelated "4" 4) interleaved = true
   ∧ exited s' = None)
  ∧ outcomes 3 s3
    = [Rejected (VError "Timeout waiting for response to status")]
  ∧ Map.get "4" (pending s3) = None
  ∧ @step node s3 (inbound late) = s3.
Proof.
  intros s s' late s3.
  assert (outstanding s "4" "status" 3 4) as H0
    by (split; vm_compute; reflexivity).
  assert (forallb (unrelated "4" 4) interleaved = true) as H1
    by (vm_compute; reflexivity).
  assert (exited s' = None) as H2 by (vm_compute; reflexivity).
  split; [split_and!; assumption|].
  destruct (@call_timeout node config calls_pending interleaved
              [inbound late; EvClock 7] "4" "status" 3 4 H0 H1 H2)
    as (Ho & Hg & Hlate).
  split; [exact Ho|]. split; [exact Hg|].
  apply Hlate; reflexivity.
Defined.

Lemma completion_wait_witness :
  let s := @run node (init config) until_waiting in
  let others := [lifecycle "start" "r1"; lifecycle "end" "r2"] in
  let quiet_events := map (fun msg => inbound msg) others in
  let again := [inbound (lifecycle "end" "r1")] in
  (waiting s (JStr "r1") 3 4 ∧ exited s = None
   ∧ Forall (fun msg => lifecycle_event msg = true
                        ∧ is_completion_of (Some (JStr "r1")) msg = false)
       others
   ∧ is_completion_of (Some (JStr "r1")) (lifecycle "end" "r1") = true)
  ∧ @run node s quiet_events = s
  ∧ outcomes 3
      (@run node s (quiet_events ++ inbound (lifecycle "end" "r1") :: again))
    = [Fulfilled (VJson (obj [("runId", JStr "r1");
                              ("status", JStr "completed")]))]
  ∧ outcomes 3 (@run node s (quiet_events ++ EvTimer 4 :: again))
    = [Fulfilled (VJson (obj [("runId", JStr "r1");
                              ("status", JStr "timeout")]))].
Proof.
  intros s others quiet_events again.
  assert (waiting s (JStr "r1") 3 4) as H0
    by (unfold waiting; split_and!; vm_compute; reflexivity).
  assert (exited s = None) as H1 by (vm_compute; reflexivity).
  assert (Forall (fun msg => lifecycle_event msg = true
                             ∧ is_completion_of (Some (JStr "r1")) msg = false)
            others) as H2
    by (repeat constructor; vm_compute; reflexivity).
  assert (is_completion_of (Some (JStr "r1")) (lifecycle "end" "r1") = true)
    as H3 by (vm_compute; reflexivity).
  split; [split_and!; assumption|].
  destruct (@completion_wait node config until_waiting (JStr "r1") 3 4
              others again H0 H1 H2)
    as (_ & Hquiet & _ & Hdone & Htimeout).
  split; [exact Hquiet|]. split; [exact (Hdone _ H3)|exact Htimeout].
Defined.

Lemma close_resolves_completion_wait_witness :
  let s := @run node (init config) until_waiting in
  (waiting s (JStr "r1") 3 4 ∧ authenticated s = true ∧ exited s = None
   ∧ pending s = [("send-wait", wait_entry 3 4)]
   ∧ awaiting s !! 3 = Some KSendWait)
  ∧ outcomes 3 (@step node s EvClose)
    = [Fulfilled (VError "Connection closed unexpectedly")]
  ∧ trace (@step node s EvClose)
    = trace s ++ [Stdout (VError "Connection closed unexpectedly"); Exit 0]
  ∧ exited (@step node s EvClose) = Some 0%Z.
Proof.
  intros s.
  assert (waiting s (JStr "r1") 3 4) as H0
    by (unfold waiting; split_and!; vm_compute; reflexivity).
  assert (authenticated s = true) as H1 by (vm_compute; reflexivity).
  assert (exited s = None) as H2 by (vm_compute; reflexivity).
  assert (pending s = [("send-wait", wait_entry 3 4)]) as H3
    by (vm_compute; reflexivity).
  assert (awaiting s !! 3 = Some KSendWait) as H4 by (vm_compute; reflexivity).
  split; [split_and!; assumption|].
  destruct (@close_resolves_completion_wait node config until_waiting
              (JStr "r1") 3 4 H0 H1 H2) as (Ho & Hprint).
  split; [exact Ho|]. exact (Hprint H3 H4).
Defined.

(** C6 at an input where the sentence of the specification fails: two calls are
    pending when the interrupt arrives; the table is emptied and the
    process ends, and the log of settlements is what it was: neither
    promise is rejected. *)
Lemma shutdown_rejects_nothing :
  let s' := @step node status_pending EvSignal in
  map fst (pending status_pending) = ["3"; "4"]
  ∧ pending s' = []
  ∧ exited s' = Some EXIT_OP
  ∧ settled s' = settled status_pending
  ∧ outcomes 2 s' = [] ∧ outcomes 3 s' = [].
Proof. cbv zeta. split_and!; vm_compute; reflexivity. Qed.

(** C7 at an input where the sentence of the specification fails: the record holds a
    token for [operator] and one for another role; once the stale token
    of [operator] has been detected, the other role's entry cannot be
    loaded any more, before the retry is answered and after. *)
Lemma stale_retry_loses_other_roles :
  loadStoredDeviceToken "dev" "node" (authFile challenged) = JStr "other"
  ∧ loadStoredDeviceToken "dev" "node" (authFile retrying) = JNull
  ∧ authFile retrying = None
  ∧ loadStoredDeviceToken "dev" "operator" (authFile sending) = JStr "fresh"
  ∧ loadStoredDeviceToken "dev" "node" (authFile sending) = JNull.
Proof. cbv zeta. split_and!; vm_compute; reflexivity. Qed.

Lemma stale_retry_unlinks_record_witness :
  let e := VError (@JSON_stringify node stale_rejection) in
  let s' := @connect_failed node e challenged in
  (truthy (STORED_DEVICE_TOKEN (proc challenged)) = true
   ∧ stale_token_error e = true)
  ∧ authFile s' = None
  ∧ loadStoredDeviceToken "dev" "node" (authFile s') = JNull.
Proof.
  intros e s'.
  assert (truthy (STORED_DEVICE_TOKEN (proc challenged)) = true) as H0
    by (vm_compute; reflexivity).
  assert (stale_token_error e = true) as H1 by (vm_compute; reflexivity).
  split; [by split|].
  destruct (@stale_retry_unlinks_record node e challenged H0 H1)
    as (Hfile & Hload & _).
  split; [exact Hfile|]. exact (proj1 (Hload "dev" "node")).
Defined.

(** C8 at inputs where the sentence of the specification fails.  Stored under the
    reserved name [__proto__], a token is not written to the file, and
    loading that role returns [null]; and when the role map of the record
    on disk is an array, the token stored for [operator] is an expando
    property that the file does not keep. *)
Lemma store_load_roundtrip_fails :
  (∃ file',
     storeDeviceToken "dev" "__proto__" (JStr "tok") (JArr []) 5 None
     = inr file'
     ∧ loadStoredDeviceToken "dev" "__proto__" file' = JNull)
  ∧ (∃ file',
       storeDeviceToken "dev" "operator" (JStr "tok") (JArr []) 5
         (record (JArr [])) = inr file'
       ∧ loadStoredDeviceToken "dev" "operator" file' = JNull).
Proof.
  split; eexists; (split; [vm_compute; reflexivity|vm_compute; reflexivity]).
Qed.

Lemma store_load_roundtrip_witness :
  ("operator" ≠ "__proto__"
   ∧ role_map_is_object "dev" (startFile config) = true)
  ∧ ∃ file',
      storeDeviceToken "dev" "operator" (JStr "fresh") (JArr []) 5
        (startFile config) = inr file'
      ∧ loadStoredDeviceToken "dev" "operator" file' = JStr "fresh"
      ∧ loadStoredDeviceToken "dev" "node" file' = JStr "other".
Proof.
  assert ("operator" ≠ "__proto__") as H0 by discriminate.
  assert (role_map_is_object "dev" (startFile config) = true) as H1
    by (vm_compute; reflexivity).
  split; [by split|].
  destruct (store_load_roundtrip "dev" "operator" (JStr "fresh") (JArr []) 5
              (startFile config) H0 H1) as (file' & Hs & Hl & _ & Hothers).
  exists file'. split; [exact Hs|]. split; [exact Hl|].
  destruct (Hothers "node") as [_ ->]; [discriminate|].
  vm_compute. reflexivity.
Defined.

Lemma send_without_runId_witness :
  let sendResult := VJson (obj [("status", JStr "queued")]) in
  let s' := set_sendRunId None sending in
  truthy_prop (optchain (value_prop sendResult) "runId") = false
  ∧ runSend_resumed sendResult sending = (s', Now sendResult)
  ∧ pending s' = pending sending
  ∧ @ws_onmessage node (Some (lifecycle "end" "r1")) s' = s'
  ∧ exited (command_done sendResult s') = Some 0%Z.
Proof.
  intros sendResult s'.
  assert (truthy_prop (optchain (value_prop sendResult) "runId") = false) as H0
    by (vm_compute; reflexivity).
  split; [exact H0|].
  destruct (@send_without_runId node sendResult sending H0)
    as (Hr & Hp & _ & _ & _ & _ & _ & Hl & _ & _ & Hex).
  split; [exact Hr|]. split; [exact Hp|].
  split; [|exact Hex]. apply Hl. vm_compute. reflexivity.
Defined.

End Examples.
Import Log.

(** ** What a run shows *)

Ltac views :=
  unfold performs, view;
  cbn [app valid do_acts fold_left];
  unfold ok_act, do_act;
  cbn [v_proc v_msgId v_authenticated v_trace v_exited app].

Section Acts.
Context `{Runtime}.

Lemma do_acts_app v a b : do_acts v (a ++ b) = do_acts (do_acts v a) b.
Proof. apply fold_left_app. Qed.

Lemma valid_app ev v a b :
  valid ev v (a ++ b) = valid ev v a && valid ev (do_acts v a) b.
Proof.
  revert v. induction a as [|x a IH]; intros v; simpl; [done|].
  by rewrite IH, andb_assoc.
Qed.

Lemma performs_nil ev s s' : view s' = view s → performs ev s s' [].
Proof. by split. Qed.

Lemma performs_app ev s1 s2 s3 a b :
  performs ev s1 s2 a → performs ev s2 s3 b → performs ev s1 s3 (a ++ b).
Proof.
  intros [Ha Va] [Hb Vb]. split.
  - by rewrite do_acts_app, <- Ha.
  - by rewrite valid_app, Va, <- Ha.
Qed.

Lemma sendReq_performs ev method params k s :
  exited s = None → may_request ev s method →
  performs ev s (sendReq method params k s) [ARequest method params].
Proof.
  intros Hex Hm. split; [reflexivity|].
  views. rewrite Hex, bool_decide_eq_true_2 by done.
  rewrite andb_true_r. cbn [andb].
  destruct Hm as [-> | [-> | [p ->]]].
  - done.
  - by rewrite orb_true_r.
  - rewrite (bool_decide_eq_true_2 (method = method)) by done.
    by rewrite orb_true_r.
Qed.

Lemma failure_ok code :
  failure code →
  bool_decide (code = EXIT_CONN) || bool_decide (code = EXIT_AUTH)
  || bool_decide (code = EXIT_OP) = true.
Proof. by intros [-> | [-> | ->]]. Qed.

Lemma die_performs ev msg code s :
  exited s = None → failure code →
  performs ev s (die msg code s) [ASay (Stderr msg); AFail code].
Proof.
  intros Hex Hc. split; [reflexivity|].
  views. by rewrite Hex, (failure_ok _ Hc).
Qed.

Lemma ws_close_performs ev s :
  exited s = None →
  performs ev s (ws_close s)
    (match readyState s with CLOSED => [] | _ => [ASay WsClose] end).
Proof.
  intros Hex. unfold ws_close.
  destruct (readyState s); (split; [reflexivity|]); views; by rewrite ?Hex.
Qed.

Lemma cleanup_view code s :
  view (cleanup code s)
  = {| v_proc := proc s; v_msgId := msgId s;
       v_authenticated := authenticated s;
       v_trace := trace s
                  ++ match readyState s with CLOSED => [] | _ => [WsClose] end
                  ++ [Exit code];
       v_exited := Some code |}.
Proof.
  destruct (cleanup_fields code s) as (_ & _ & _ & _ & Htr & Hex).
  unfold view. cbv zeta in Htr, Hex. rewrite Htr, Hex.
  f_equal; unfold cleanup; rewrite clear_loop; unfold ws_close;
    by destruct (readyState _).
Qed.

Lemma cleanup_performs ev code s :
  exited s = None → failure code →
  performs ev s (cleanup code s)
    (match readyState s with CLOSED => [] | _ => [ASay WsClose] end
     ++ [AFail code]).
Proof.
  intros Hex Hc. split.
  - rewrite cleanup_view. unfold view.
    destruct (readyState s); simpl; by rewrite <- ?app_assoc.
  - destruct (readyState s); views; by rewrite Hex, (failure_ok _ Hc).
Qed.

Lemma command_done_performs ev r s :
  exited s = None → authenticated s = true →
  performs ev s (command_done r s)
    [ADone r (match readyState s with CLOSED => false | _ => true end)].
Proof.
  intros Hex Ha. unfold command_done. split.
  - rewrite cleanup_view. unfold view. fields.
    destruct (readyState s); simpl; by rewrite <- ?app_assoc.
  - views. by rewrite Hex, Ha.
Qed.

Lemma command_failed_performs ev e s :
  exited s = None →
  performs ev s (command_failed e s)
    ([ASay (Stderr ("Error: " +:+ error_message e))]
     ++ match readyState s with CLOSED => [] | _ => [ASay WsClose] end
     ++ [AFail EXIT_OP]).
Proof.
  intros Hex. unfold command_failed. split.
  - rewrite cleanup_view. unfold view. fields.
    destruct (readyState s); simpl; by rewrite <- ?app_assoc.
  - destruct (readyState s); views; by rewrite Hex.
Qed.

Lemma same_face_refl s : same_face s s.
Proof. by split. Qed.

Lemma same_face_trans s1 s2 s3 :
  same_face s1 s2 → same_face s2 s3 → same_face s1 s3.
Proof. intros [A B] [C D]. split; congruence. Qed.

Lemma same_face_performs ev s s' :
  same_face s s' → performs ev s s' [].
Proof. intros [Hv _]. by apply performs_nil. Qed.

Lemma same_face_after_auth s s' :
  same_face s s' → command_after_auth s → command_after_auth s'.
Proof.
  intros [Hv Ha] J p k Hk Hc. rewrite Ha in Hk.
  assert (authenticated s' = authenticated s) as ->
    by (injection Hv; auto).
  by eapply J.
Qed.

Lemma same_face_exited s s' : same_face s s' → exited s' = exited s.
Proof. intros [Hv _]. by injection Hv. Qed.

Lemma settle_face f v s : same_face s (settle f v s).
Proof. by split. Qed.

Lemma handleResponse_face msg s : same_face s (handleResponse msg s).
Proof.
  unfold handleResponse. destruct (pending_get _ s) as [[id e]|]; [|by split].
  by destruct (truthy_prop _).
Qed.

Lemma complete_wait_face s : same_face s (complete_wait s).
Proof. unfold complete_wait. by destruct (Map.get _ _). Qed.

Lemma reject_all_face v es s : same_face s (reject_all v es s).
Proof.
  destruct (reject_all_fields v es s)
    as (_ & _ & _ & _ & _ & Hm & Hex & Haw & Htr & _ & Hpr & Ha & _).
  cbv zeta in *. split; [|done]. unfold view. congruence.
Qed.

Lemma persist_token_performs ev r s s' :
  exited s = None → persist_token r s = inr s' →
  (∃ acts, performs ev s s' acts) ∧ awaiting s' = awaiting s
  ∧ authenticated s' = authenticated s ∧ exited s' = None.
Proof.
  intros Hex Hp.
  destruct (persist_token_fields _ _ _ Hp)
    as (_ & _ & _ & _ & _ & _ & _ & Hex' & Haw & _).
  split; [|split; [done|]].
  - unfold persist_token in Hp. destruct (truthy_prop _).
    + destruct (storeDeviceToken _ _ _ _ _ _) as [m|file]; [done|].
      injection Hp as <-. eexists [ASay (WriteFile _)].
      split; [reflexivity|]. views. by rewrite Hex.
    + injection Hp as <-. exists []. by split.
  - split; [|congruence].
    unfold persist_token in Hp. destruct (truthy_prop _).
    + destruct (storeDeviceToken _ _ _ _ _ _) as [m|file]; [done|].
      by injection Hp as <-.
    + by injection Hp as <-.
Qed.

Lemma sendReq_after_auth method params k s :
  command_after_auth s →
  (of_command k = true → authenticated s = true) →
  command_after_auth (sendReq method params k s).
Proof.
  intros J Hk p k' Hl Hc. unfold sendReq in *. revert Hl. fields.
  intros Hl. apply lookup_insert_Some in Hl as [[_ <-]|[_ Hl]]; [auto|].
  by eapply J.
Qed.

Lemma exited_after_auth s s' :
  awaiting s' = awaiting s → authenticated s' = authenticated s →
  command_after_auth s → command_after_auth s'.
Proof. intros Ha Hb J p k Hk Hc. rewrite Hb. rewrite Ha in Hk. by eapply J. Qed.

Lemma die_after_auth msg code s :
  command_after_auth s → command_after_auth (die msg code s).
Proof. by apply exited_after_auth. Qed.

Lemma cleanup_after_auth code s :
  command_after_auth s → command_after_auth (cleanup code s).
Proof.
  apply exited_after_auth.
  - unfold cleanup. rewrite clear_loop. unfold ws_close.
    by destruct (readyState _).
  - pose proof (cleanup_view code s) as Hv. by injection Hv.
Qed.

Lemma runCommand_performs ev s :
  exited s = None → authenticated s = true → command_after_auth s →
  ∃ acts, performs ev s (runCommand s) acts
          ∧ command_after_auth (runCommand s).
Proof.
  intros Hex Ha J. unfold runCommand.
  assert (∀ m p k, ∃ acts,
            performs ev s (sendReq m p k s) acts
            ∧ command_after_auth (sendReq m p k s)) as Hsend.
  { intros m p k. eexists. split.
    - apply sendReq_performs; [done|]. right. by left.
    - by apply sendReq_after_auth. }
  destruct (command (proc s)); simpl; try apply Hsend.
Qed.

Lemma failure_auth : failure EXIT_AUTH.
Proof. right. by left. Qed.

Lemma failure_conn : failure EXIT_CONN.
Proof. by left. Qed.

Lemma failure_op : failure EXIT_OP.
Proof. right. by right. Qed.

Lemma connect_failed_performs ev e s :
  exited s = None → command_after_auth s →
  ∃ acts, performs ev s (connect_failed e s) acts
          ∧ command_after_auth (connect_failed e s).
Proof.
  intros Hex J. unfold connect_failed.
  destruct (truthy _ && stale_token_error e).
  - match goal with
    | |- context [sendReq ?m ?p ?k ?x] =>
        exists ([ASay Unlink;
                 ASay (Stderr "Warning: Stored device token expired, retrying with gateway token...")]
                ++ [ARequest m p]);
        split; [apply (performs_app _ _ x)|]
    end.
    + split; [reflexivity|]. views. by rewrite Hex.
    + apply sendReq_performs; [done|by left].
    + apply sendReq_after_auth; [|done].
      by apply (exited_after_auth s).
  - eexists. split.
    + apply die_performs; [done|apply failure_auth].
    + by apply die_after_auth.
Qed.

Lemma retry_failed_performs ev e s :
  exited s = None → command_after_auth s →
  ∃ acts, performs ev s (retry_failed e s) acts
          ∧ command_after_auth (retry_failed e s).
Proof.
  intros Hex J. eexists. split.
  - apply die_performs; [done|apply failure_auth].
  - by apply die_after_auth.
Qed.

Lemma command_done_turn ev r s :
  exited s = None → authenticated s = true → command_after_auth s →
  ∃ acts, performs ev s (command_done r s) acts
          ∧ command_after_auth (command_done r s).
Proof.
  intros Hex Ha J. eexists. split.
  - by apply command_done_performs.
  - unfold command_done. apply cleanup_after_auth.
    by apply (exited_after_auth s).
Qed.

Lemma command_failed_turn ev e s :
  exited s = None → command_after_auth s →
  ∃ acts, performs ev s (command_failed e s) acts
          ∧ command_after_auth (command_failed e s).
Proof.
  intros Hex J. eexists. split.
  - by apply command_failed_performs.
  - unfold command_failed. apply cleanup_after_auth.
    by apply (exited_after_auth s).
Qed.

Lemma after_connect_performs ev r s (fail : Value → State → State) :
  exited s = None → command_after_auth s →
  (∀ e, ∃ acts, performs ev s (fail e s) acts
                ∧ command_after_auth (fail e s)) →
  ∃ acts,
    performs ev s
      match persist_token r s with
      | inl message => fail (VError message) s
      | inr s => runCommand (set_authenticated true s)
      end acts
    ∧ command_after_auth
        match persist_token r s with
        | inl message => fail (VError message) s
        | inr s => runCommand (set_authenticated true s)
        end.
Proof.
  intros Hex J Hfail.
  destruct (persist_token r s) as [m|s1] eqn:Hp; [apply Hfail|].
  destruct (persist_token_performs ev _ _ _ Hex Hp)
    as ([a1 H1] & Haw & Hau & Hex1).
  assert (command_after_auth (set_authenticated true s1)) as J1.
  { intros p k Hk Hc. reflexivity. }
  destruct (runCommand_performs ev (set_authenticated true s1))
    as (a3 & H3 & J3); [done|done|done|].
  exists (a1 ++ [AAuth] ++ a3). split; [|done].
  eapply performs_app; [exact H1|].
  eapply performs_app; [|exact H3].
  split; [reflexivity|]. views. by rewrite Hex1.
Qed.

Lemma runSend_resumed_face r s :
  view (runSend_resumed r s).1 = view s
  ∧ (authenticated s = true → command_after_auth s →
     command_after_auth (runSend_resumed r s).1).
Proof.
  unfold runSend_resumed. cbv zeta. fields.
  destruct (negb _); cbn [fst]; (split; [reflexivity|]).
  - intros _. by apply exited_after_auth.
  - intros Ha J p k Hk Hc. revert Hk. fields. intros Hk.
    done.
Qed.

Lemma resume_performs ev k o s :
  exited s = None → command_after_auth s →
  (of_command k = true → authenticated s = true) →
  ∃ acts, performs ev s (resume k o s) acts
          ∧ command_after_auth (resume k o s).
Proof.
  intros Hex J Hk.
  destruct k, o; cbn [resume].
  - exists []. split; [by apply performs_nil|exact J].
  - exists []. split; [by apply performs_nil|exact J].
  - apply after_connect_performs; [exact Hex|exact J|].
    intros e. apply connect_failed_performs; [exact Hex|exact J].
  - apply connect_failed_performs; [exact Hex|exact J].
  - apply after_connect_performs; [exact Hex|exact J|].
    intros e. apply retry_failed_performs; [exact Hex|exact J].
  - apply retry_failed_performs; [exact Hex|exact J].
  - apply command_done_turn; [exact Hex|by apply Hk|exact J].
  - apply command_failed_turn; [exact Hex|exact J].
  - destruct (runSend_resumed_face v s) as [Hv Hj].
    assert (authenticated s = true) as Ha by auto.
    destruct (runSend_resumed v s) as [s1 [result|p]] eqn:Hr; cbn [fst] in *.
    + assert (exited s1 = None) as Hex1 by (injection Hv; congruence).
      assert (authenticated s1 = true) as Ha1 by (injection Hv; congruence).
      destruct (command_done_turn ev result s1) as (acts & Hp & J1); auto.
      exists ([] ++ acts). split; [|done].
      eapply performs_app; [|exact Hp]. by apply performs_nil.
    + exists []. split; [by apply performs_nil|auto].
  - apply command_failed_turn; [exact Hex|exact J].
  - apply command_done_turn; [exact Hex|by apply Hk|exact J].
  - apply command_failed_turn; [exact Hex|exact J].
Qed.

Lemma run_job_performs ev s job :
  command_after_auth s →
  ∃ acts, performs ev s (run_job s job) acts
          ∧ command_after_auth (run_job s job).
Proof.
  intros J. unfold run_job.
  destruct (exited s) as [c|] eqn:Hex;
    [exists []; split; [by apply performs_nil|done]|].
  destruct (awaiting s !! job.1) as [k|] eqn:Hk;
    [|exists []; split; [by apply performs_nil|done]].
  apply resume_performs; [done|done|].
  intros Hc. by eapply J.
Qed.

Lemma run_jobs_performs ev js s :
  command_after_auth s →
  ∃ acts, performs ev s (fold_left run_job js s) acts
          ∧ command_after_auth (fold_left run_job js s).
Proof.
  revert s. induction js as [|j js IH]; intros s J; cbn [fold_left].
  - exists []. split; [by apply performs_nil|done].
  - destruct (run_job_performs ev s j J) as (a1 & H1 & J1).
    destruct (IH _ J1) as (a2 & H2 & J2).
    exists (a1 ++ a2). split; [|done]. by eapply performs_app.
Qed.

Lemma drain_performs ev s :
  command_after_auth s →
  ∃ acts, performs ev s (drain s) acts ∧ command_after_auth (drain s).
Proof.
  intros J. unfold drain.
  destruct (run_jobs_performs ev (jobs s) (set_settled (settled s) [] s))
    as (acts & Hp & J'); [done|].
  exists acts. split; [|done]. exact Hp.
Qed.

Lemma then_drain ev s s1 a1 :
  performs ev s s1 a1 → command_after_auth s1 →
  ∃ acts, performs ev s (drain s1) acts ∧ command_after_auth (drain s1).
Proof.
  intros H1 J1. destruct (drain_performs ev s1 J1) as (a2 & H2 & J2).
  exists (a1 ++ a2). split; [|done]. by eapply performs_app.
Qed.

Lemma on_challenge_performs ev msg s :
  exited s = None → command_after_auth s →
  ∃ acts, performs ev s (on_challenge msg s) acts
          ∧ command_after_auth (on_challenge msg s).
Proof.
  intros Hex J. unfold on_challenge. cbv zeta.
  match goal with
  | |- context [sendReq ?m ?p ?k ?x] =>
      exists ([] ++ [ARequest m p]); split; [apply (performs_app _ _ x)|]
  end.
  - by apply performs_nil.
  - apply sendReq_performs; [done|by left].
  - apply sendReq_after_auth; [|done]. by apply (exited_after_auth s).
Qed.

Lemma ws_onmessage_performs ev data s :
  exited s = None → command_after_auth s →
  ∃ acts, performs ev s (ws_onmessage data s) acts
          ∧ command_after_auth (ws_onmessage data s).
Proof.
  intros Hex J.
  assert (∀ s', same_face s s' →
            ∃ acts, performs ev s s' acts ∧ command_after_auth s') as Hface.
  { intros s' F. exists []. split; [by apply same_face_performs|].
    by eapply same_face_after_auth. }
  assert (∀ m c, failure c →
            ∃ acts, performs ev s (die m c s) acts
                    ∧ command_after_auth (die m c s)) as Hdie.
  { intros m c Hc. eexists. split; [by apply die_performs|].
    by apply die_after_auth. }
  assert (∀ msg,
            ∃ acts,
              performs ev s
                (if is_challenge msg then on_challenge msg s
                 else if is_response msg then handleResponse msg s
                 else if is_completion_of (sendRunId s) msg
                 then complete_wait s else s) acts
              ∧ command_after_auth
                  (if is_challenge msg then on_challenge msg s
                   else if is_response msg then handleResponse msg s
                   else if is_completion_of (sendRunId s) msg
                   then complete_wait s else s)) as Hmsg.
  { intros msg. destruct (is_challenge msg).
    - by apply on_challenge_performs.
    - destruct (is_response msg).
      + apply Hface, handleResponse_face.
      + destruct (is_completion_of _ _).
        * apply Hface, complete_wait_face.
        * apply Hface, same_face_refl. }
  unfold ws_onmessage. destruct data as [msg|].
  - destruct msg; try apply Hmsg. apply Hdie, failure_conn.
  - eexists [ASay (Stderr _)]. split.
    + split; [reflexivity|]. views. by rewrite Hex.
    + by apply (exited_after_auth s).
Qed.

Lemma fire_performs ev t s :
  exited s = None → command_after_auth s →
  ∃ acts, performs ev s (fire t s) acts ∧ command_after_auth (fire t s).
Proof.
  intros Hex J. unfold fire.
  destruct (timers s !! t) as [tm|];
    [|exists []; split; [by apply performs_nil|done]].
  destruct (action tm).
  - exists []. split; [by apply performs_nil|by apply (exited_after_auth s)].
  - exists []. split; [by apply performs_nil|by apply (exited_after_auth s)].
  - eexists. split.
    + apply (performs_app _ _ (clearTimeout t s) _ []);
        [by apply performs_nil|].
      apply die_performs; [done|apply failure_conn].
    + apply die_after_auth. by apply (exited_after_auth s).
Qed.

Lemma ws_onclose_performs ev s :
  exited s = None → command_after_auth s →
  ∃ acts, performs ev s (ws_onclose s) acts
          ∧ command_after_auth (ws_onclose s).
Proof.
  intros Hex J. unfold ws_onclose. destruct (negb (authenticated s)).
  - eexists. split.
    + apply (performs_app _ _ (clearTimeout connTimer s) _ []);
        [by apply performs_nil|].
      apply die_performs; [done|apply failure_conn].
    + apply die_after_auth. by apply (exited_after_auth s).
  - cbv zeta.
    pose proof (reject_all_face (VError "Connection closed unexpectedly")
                  (Map.values (pending s)) s) as [Hv Ha].
    exists []. split.
    + apply performs_nil. rewrite <- Hv. reflexivity.
    + apply (exited_after_auth (reject_all (VError "Connection closed unexpectedly")
                                  (Map.values (pending s)) s)); [done|done|].
      eapply same_face_after_auth; [|exact J]. by split.
Qed.

(** One turn of the event loop. *)
Lemma step_performs s ev :
  command_after_auth s →
  ∃ acts, performs ev s (step s ev) acts ∧ command_after_auth (step s ev).
Proof.
  intros J. unfold step.
  destruct (exited s) as [c|] eqn:Hex;
    [exists []; split; [by apply performs_nil|done]|].
  destruct ev as [|m p|data|t| | | |now].
  - exists []. split; [by apply performs_nil|by apply (exited_after_auth s)].
  - eexists. split.
    + apply sendReq_performs; [done|]. right. right. by eexists.
    + by apply sendReq_after_auth.
  - destruct (ws_onmessage_performs (EvMessage data) data s Hex J)
      as (a & Ha & Ja). by eapply then_drain.
  - destruct (fire_performs (EvTimer t) t s Hex J) as (a & Ha & Ja).
    by eapply then_drain.
  - destruct (ws_onclose_performs EvClose (set_readyState CLOSED s))
      as (a & Ha & Ja); [done|by apply (exited_after_auth s)|].
    eapply then_drain; [|exact Ja].
    apply (performs_app _ _ (set_readyState CLOSED s) _ [] a);
      [by apply performs_nil|exact Ha].
  - eexists. split.
    + apply (performs_app _ _ (clearTimeout connTimer s) _ []);
        [by apply performs_nil|].
      apply die_performs; [done|apply failure_conn].
    + apply die_after_auth. by apply (exited_after_auth s).
  - eexists. split.
    + apply cleanup_performs; [done|apply failure_op].
    + by apply cleanup_after_auth.
  - exists []. split; [by apply performs_nil|by apply (exited_after_auth s)].
Qed.

End Acts.

(** *** Along a run *)

Section Runs.
Context `{Runtime}.

Lemma acts_invariant (P : View → Prop) ev acts v :
  (∀ v a, P v → ok_act ev v a = true → P (do_act v a)) →
  P v → valid ev v acts = true → P (do_acts v acts).
Proof.
  intros Hstep. revert v. induction acts as [|a acts IH]; intros v Hv Hok.
  - done.
  - cbn [valid] in Hok. apply andb_true_iff in Hok as [Ha Hok].
    cbn [do_acts fold_left]. apply IH; auto.
Qed.

Lemma run_invariant_from (P : View → Prop) (E : Event → bool) s es :
  (∀ ev v a,
     E ev = true → P v → ok_act ev v a = true → P (do_act v a)) →
  forallb E es = true → command_after_auth s →
  P (view s) → P (view (run s es)).
Proof.
  intros Hstep. revert s. induction es as [|ev es IH]; intros s HE J HP.
  - done.
  - cbn [forallb] in HE. apply andb_true_iff in HE as [He HE].
    change (run s (ev :: es)) with (run (step s ev) es).
    destruct (step_performs s ev J) as (acts & [Hv Hok] & J').
    apply IH; [done|done|]. rewrite Hv.
    eapply acts_invariant; [|done|done]. intros v a. by apply Hstep.
Qed.

Lemma init_after_auth c : command_after_auth (init c).
Proof. intros p k Hk. cbn in Hk. by rewrite lookup_empty in Hk. Qed.

Lemma run_invariant (P : View → Prop) (E : Event → bool) c es :
  (∀ ev v a,
     E ev = true → P v → ok_act ev v a = true → P (do_act v a)) →
  forallb E es = true → P (view (init c)) → P (view (run (init c) es)).
Proof. intros. eapply run_invariant_from; eauto using init_after_auth. Qed.

Lemma forallb_all {A} (l : list A) : forallb (fun _ => true) l = true.
Proof. by induction l. Qed.

(** The configuration is the one the script started with. *)
Lemma run_proc c es : proc (run (init c) es) = c.
Proof.
  apply (run_invariant (fun v => v_proc v = c) (fun _ => true) c es);
    [|apply forallb_all|done].
  intros ev v a _ Hv _. by destruct a.
Qed.

Lemma requests_app a b : requests (a ++ b) = requests a ++ requests b.
Proof. apply omap_app. Qed.


Lemma ok_act_running ev v a : ok_act ev v a = true → v_exited v = None.
Proof.
  unfold ok_act. intros Hok. apply andb_true_iff in Hok as [Hex _].
  by apply bool_decide_eq_true in Hex.
Qed.

Lemma ok_say ev v e :
  ok_act ev v (ASay e) = true → requests [e] = [] ∧ printed [e] = []
  ∧ ∀ c, e ≠ Exit c.
Proof.
  unfold ok_act. intros Hok. apply andb_true_iff in Hok as [_ Hok].
  by destruct e.
Qed.

Lemma requests_send f : requests [Send f] = [f].
Proof. reflexivity. Qed.

Lemma request_frame_id id method params :
  get_prop (request_frame id method params) "id" = Some (JStr id).
Proof. unfold request_frame. by obj_lookup. Qed.

Lemma request_frame_method id method params :
  get_prop (request_frame id method params) "method" = Some (JStr method).
Proof. unfold request_frame. by obj_lookup. Qed.

(** X1. How the process ends. In every run of the script the exit status, if
    the process has ended, is 0, [EXIT.CONN], [EXIT.AUTH] or [EXIT.OP]
    (never [EXIT.TIMEOUT] or [EXIT.USAGE]), the exit is the last effect of
    the trace, and there is no other; while the process runs the trace holds
    no exit. *)
Theorem exit_statuses (c : Config) (es : list Event) :
  let s := run (init c) es in
  match exited s with
  | None => ∀ code, ¬ In (Exit code) (trace s)
  | Some code =>
      (code = 0%Z ∨ code = EXIT_CONN ∨ code = EXIT_AUTH ∨ code = EXIT_OP)
      ∧ ∃ before,
          trace s = before ++ [Exit code]
          ∧ ∀ code', ¬ In (Exit code') before
  end.
Proof.
  set (P := fun v : View =>
              match v_exited v with
              | None => ∀ code, ¬ In (Exit code) (v_trace v)
              | Some code =>
                  (code = 0%Z ∨ code = EXIT_CONN ∨ code = EXIT_AUTH
                   ∨ code = EXIT_OP)
                  ∧ ∃ before,
                      v_trace v = before ++ [Exit code]
                      ∧ ∀ code', ¬ In (Exit code') before
              end).
  apply (run_invariant P (fun _ => true) c es); [|apply forallb_all|].
  - intros ev v a _ HP Hok. pose proof (ok_act_running _ _ _ Hok) as Hex.
    unfold P in HP. rewrite Hex in HP. unfold P.
    destruct a as [e|m p| |r closing|code]; cbn [do_act v_exited v_trace].
    + rewrite Hex. intros code Hin. apply in_app_or in Hin as [Hin|Hin].
      * by eapply HP.
      * destruct (ok_say _ _ _ Hok) as (_ & _ & Hne).
        destruct Hin as [->|[]]. by eapply Hne.
    + rewrite Hex. intros code Hin. apply in_app_or in Hin as [Hin|Hin].
      * by eapply HP.
      * by destruct Hin as [|[]].
    + by rewrite Hex.
    + split; [by left|].
      exists (v_trace v ++ [Stdout r] ++ if closing then [WsClose] else []).
      split; [by rewrite <- !app_assoc|].
      intros code Hin. apply in_app_or in Hin as [Hin|Hin].
      * by eapply HP.
      * destruct closing; simpl in Hin; intuition congruence.
    + split.
      * unfold ok_act in Hok. apply andb_true_iff in Hok as [_ Hok].
        apply orb_true_iff in Hok as [Hok|Hok];
          [apply orb_true_iff in Hok as [Hok|Hok]|];
          apply bool_decide_eq_true in Hok; auto.
      * exists (v_trace v). split; [done|]. intros code'. apply HP.
  - unfold P. cbn. intros code [].
Qed.


(** X3. Identifiers are handed out in order. In every run, the request
    frames sent, whoever made the call, carry the identifiers 1, 2, ... up
    to [msgId], in decimal, in the order sent; so no two requests share an
    identifier. *)
Theorem request_ids_count_up (c : Config) (es : list Event) :
  let s := run (init c) es in
  map (fun f => get_prop f "id") (requests (trace s))
  = map (fun i => Some (JStr (String_of_N (N.of_nat i))))
      (seq 1 (N.to_nat (msgId s)))
  ∧ NoDup (map (fun f => get_prop f "id") (requests (trace s))).
Proof.
  set (ids := fun n : N =>
                map (fun i => Some (JStr (String_of_N (N.of_nat i))))
                  (seq 1 (N.to_nat n))).
  assert (∀ n, NoDup (ids n)) as Hnodup.
  { intros n. unfold ids. apply NoDup_fmap_2.
    - intros i j [= Hij]. apply String_of_N_inj in Hij. lia.
    - apply NoDup_ListNoDup, seq_NoDup. }
  set (P := fun v : View =>
              map (fun f => get_prop f "id") (requests (v_trace v))
              = ids (v_msgId v)).
  assert (P (view (run (init c) es))) as HP.
  { apply (run_invariant P (fun _ => true) c es); [|apply forallb_all|done].
    intros ev v a _ HP Hok. unfold P in *.
    destruct a as [e|m p| |r closing|code];
      cbn [do_act v_exited v_trace v_msgId].
    - destruct (ok_say _ _ _ Hok) as (Hr & _ & _).
      by rewrite requests_app, Hr, app_nil_r.
    - rewrite requests_app, map_app, HP, requests_send. cbn [map].
      rewrite request_frame_id. unfold ids.
      replace (N.to_nat (v_msgId v + 1)) with (N.to_nat (v_msgId v) + 1)
        by lia.
      rewrite seq_app, map_app. cbn [seq map]. do 5 f_equal. lia.
    - done.
    - rewrite requests_app, map_app, HP.
      replace (requests _) with (@nil JSON) by (by destruct closing).
      apply app_nil_r.
    - rewrite requests_app, map_app, HP. apply app_nil_r. }
  cbv zeta. unfold P in HP. cbn [view v_trace v_msgId] in HP.
  split; [exact HP|]. rewrite HP. apply Hnodup.
Qed.

(** X4. No command before the handshake has succeeded. In a run of the
    script's own events, as long as the session is not authenticated every
    request frame sent is a [connect] request. *)
Theorem only_connect_before_authentication (c : Config) (es : list Event) :
  forallb own_event es = true →
  let s := run (init c) es in
  authenticated s = false →
  Forall (fun f => get_prop f "method" = Some (JStr "connect"))
    (requests (trace s)).
Proof.
  intros Hown.
  set (P := fun v : View =>
              v_authenticated v = false →
              Forall (fun f => get_prop f "method" = Some (JStr "connect"))
                (requests (v_trace v))).
  apply (run_invariant P own_event c es); [|done|].
  - intros ev v a Hev HP Hok. unfold P in *.
    destruct a as [e|m p| |r closing|code];
      cbn [do_act v_exited v_trace v_authenticated]; intros Ha;
      rewrite ?requests_app.
    + destruct (ok_say _ _ _ Hok) as (-> & _ & _).
      rewrite app_nil_r. auto.
    + apply Forall_app. split; [auto|].
      unfold ok_act in Hok. apply andb_true_iff in Hok as [_ Hok].
      rewrite Ha, orb_false_r in Hok.
      apply orb_true_iff in Hok as [Hok|Hok].
      * apply bool_decide_eq_true in Hok as ->.
        rewrite requests_send.
        constructor; [apply request_frame_method|constructor].
      * by destruct ev.
    + done.
    + apply Forall_app. split; [auto|]. by destruct closing.
    + apply Forall_app. split; [auto|]. constructor.
  - unfold P. cbn. constructor.
Qed.

End Runs.

(** ** The command, the connection and the token file *)

Section Behaviour.
Context `{Runtime}.

(** The turn in which the response to the entry under [id] arrives. *)
Lemma entry_answered s id e p k msg :
  quiescent s → exited s = None →
  Map.get id (pending s) = Some e →
  target (resolve e) = p → target (reject e) = p →
  (∀ o, ¬ In (p, o) (settled s)) →
  awaiting s !! p = Some k →
  is_response msg = true → get_prop msg "id" = Some (JStr id) →
  step s (EvMessage (Some msg))
  = resume k (response_outcome e msg)
      (settled_call id (timer e) p (response_outcome e msg) s).
Proof.
  intros Hq Hex Hg Hres Hrej Hnot Hk Hr Hid.
  assert (is_settled p s = false) as Hns by (by apply is_settled_false).
  unfold step. rewrite Hex.
  assert (ws_onmessage (Some msg) s = handleResponse msg s) as ->.
  { unfold ws_onmessage. rewrite (response_not_challenge _ Hr), Hr.
    destruct msg; try reflexivity. discriminate. }
  unfold handleResponse, pending_get. rewrite Hid, Hg.
  cbn [fmap option_fmap option_map].
  unfold response_outcome, settled_call.
  destruct (truthy_prop (get_prop msg "ok")).
  - unfold drain, settle. cbn [target]. rewrite Hres.
    replace (is_settled p _) with false by (symmetry; exact Hns).
    cbn [jobs set_settled set_pending clearTimeout set_timers settled].
    rewrite Hq. cbn [app fold_left]. unfold run_job.
    cbn [exited awaiting set_settled set_pending clearTimeout set_timers
         fst snd].
    rewrite Hex, Hk. unfold outcome_of. by destruct e as [[? []] ? ?].
  - unfold drain, settle. cbn [target]. rewrite Hrej.
    replace (is_settled p _) with false by (symmetry; exact Hns).
    cbn [jobs set_settled set_pending clearTimeout set_timers settled].
    rewrite Hq. cbn [app fold_left]. unfold run_job.
    cbn [exited awaiting set_settled set_pending clearTimeout set_timers
         fst snd].
    rewrite Hex, Hk. reflexivity.
Qed.

Lemma command_done_trace r s :
  trace (command_done r s)
  = trace s ++ [Stdout r]
    ++ match readyState s with CLOSED => [] | _ => [WsClose] end ++ [Exit 0]
  ∧ exited (command_done r s) = Some 0%Z.
Proof.
  pose proof (cleanup_view 0 (emit (Stdout r) s)) as Hv.
  pose proof (f_equal v_trace Hv) as Ht.
  pose proof (f_equal v_exited Hv) as He.
  cbn [view v_trace v_exited] in Ht, He.
  unfold command_done. rewrite Ht, He. split; [|done].
  fields. by rewrite <- app_assoc.
Qed.

Lemma command_failed_trace e s :
  trace (command_failed e s)
  = trace s ++ [Stderr ("Error: " +:+ error_message e)]
    ++ match readyState s with CLOSED => [] | _ => [WsClose] end
    ++ [Exit EXIT_OP]
  ∧ exited (command_failed e s) = Some EXIT_OP.
Proof.
  pose proof (cleanup_view EXIT_OP
                (emit (Stderr ("Error: " +:+ error_message e)) s)) as Hv.
  pose proof (f_equal v_trace Hv) as Ht.
  pose proof (f_equal v_exited Hv) as He.
  cbn [view v_trace v_exited] in Ht, He.
  unfold command_failed. rewrite Ht, He. split; [|done].
  fields. by rewrite <- app_assoc.
Qed.

(** The trace and the status once the code after the [await] of
    [runCommand] has run in [x], a state with the trace and the socket of
    [s]. *)
Ltac command_ends :=
  match goal with
  | |- context [command_done ?r ?x] =>
      destruct (command_done_trace r x) as [-> ->]
  | |- context [command_failed ?r ?x] =>
      destruct (command_failed_trace r x) as [-> ->]
  end;
  unfold settled_call; fields; done.

(** X5. What becomes of a command other than [send]. The call of the command
    is pending and [runCommand] waits for it. A response with a truthy [ok]
    makes the process print the payload and end with status 0; a response
    with a falsy [ok] makes it print [Error: ] and the stringified [error]
    on [stderr] and end with [EXIT.OP]; and so does the deadline of the
    call, with the time-out message: the status of a time-out is [EXIT.OP],
    not [EXIT.TIMEOUT]. *)
Theorem command_outcome (c : Config) (es : list Event) (id method : string)
    (p t : nat) :
  let s := run (init c) es in
  let closing := match readyState s with CLOSED => [] | _ => [WsClose] end in
  exited s = None →
  outstanding s id method p t →
  awaiting s !! p = Some KCommand →
  (∀ msg,
     is_response msg = true → get_prop msg "id" = Some (JStr id) →
     let s' := step s (EvMessage (Some msg)) in
     if truthy_prop (get_prop msg "ok") then
       trace s'
       = trace s ++ [Stdout (of_prop (get_prop msg "payload"))] ++ closing
         ++ [Exit 0]
       ∧ exited s' = Some 0%Z
     else
       trace s'
       = trace s
         ++ [Stderr ("Error: "
                     +:+ JSON_stringify
                           (falsy_or (get_prop msg "error")
                              (JStr "Unknown error")))]
         ++ closing ++ [Exit EXIT_OP]
       ∧ exited s' = Some EXIT_OP)
  ∧ (let s' := step s (EvTimer t) in
     trace s'
     = trace s
       ++ [Stderr ("Error: Timeout waiting for response to " +:+ method)]
       ++ closing ++ [Exit EXIT_OP]
     ∧ exited s' = Some EXIT_OP).
Proof.
  intros s closing Hex Hout Hk.
  assert (wf s) as Hwf by apply run_wf, init_wf.
  assert (quiescent s) as Hq by (by apply run_quiescent).
  pose proof Hout as [Hg Ht].
  assert (∀ o, ¬ In (p, o) (settled s)) as Hnot.
  { intros o. by eapply (wf_unsettled _ Hwf). }
  split.
  - intros msg Hr Hid.
    pose proof (entry_answered s id (call_entry p t) p KCommand msg
                  Hq Hex Hg eq_refl eq_refl Hnot Hk Hr Hid) as Hs.
    cbv zeta. rewrite Hs. unfold response_outcome.
    destruct (truthy_prop (get_prop msg "ok")); cbn [resume outcome_of
      call_entry resolve reject how].
    + command_ends.
    + command_ends.
  - pose proof (call_rejected s id method p t KCommand (EvTimer t)
                  (timeout_error method) Hwf Hq Hex Hout Hk) as Hs.
    cbv zeta. rewrite Hs.
    + cbn [resume]. command_ends.
    + unfold rejection. by rewrite bool_decide_eq_true_2.
Qed.

(** X6. A close while the call of a command is pending. In an authenticated
    session whose table holds the call of the command and nothing else, a
    close of the connection rejects the call, and the process prints the
    error on [stderr] and ends with [EXIT.OP]. *)
Theorem close_fails_command (c : Config) (es : list Event) (id : string)
    (p t : nat) :
  let s := run (init c) es in
  exited s = None →
  authenticated s = true →
  pending s = [(id, call_entry p t)] →
  awaiting s !! p = Some KCommand →
  let s' := step s EvClose in
  outcomes p s' = [Rejected (VError "Connection closed unexpectedly")]
  ∧ trace s'
    = trace s ++ [Stderr "Error: Connection closed unexpectedly";
                  Exit EXIT_OP]
  ∧ exited s' = Some EXIT_OP.
Proof.
  intros s Hex Hauth Hpend Hk.
  assert (wf s) as Hwf by apply run_wf, init_wf.
  assert (quiescent s) as Hq by (by apply run_quiescent).
  assert (Map.get id (pending s) = Some (call_entry p t)) as Hg.
  { rewrite Hpend. cbn. by rewrite decide_True. }
  assert (∀ o, ¬ In (p, o) (settled s)) as Hnot.
  { intros o.
    destruct (entry_promise _ _ _ Hwf Hg) as (tm & p' & Ht' & Hp' & Hres & _).
    cbn in Hres. subst p'. by eapply (wf_unsettled _ Hwf). }
  assert (step s EvClose
          = command_failed (VError "Connection closed unexpectedly")
              (set_settled
                 (settled s
                  ++ [(p, Rejected (VError "Connection closed unexpectedly"))])
                 []
                 (set_pending []
                    (clearTimeout t (set_readyState CLOSED s))))) as Hs.
  { unfold step. rewrite Hex.
    unfold ws_onclose. fields. rewrite Hauth. cbn [negb].
    rewrite Hpend. unfold reject_all, Map.values, settle.
    cbn [map snd fold_left call_entry reject timer target].
    replace (is_settled p _) with false
      by (symmetry; by apply is_settled_false).
    unfold drain. fields. rewrite Hq. cbn [app fold_left].
    unfold run_job. cbn [fst snd]. fields. rewrite Hex, Hk.
    reflexivity. }
  cbv zeta. rewrite Hs.
  destruct (command_failed_trace (VError "Connection closed unexpectedly")
              (set_settled
                 (settled s
                  ++ [(p, Rejected (VError "Connection closed unexpectedly"))])
                 []
                 (set_pending []
                    (clearTimeout t (set_readyState CLOSED s)))))
    as [Htr Hexit].
  split; [|split; [|exact Hexit]].
  - unfold outcomes, command_failed.
    destruct (cleanup_fields EXIT_OP
                (emit (Stderr ("Error: " +:+ error_message
                                 (VError "Connection closed unexpectedly")))
                   (set_settled
                      (settled s
                       ++ [(p, Rejected (VError "Connection closed unexpectedly"))])
                      []
                      (set_pending []
                         (clearTimeout t (set_readyState CLOSED s))))))
      as (_ & _ & Hset & _).
    cbv zeta in Hset. rewrite Hset. fields.
    by rewrite outcomes_in_app, (outcomes_in_nil p (settled s)),
      outcomes_in_one.
  - rewrite Htr. fields. reflexivity.
Qed.

(** X7. The key of the completion wait is a key of the table of calls. While
    the wait is pending, a response frame whose [id] is the string
    [send-wait] ends it: [handleResponse] finds the entry of the wait, and
    since both functions of that entry resolve, the process prints the
    payload of the frame (or, when [ok] is falsy, the error made from it) as
    the result of [send] and ends with status 0. *)
Theorem response_named_send_wait (c : Config) (es : list Event)
    (runId : JSON) (p t : nat) (msg : JSON) :
  let s := run (init c) es in
  let closing := match readyState s with CLOSED => [] | _ => [WsClose] end in
  let result :=
    if truthy_prop (get_prop msg "ok")
    then of_prop (get_prop msg "payload")
    else VError (JSON_stringify
                   (falsy_or (get_prop msg "error") (JStr "Unknown error"))) in
  waiting s runId p t →
  exited s = None →
  awaiting s !! p = Some KSendWait →
  is_response msg = true →
  get_prop msg "id" = Some (JStr "send-wait") →
  let s' := step s (EvMessage (Some msg)) in
  trace s' = trace s ++ [Stdout result] ++ closing ++ [Exit 0]
  ∧ exited s' = Some 0%Z.
Proof.
  intros s closing result (Hg & Ht & _) Hex Hk Hr Hid.
  assert (wf s) as Hwf by apply run_wf, init_wf.
  assert (quiescent s) as Hq by (by apply run_quiescent).
  assert (∀ o, ¬ In (p, o) (settled s)) as Hnot.
  { intros o. by eapply (wf_unsettled _ Hwf). }
  pose proof (entry_answered s "send-wait" (wait_entry p t) p KSendWait msg
                Hq Hex Hg eq_refl eq_refl Hnot Hk Hr Hid) as Hs.
  cbv zeta. rewrite Hs. subst result. unfold response_outcome.
  destruct (truthy_prop (get_prop msg "ok"));
    cbn [resume outcome_of wait_entry resolve reject how]; command_ends.
Qed.

(** X8. The request that answers a challenge does not depend on the
    challenge. Whatever the [data] of two challenge frames (their nonce),
    the bridge answers both with the same [connect] frame, signature
    included, and the two states differ in [connectNonce] at most. *)
Theorem connect_request_ignores_nonce (c : Config) (es : list Event)
    (msg1 msg2 : JSON) :
  let s := run (init c) es in
  is_challenge msg1 = true →
  is_challenge msg2 = true →
  trace (step s (EvMessage (Some msg1)))
  = trace (step s (EvMessage (Some msg2)))
  ∧ set_connectNonce JNull (step s (EvMessage (Some msg1)))
    = set_connectNonce JNull (step s (EvMessage (Some msg2))).
Proof.
  intros s H1 H2.
  assert (quiescent s) as Hq by (by apply run_quiescent).
  destruct (exited s) as [code|] eqn:Hex.
  - by rewrite !(step_exited s _ code).
  - rewrite !challenge_step by done. by split.
Qed.

(** X9. The connection timer. It is armed when the script starts; while it
    is live its callback ends the process with [EXIT.CONN]; and the first
    challenge handled cancels it for good: from then on its callback does
    nothing, whatever happens in between. *)
Theorem connection_timeout (c : Config) (es : list Event) :
  let s := run (init c) es in
  timers (init c) !! connTimer
  = Some {| delay := CONNECTION_TIMEOUT; action := TConn |}
  ∧ (exited s = None → is_Some (timers s !! connTimer) →
     let s' := step s (EvTimer connTimer) in
     trace s'
     = trace s ++ [Stderr ("Error: Connection to " +:+ url (proc s)
                           +:+ " timed out");
                   Exit EXIT_CONN]
     ∧ exited s' = Some EXIT_CONN)
  ∧ (∀ msg es',
       is_challenge msg = true →
       let s2 := run (step s (EvMessage (Some msg))) es' in
       step s2 (EvTimer connTimer) = s2).
Proof.
  intros s.
  assert (wf s) as Hwf by apply run_wf, init_wf.
  assert (quiescent s) as Hq by (by apply run_quiescent).
  split; [done|]. split.
  - intros Hex [tm Htm]. pose proof (wf_conn _ Hwf _ Htm) as Ha.
    cbv zeta. unfold step. rewrite Hex. unfold fire. rewrite Htm, Ha.
    unfold drain, die. fields. rewrite Hq. cbn [fold_left]. fields.
    by rewrite <- app_assoc.
  - intros msg es' Hc s2.
    destruct (exited s2) as [code|] eqn:Hex2; [by eapply step_exited|].
    assert (exited s = None) as Hex.
    { destruct (exited s) as [code|] eqn:Hex; [|done].
      subst s2. rewrite (step_exited s _ code), (run_exited s _ code) in Hex2
        by done. congruence. }
    set (s1 := step s (EvMessage (Some msg))) in *.
    assert (wf s1) as Hwf1 by (by apply step_wf).
    assert (timers s1 !! connTimer = None) as Hgone.
    { subst s1. rewrite challenge_step by done.
      unfold on_challenge, sendReq. fields.
      rewrite lookup_insert_ne, lookup_delete_eq;
        [done|]. pose proof (wf_next _ Hwf). unfold connTimer. lia. }
    assert (timers s2 !! connTimer = None) as Hgone2.
    { destruct (timers s2 !! connTimer) as [tm|] eqn:Htm; [|done].
      destruct (ev_timers _ _ (run_evolves s1 es' Hwf1) _ _ Htm)
        as [Hold|[Hnew _]].
      - congruence.
      - pose proof (wf_next _ Hwf1). unfold connTimer in Hnew. lia. }
    unfold step. rewrite Hex2. unfold fire. rewrite Hgone2.
    apply drain_quiescent. subst s2. apply run_quiescent.
    by apply step_quiescent.
Qed.

Lemma value_of_prop x : value_prop (of_prop x) = x.
Proof. by destruct x. Qed.

(** [runCommand] sends the request of the command, whatever the
    command. *)
Lemma runCommand_sends s :
  ∃ method params k, runCommand s = sendReq method params k s.
Proof.
  unfold runCommand, runSend.
  destruct (command (proc s)); cbn [buildRequest]; eauto.
Qed.

(** The token of a [hello-ok] is written to the file, when the record on
    disk maps roles in an object. *)
Lemma persist_token_stores r s tok :
  let device := deviceId (IDENTITY (proc s)) in
  let auth := optchain (value_prop r) "auth" in
  optchain auth "deviceToken" = Some tok → truthy tok = true →
  role_map_is_object device (authFile s) = true →
  ∃ data,
    persist_token r s
    = inr (set_authFile (Some (Parsed data)) (emit (WriteFile data) s))
    ∧ loadStoredDeviceToken device ROLE (Some (Parsed data)) = tok
    ∧ storedEntry device ROLE (Some (Parsed data))
      = Some (obj [("token", tok); ("role", JStr ROLE);
                   ("scopes",
                    nullish_or (optchain auth "scopes")
                      (JArr (map JStr SCOPES)));
                   ("updatedAtMs", JNum (Z.of_N (clock s)))])
    ∧ ∀ role, role ≠ ROLE →
        storedEntry device role (Some (Parsed data))
        = storedEntry device role (authFile s).
Proof.
  intros device auth Htok Htruthy Hok.
  unfold persist_token. fold auth. rewrite Htok.
  cbn [truthy_prop]. rewrite Htruthy.
  unfold storeDeviceToken. fold device.
  destruct (existing_role_map device (authFile s) Hok) as (o & -> & Ho).
  unfold set_prop. rewrite bool_decide_eq_false_2 by done. cbn [andb].
  eexists. split; [reflexivity|]. split; [|split].
  - rewrite load_as_entry, storedEntry_written, lookup_insert_eq.
    rewrite optchain_Some. obj_lookup. by destruct tok.
  - by rewrite storedEntry_written, lookup_insert_eq.
  - intros role Hr. rewrite storedEntry_written, Ho.
    by rewrite lookup_insert_ne.
Qed.

(** X10. A handshake the gateway accepts with a device token. The connect
    request of the first attempt or of the retry is pending; its response
    has a truthy [ok] and a truthy [auth.deviceToken] in its payload; the
    record on disk, if there is one for this device, maps roles in an
    object. Then the token is written under [operator] with the scopes of
    the response (the requested ones when it names none) and the time, the
    other roles of the record are kept, the session is authenticated, and
    the request of the command is sent, after the write. A later start finds
    the token. *)
Theorem accepted_handshake_stores_token (c : Config) (es : list Event)
    (id : string) (p t : nat) (k : Kont) (msg tok : JSON) :
  let s := run (init c) es in
  let device := deviceId (IDENTITY c) in
  let auth := optchain (get_prop msg "payload") "auth" in
  exited s = None →
  outstanding s id "connect" p t →
  awaiting s !! p = Some k →
  k = KConnect ∨ k = KRetry →
  is_response msg = true →
  get_prop msg "id" = Some (JStr id) →
  truthy_prop (get_prop msg "ok") = true →
  optchain auth "deviceToken" = Some tok →
  truthy tok = true →
  role_map_is_object device (authFile s) = true →
  let s' := step s (EvMessage (Some msg)) in
  authenticated s' = true
  ∧ exited s' = None
  ∧ loadStoredDeviceToken device ROLE (authFile s') = tok
  ∧ storedEntry device ROLE (authFile s')
    = Some (obj [("token", tok); ("role", JStr ROLE);
                 ("scopes",
                  nullish_or (optchain auth "scopes") (JArr (map JStr SCOPES)));
                 ("updatedAtMs", JNum (Z.of_N (clock s)))])
  ∧ (∀ role, role ≠ ROLE →
       storedEntry device role (authFile s')
       = storedEntry device role (authFile s))
  ∧ ∃ data method params,
      authFile s' = Some (Parsed data)
      ∧ trace s'
        = trace s
          ++ [WriteFile data;
              Send (request_frame (String_of_N (msgId s + 1)) method params)].
Proof.
  intros s device auth Hex Hout Hk Hkind Hr Hid Hokay Htok Htruthy Hmap.
  assert (wf s) as Hwf by apply run_wf, init_wf.
  assert (quiescent s) as Hq by (by apply run_quiescent).
  assert (proc s = c) as Hproc by apply run_proc.
  pose proof Hout as [Hg Ht].
  assert (∀ o, ¬ In (p, o) (settled s)) as Hnot.
  { intros o. by eapply (wf_unsettled _ Hwf). }
  pose proof (entry_answered s id (call_entry p t) p k msg
                Hq Hex Hg eq_refl eq_refl Hnot Hk Hr Hid) as Hs.
  unfold response_outcome in Hs. rewrite Hokay in Hs.
  cbn [outcome_of call_entry resolve how timer] in Hs.
  set (st := settled_call id t p
               (Fulfilled (of_prop (get_prop msg "payload"))) s) in *.
  destruct (persist_token_stores (of_prop (get_prop msg "payload")) st tok)
    as (data & Hp & Hload & Hentry & Hothers).
  { rewrite value_of_prop. exact Htok. }
  { exact Htruthy. }
  { subst st. unfold settled_call. fields. rewrite Hproc. exact Hmap. }
  assert (step s (EvMessage (Some msg))
          = runCommand
              (set_authenticated true
                 (set_authFile (Some (Parsed data))
                    (emit (WriteFile data) st)))) as Hs'.
  { rewrite Hs. destruct Hkind as [-> | ->]; cbn [resume]; by rewrite Hp. }
  clear Hs Hp. cbv zeta.
  destruct (runCommand_sends
              (set_authenticated true
                 (set_authFile (Some (Parsed data))
                    (emit (WriteFile data) st))))
    as (method & params & k' & Hrun).
  rewrite Hs', Hrun. clear Hs' Hrun.
  rewrite value_of_prop in Hentry.
  replace (proc st) with c in * by (subst st; symmetry; exact Hproc).
  replace (clock st) with (clock s) in * by (by subst st).
  replace (authFile st) with (authFile s) in * by (by subst st).
  unfold sendReq. fields. split_and!.
  - reflexivity.
  - subst st. unfold settled_call. fields. exact Hex.
  - exact Hload.
  - exact Hentry.
  - exact Hothers.
  - exists data, method, params. split; [reflexivity|].
    subst st. unfold settled_call. fields. by rewrite <- app_assoc.
Qed.

(** X11. A token file that breaks the handshake. The file the script found
    holds the record of this device, and the [tokens] of the record are a
    boolean, a safe integer or a string. Nothing is loaded from it, so the first
    attempt uses the gateway token; and when the gateway accepts it and
    hands out a device token, the assignment of line 154 throws inside the
    [try] of the handshake: the process reports an authentication failure
    with the text of the [TypeError] and ends with [EXIT.AUTH], without a
    retry and without sending the command. *)
Theorem primitive_role_map_fails_handshake (c : Config) (es : list Event)
    (id : string) (p t : nat) (msg tok d tokens : JSON) :
  let s := run (init c) es in
  let device := deviceId (IDENTITY c) in
  let auth := optchain (get_prop msg "payload") "auth" in
  exited s = None →
  outstanding s id "connect" p t →
  awaiting s !! p = Some KConnect →
  is_response msg = true →
  get_prop msg "id" = Some (JStr id) →
  truthy_prop (get_prop msg "ok") = true →
  optchain auth "deviceToken" = Some tok →
  truthy tok = true →
  startFile c = Some (Parsed d) →
  authFile s = startFile c →
  is_record_of device d = true →
  get_prop d "tokens" = Some tokens →
  match tokens with
  | JBool _ | JStr _ => True
  | JNum n => safe_integer n = true
  | _ => False
  end →
  let s' := step s (EvMessage (Some msg)) in
  STORED_DEVICE_TOKEN c = JNull
  ∧ exited s' = Some EXIT_AUTH
  ∧ trace s'
    = trace s
      ++ [Stderr ("Error: Authentication failed — "
                  +:+ "Cannot create property 'operator' on "
                  +:+ typeof tokens +:+ " '" +:+ ToString tokens +:+ "'");
          Exit EXIT_AUTH].
Proof.
  intros s device auth Hex Hout Hk Hr Hid Hokay Htok Htruthy Hstart Hfile
    Hrec Htokens Hprim.
  assert (wf s) as Hwf by apply run_wf, init_wf.
  assert (quiescent s) as Hq by (by apply run_quiescent).
  assert (proc s = c) as Hproc by apply run_proc.
  assert (STORED_DEVICE_TOKEN c = JNull) as Hnone.
  { unfold STORED_DEVICE_TOKEN, loadStoredDeviceToken.
    rewrite Hstart. fold device. rewrite Hrec, Htokens. cbn [negb].
    by destruct tokens. }
  split; [exact Hnone|].
  pose proof Hout as [Hg Ht].
  assert (∀ o, ¬ In (p, o) (settled s)) as Hnot.
  { intros o. by eapply (wf_unsettled _ Hwf). }
  pose proof (entry_answered s id (call_entry p t) p KConnect msg
                Hq Hex Hg eq_refl eq_refl Hnot Hk Hr Hid) as Hs.
  unfold response_outcome in Hs. rewrite Hokay in Hs.
  cbn [outcome_of call_entry resolve how timer resume] in Hs.
  set (st := settled_call id t p
               (Fulfilled (of_prop (get_prop msg "payload"))) s) in *.
  assert (persist_token (of_prop (get_prop msg "payload")) st
          = inl ("Cannot create property 'operator' on "
                 +:+ typeof tokens +:+ " '" +:+ ToString tokens +:+ "'"))
    as Hp.
  { unfold persist_token. rewrite value_of_prop. fold auth. rewrite Htok.
    cbn [truthy_prop]. rewrite Htruthy.
    replace (proc st) with c by (subst st; symmetry; exact Hproc).
    replace (authFile st) with (authFile s) by (by subst st).
    unfold storeDeviceToken. fold device.
    rewrite Hfile, Hstart, Hrec, optchain_Some, Htokens.
    by destruct tokens. }
  rewrite Hp in Hs. cbv zeta. rewrite Hs.
  unfold connect_failed.
  replace (proc st) with c by (subst st; symmetry; exact Hproc).
  rewrite Hnone. cbn [truthy andb]. unfold die. fields.
  split; [reflexivity|]. subst st. unfold settled_call. fields.
  by rewrite <- app_assoc.
Qed.

(** C1.  The cached token that is never retried.  [loadStoredDeviceToken]
    returned a token that is not [null] and yet falsy (the empty string,
    [0], [false]).  Line 319 takes it ([??]): the connect request that
    answers a challenge carries it.  And when that request is rejected, by
    a response or by its deadline, in whatever turn and with whatever
    error, also one the script takes for a stale token, the test of line
    359 ([&&]) fails: the file is left as it is, no retry is sent, and the
    process ends with [EXIT.AUTH]. *)
Theorem falsy_cached_token_is_not_retried (c : Config) (es : list Event) :
  let s := run (init c) es in
  let cached := STORED_DEVICE_TOKEN c in
  cached ≠ JNull →
  truthy cached = false →
  exited s = None →
  (∀ msg,
     is_challenge msg = true →
     let s1 := step s (EvMessage (Some msg)) in
     let id := String_of_N (msgId s + 1) in
     ∃ params,
       trace s1 = trace s ++ [Send (request_frame id "connect" params)]
       ∧ optchain (get_prop params "auth") "token" = Some cached
       ∧ outstanding s1 id "connect" (nextPromise s) (nextTimer s)
       ∧ awaiting s1 !! nextPromise s = Some KConnect)
  ∧ (∀ id p t ev e,
       outstanding s id "connect" p t →
       awaiting s !! p = Some KConnect →
       rejection id t "connect" ev = Some e →
       let s' := step s ev in
       exited s' = Some EXIT_AUTH
       ∧ authFile s' = authFile s
       ∧ trace s'
         = trace s
           ++ [Stderr ("Error: Authentication failed — " +:+ error_message e);
               Exit EXIT_AUTH]).
Proof.
  intros s cached Hsome Hfalsy Hex.
  assert (wf s) as Hwf by apply run_wf, init_wf.
  assert (quiescent s) as Hq by (by apply run_quiescent).
  assert (proc s = c) as Hproc by apply run_proc.
  split.
  - intros msg Hc s1 id.
    assert (s1 = on_challenge msg s) as Hs1 by (by apply challenge_step).
    unfold on_challenge in Hs1. cbv zeta in Hs1.
    match type of Hs1 with
    | _ = sendReq ?m ?params ?k ?s0 =>
        pose proof (sendReq_outstanding m params k s0) as Hsend;
        rewrite <- Hs1 in Hsend; exists params
    end.
    revert Hsend. fields.
    intros (Hout & Haw & Htr & _).
    split; [exact Htr|]. split; [|split; [exact Hout|exact Haw]].
    rewrite connect_params_token, Hproc. fold cached.
    by destruct cached.
  - intros id p t ev e Hout Hk Hrej s'.
    pose proof (call_rejected s id "connect" p t KConnect ev e
                  Hwf Hq Hex Hout Hk Hrej) as Hs.
    cbn [resume] in Hs. fold s' in Hs.
    set (st := settled_call id t p (Rejected e) s) in *.
    assert (proc st = c) as Hpst by (subst st; unfold settled_call; by fields).
    unfold connect_failed in Hs. rewrite Hpst in Hs. fold cached in Hs.
    rewrite Hfalsy in Hs. cbn [andb] in Hs.
    rewrite Hs. unfold die. subst st. unfold settled_call. fields.
    split; [reflexivity|]. split; [reflexivity|]. by rewrite <- app_assoc.
Qed.

End Behaviour.

(** ** The token file of another device *)

(** X12. When the file holds no record of this device (no file, text that
    does not parse, another version, or the record of another device),
    [storeDeviceToken] writes a new record with the one entry: what another
    device had stored in the file cannot be loaded any more. *)
Theorem store_replaces_foreign_record (deviceId role : string)
    (token scopes : JSON) (now : N) (file : File) :
  role ≠ "__proto__" →
  match file with
  | Some (Parsed d) => is_record_of deviceId d = false
  | _ => True
  end →
  let entry :=
    obj [("token", token); ("role", JStr role); ("scopes", scopes);
         ("updatedAtMs", JNum (Z.of_N now))] in
  let data :=
    obj [("version", JNum 1); ("deviceId", JStr deviceId);
         ("tokens", obj [(role, entry)])] in
  storeDeviceToken deviceId role token scopes now file
  = inr (Some (Parsed data))
  ∧ ∀ deviceId' role',
      deviceId' ≠ deviceId ∨ role' ≠ role →
      loadStoredDeviceToken deviceId' role' (Some (Parsed data)) = JNull.
Proof.
  intros Hrole Hforeign entry data.
  assert (storeDeviceToken deviceId role token scopes now file
          = inr (Some (Parsed data))) as Hstore.
  { unfold storeDeviceToken.
    assert (match file with
            | Some (Parsed d) =>
                if is_record_of deviceId d then Some d else None
            | _ => None
            end = None) as ->.
    { destruct file as [[|d]|]; try done. by rewrite Hforeign. }
    cbn [optchain nullish_or]. unfold set_prop.
    rewrite bool_decide_eq_false_2 by done. reflexivity. }
  split; [exact Hstore|].
  intros deviceId' role' Hne.
  unfold loadStoredDeviceToken.
  destruct (is_record_of deviceId' data) eqn:Hrec; [|done]. cbn [negb].
  assert (deviceId' = deviceId) as ->.
  { unfold is_record_of in Hrec. apply andb_true_iff in Hrec as [_ Hd].
    subst data. revert Hd. obj_lookup. intros Hd.
    apply strict_eq_str in Hd. by injection Hd. }
  destruct Hne as [Hne|Hne]; [done|].
  subst data. obj_lookup. rewrite optchain_Some.
  unfold obj at 1. cbn [get_prop list_to_map foldr].
  by rewrite lookup_insert_ne, lookup_empty.
Qed.

(** ** Entries and their deadlines *)

Section Deadlines.
Context `{Runtime}.

(** X13. Nothing waits without a deadline. Between two events of any run:
    the keys of the table are distinct; every entry has a live timer, the
    one created with it (for a call the time-out of its identifier, for the
    completion wait the time-out of [send]), and its promise has not been
    settled; and every live time-out of a call has its entry in the table. *)
Theorem pending_entries_have_deadlines (c : Config) (es : list Event) :
  let s := run (init c) es in
  NoDup (map fst (pending s))
  ∧ (∀ id e,
       Map.get id (pending s) = Some e →
       outcomes (target (resolve e)) s = []
       ∧ ∃ tm,
           timers s !! timer e = Some tm
           ∧ ((∃ method p,
                 action tm = TCall id method p ∧ e = call_entry p (timer e))
              ∨ (∃ p,
                   id = "send-wait" ∧ action tm = TSendWait p
                   ∧ e = wait_entry p (timer e))))
  ∧ (∀ t tm id method p,
       timers s !! t = Some tm → action tm = TCall id method p →
       Map.get id (pending s) = Some (call_entry p t)).
Proof.
  intros s.
  assert (wf s) as Hwf by apply run_wf, init_wf.
  split; [apply Hwf|]. split; [|apply Hwf].
  intros id e Hg.
  destruct (entry_promise _ _ _ Hwf Hg) as (tm & p & Ht & Hp & Hres & _ & Hm).
  split.
  - rewrite Hres. apply outcomes_in_nil. intros o.
    by eapply (wf_unsettled _ Hwf).
  - exists tm. split; [exact Ht|].
    unfold entry_matches in Hm.
    destruct (action tm) as [id' m p'|p'|]; [| |done].
    + destruct Hm as (-> & He & _). left. by exists m, p'.
    + destruct Hm as (-> & He). right. by exists p'.
Qed.

End Deadlines.

(** ** The command line *)

Section CommandLine.
Import Cli.

Lemma prefix_app p s : String.prefix p s = true → ∃ r, s = p +:+ r.
Proof.
  revert s. induction p as [|a p IH]; intros s Hp.
  - by exists s.
  - destruct s as [|b s]; [done|]. cbn in Hp.
    destruct (ascii_dec a b) as [->|]; [|done].
    destruct (IH _ Hp) as [r ->]. by exists r.
Qed.

Lemma split_length_cons c s :
  split_length (String c s)
  = if Ascii.eqb c ":" then S (split_length s) else split_length s.
Proof. by destruct c as [[] [] [] [] [] [] [] []]. Qed.

(** A string that [split(":")] cuts in two parts or more has a colon. *)
Lemma split_length_colon s :
  2 <= split_length s → ∃ a b, s = a +:+ ":" +:+ b.
Proof.
  induction s as [|c s IH]; [cbn; intros; lia|]. rewrite split_length_cons.
  destruct (Ascii.eqb_spec c ":") as [->|Hc]; intros Hs.
  - by exists EmptyString, s.
  - destruct (IH Hs) as (a & b & ->). by exists (String c a), b.
Qed.

Lemma session_key_shape key :
  String.prefix "agent:" key = true → 3 <= split_length key →
  ∃ id session, key = "agent:" +:+ id +:+ ":" +:+ session.
Proof.
  intros Hp Hs. destruct (prefix_app _ _ Hp) as [r ->].
  change (split_length ("agent:" +:+ r)) with (S (split_length r)) in Hs.
  destruct (split_length_colon r) as (a & b & ->); [lia|].
  by exists a, b.
Qed.

Lemma key_test key :
  negb (String.prefix "agent:" key) || Nat.ltb (split_length key) 3
  = negb (key_ok key).
Proof.
  unfold key_ok. destruct (String.prefix _ _); [|done].
  cbn [negb orb andb]. apply Nat.ltb_antisym.
Qed.

Lemma key_ok_shape key :
  key_ok key = true →
  ∃ id session, key = "agent:" +:+ id +:+ ":" +:+ session.
Proof.
  unfold key_ok. intros Hk. apply andb_true_iff in Hk as [Hp Hs].
  apply session_key_shape; [done|]. by apply Nat.leb_le.
Qed.

(** *** The number for an integer *)

Lemma nearest_double_safe a :
  (a < 2 ^ 53)%Z → nearest_double a = Some a.
Proof.
  intros Ha. unfold nearest_double.
  by destruct (Z.ltb_spec a (2 ^ 53)); [|lia].
Qed.

(** Beyond [2^53] the leading bits are a positive number. *)
Lemma leading_bits a :
  (2 ^ 53 <= a)%Z →
  (0 < 2 ^ (Z.log2 a - 52))%Z ∧ (1 <= a / 2 ^ (Z.log2 a - 52))%Z.
Proof.
  intros Ha.
  assert (53 <= Z.log2 a)%Z as Hlog.
  { rewrite <- (Z.log2_pow2 53) by lia. by apply Z.log2_le_mono. }
  assert (0 < a)%Z as Hpos.
  { eapply Z.lt_le_trans; [|exact Ha]. by apply Z.pow_pos_nonneg. }
  pose proof (Z.log2_spec a Hpos) as [Hlow _].
  assert (0 < 2 ^ (Z.log2 a - 52))%Z as Hp by (apply Z.pow_pos_nonneg; lia).
  split; [exact Hp|].
  apply Z.div_le_lower_bound; [exact Hp|]. rewrite Z.mul_1_r.
  etransitivity; [|exact Hlow]. apply Z.pow_le_mono_r; lia.
Qed.

Lemma nearest_double_bounds a v :
  nearest_double a = Some v →
  ((0 <= a → 0 <= v) ∧ (1 <= a → 1 <= v))%Z.
Proof.
  unfold nearest_double. destruct (Z.ltb_spec a (2 ^ 53)) as [_|Ha].
  - by intros [= ->].
  - destruct (leading_bits a Ha) as [Hp Hq]. cbv zeta.
    set (e := (Z.log2 a - 52)%Z) in *.
    set (q := (a / 2 ^ e)%Z) in *.
    set (up := orb _ _).
    destruct (Z.leb _ _); [done|]. intros [= <-].
    assert (1 <= (if up then q + 1 else q))%Z as Hq'
      by (destruct up; lia).
    clearbody up q e. split; intros _; nia.
Qed.

(** The test of line 72 on the number read is the test on the integer
    read. *)
Lemma limit_test m :
  match Number_of_integer m with
  | NaN => true
  | Finite n => (n <? 1)%Z
  | Infinite negative => negative
  end = (m <? 1)%Z.
Proof.
  unfold Number_of_integer.
  destruct (nearest_double (Z.abs m)) as [v|] eqn:Hv.
  - destruct (nearest_double_bounds _ _ Hv) as [H0 H1].
    destruct (Z.ltb_spec m 1) as [Hm|Hm].
    + apply Z.ltb_lt. assert (0 <= v)%Z by lia. nia.
    + apply Z.ltb_ge. assert (1 <= v)%Z by lia. nia.
  - destruct (Z.eq_dec m 0%Z) as [->|Hm]; [discriminate Hv|].
    destruct (Z.ltb_spec m 0), (Z.ltb_spec m 1); lia || reflexivity.
Qed.

Lemma Number_of_safe_integer m :
  safe_integer m = true → Number_of_integer m = Finite m.
Proof.
  unfold safe_integer, MAX_SAFE_INTEGER. intros Hm. apply Z.leb_le in Hm.
  unfold Number_of_integer. rewrite nearest_double_safe by lia.
  f_equal. lia.
Qed.

Lemma validate_accepted cliArgs :
  validate cliArgs = Accepted →
  cliArgs = ["status"] ∨ cliArgs = ["sessions"] ∨ cliArgs = ["cron-list"]
  ∨ (∃ jobId, cliArgs = ["cron-run"; jobId])
  ∨ (∃ key, key_ok key = true
            ∧ (cliArgs = ["abort"; key] ∨ cliArgs = ["history"; key]
               ∨ (∃ message, cliArgs = ["send"; key; message])
               ∨ (∃ text, cliArgs = ["inject"; key; text])
               ∨ (∃ text label, cliArgs = ["inject"; key; text; label])
               ∨ cliArgs = ["history"; key; EmptyString]
               ∨ (∃ limit n, cliArgs = ["history"; key; limit]
                             ∧ limit ≠ EmptyString
                             ∧ mathInt limit = Some n ∧ (1 <= n)%Z))).
Proof.
  intros Hv. destruct cliArgs as [|command rest]; [done|].
  unfold validate in Hv.
  destruct (String.eqb command EmptyString); [done|].
  cbv zeta in Hv. rewrite key_test in Hv.
  unfold COMMANDS_get, COMMANDS in Hv. cbn [own_property] in Hv.
  destruct (String.eqb_spec command "status") as [->|_].
  { destruct rest; [by left|done]. }
  destruct (String.eqb_spec command "sessions") as [->|_].
  { destruct rest; [right; by left|done]. }
  destruct (String.eqb_spec command "send") as [->|_].
  { destruct rest as [|key [|message [|? ?]]]; try done.
    cbn -[key_ok] in Hv. destruct (key_ok key) eqn:Hk; [|done].
    do 4 right. exists key. split; [done|]. right. right. left. by eexists. }
  destruct (String.eqb_spec command "inject") as [->|_].
  { destruct rest as [|key [|text [|label [|? ?]]]]; try done;
      cbn -[key_ok] in Hv; (destruct (key_ok key) eqn:Hk; [|done]);
      do 4 right; exists key; (split; [done|]).
    - do 3 right. left. by eexists.
    - do 4 right. left. by do 2 eexists. }
  destruct (String.eqb_spec command "history") as [->|_].
  { destruct rest as [|key [|limit [|? ?]]]; try done;
      cbn -[key_ok parseInt] in Hv;
      (destruct (key_ok key) eqn:Hk; [|done]);
      do 4 right; exists key; (split; [done|]).
    - right. by left.
    - cbn -[parseInt] in Hv.
      destruct (String.eqb_spec limit EmptyString) as [->|Hl].
      + do 5 right. by left.
      + do 6 right. cbn -[parseInt] in Hv. unfold parseInt in Hv.
        destruct (mathInt limit) as [n|] eqn:Hn; [|done].
        rewrite limit_test in Hv.
        destruct (Z.ltb_spec n 1); [done|]. by exists limit, n. }
  destruct (String.eqb_spec command "abort") as [->|_].
  { destruct rest as [|key [|? ?]]; try done.
    cbn -[key_ok] in Hv. destruct (key_ok key) eqn:Hk; [|done].
    do 4 right. exists key. split; [done|]. by left. }
  destruct (String.eqb_spec command "cron-list") as [->|_].
  { destruct rest; [do 2 right; by left|done]. }
  destruct (String.eqb_spec command "cron-run") as [->|_].
  { destruct rest as [|jobId [|? ?]]; try done.
    do 3 right. left. by eexists. }
  by destruct (existsb _ _).
Qed.

Ltac validated Hk :=
  unfold validate; cbv zeta; rewrite key_test;
  cbn -[key_ok parseInt]; rewrite ?Hk; cbn -[parseInt].

(** X14. The command lines the script accepts, and no others: the eight
    commands with the number of arguments of [COMMANDS], a session key that
    starts with [agent:] and that [split(":")] cuts in three parts or more,
    and for [history] a limit that is empty or in which [parseInt] reads an
    integer from 1 on (after white space and a sign, the digits up to the
    first character that is none). Every other command line ends the script
    before it opens a connection. *)
Theorem accepted_command_lines (cliArgs : list string) :
  validate cliArgs = Accepted ↔
  cliArgs = ["status"] ∨ cliArgs = ["sessions"] ∨ cliArgs = ["cron-list"]
  ∨ (∃ jobId, cliArgs = ["cron-run"; jobId])
  ∨ (∃ key, key_ok key = true
            ∧ (cliArgs = ["abort"; key] ∨ cliArgs = ["history"; key]
               ∨ (∃ message, cliArgs = ["send"; key; message])
               ∨ (∃ text, cliArgs = ["inject"; key; text])
               ∨ (∃ text label, cliArgs = ["inject"; key; text; label])
               ∨ cliArgs = ["history"; key; EmptyString]
               ∨ (∃ limit n, cliArgs = ["history"; key; limit]
                             ∧ limit ≠ EmptyString
                             ∧ mathInt limit = Some n ∧ (1 <= n)%Z))).
Proof.
  split; [apply validate_accepted|].
  intros [->|[->|[->|[[jobId ->]|(key & Hk & Hshape)]]]]; try reflexivity.
  destruct Hshape
    as [-> | [-> | [[m ->] | [[m ->] | [(m & l & ->) | [-> | Hlimit]]]]]];
    try (validated Hk; reflexivity).
  destruct Hlimit as (l & n & -> & Hl & Hn & H1).
  validated Hk. apply String.eqb_neq in Hl. rewrite Hl. cbn [negb].
  unfold parseInt. rewrite Hn, limit_test.
  destruct (Z.ltb_spec n 1); [lia|done].
Qed.

(** X15. What the script goes on with. For every command line it accepts,
    the command and the arguments that [buildRequest] and [runSend] read are
    there; the session key of the command, if it has one, is [agent:], an
    identifier, a colon and a rest (both may be empty); and the [limit] that
    [history] sends, 20 when none is given, is a number, 1 at least. The
    one exception is a limit so long that [parseInt] makes it [Infinity],
    which passes the test of line 72 as well. *)
Theorem accepted_command_is_well_formed (cliArgs : list string) :
  validate cliArgs = Accepted →
  (∃ cmd,
     command_of cliArgs = Some cmd
     ∧ (∀ key, sessionKey_of cmd = Some key →
          ∃ id session, key = "agent:" +:+ id +:+ ":" +:+ session)
     ∧ (∀ params, buildRequest cmd = Some ("chat.history", params) →
          ∃ n, get_prop params "limit" = Some (JNum n) ∧ (1 <= n)%Z))
  ∨ (∃ key limit,
       cliArgs = ["history"; key; limit]
       ∧ key_ok key = true
       ∧ parseInt limit = Infinite false).
Proof.
  intros Hv. apply validate_accepted in Hv.
  destruct Hv as [->|[->|[->|[[jobId ->]|(key & Hk & Hshape)]]]].
  - left. exists CmdStatus. by split_and!.
  - left. exists CmdSessions. by split_and!.
  - left. exists CmdCronList. by split_and!.
  - left. exists (CmdCronRun jobId). by split_and!.
  - pose proof (key_ok_shape _ Hk) as Hkey.
    assert (∀ k, Some key = Some k →
              ∃ id session, k = "agent:" +:+ id +:+ ":" +:+ session) as Hkeys
      by (by intros k [= <-]).
    destruct Hshape
      as [-> | [-> | [[m ->] | [[m ->] | [(m & l & ->) | [-> | Hlimit]]]]]].
    + left. exists (CmdAbort key). by split_and!.
    + left. exists (CmdHistory key None). split_and!; [done|done|].
      intros params [= <-]. exists 20%Z. split; [by obj_lookup|lia].
    + left. exists (CmdSend key m). by split_and!.
    + left. exists (CmdInject key m None). by split_and!.
    + left. exists (CmdInject key m (Some l)). by split_and!.
    + left. exists (CmdHistory key None). split_and!; [done|done|].
      intros params [= <-]. exists 20%Z. split; [by obj_lookup|lia].
    + destruct Hlimit as (l & n & -> & Hl & Hn & H1).
      apply String.eqb_neq in Hl.
      pose proof (limit_test n) as Htest.
      destruct (Z.ltb_spec n 1) as [|_]; [lia|].
      assert (parseInt l = Number_of_integer n) as Hp
        by (unfold parseInt; by rewrite Hn).
      destruct (Number_of_integer n) as [|v|negative] eqn:Hnum; [done|..].
      * left. exists (CmdHistory key (Some v)). split_and!; [|done|].
        -- cbn -[parseInt]. by rewrite Hl, Hp.
        -- intros params [= <-]. exists v. split; [by obj_lookup|].
           by apply Z.ltb_ge.
      * right. exists key, l. subst negative. by split_and!.
Qed.

(** X16. A name that [COMMANDS] inherits is not refused. When the first
    argument is the name of a property of [Object.prototype], the test of
    line 55 finds a truthy value, line 57 reads [args] off it and the script
    ends with an uncaught [TypeError] instead of the usage; for every other
    name that is not a command it prints the usage and ends with
    [EXIT.USAGE]. *)
Theorem unknown_command (command : string) (rest : list string) :
  ¬ In command (map fst COMMANDS) →
  validate (command :: rest)
  = if existsb (String.eqb command) Object_prototype
    then Uncaught "Cannot read properties of undefined (reading '0')"
    else Usage usage_text.
Proof.
  intros Hnot. unfold validate.
  assert (own_property command COMMANDS = None) as Hown.
  { revert Hnot. generalize COMMANDS. intros o.
    induction o as [|[k v] o IH]; intros Hnot; [done|]. cbn [own_property].
    destruct (String.eqb_spec command k) as [->|_].
    - destruct Hnot. by left.
    - apply IH. intros Hin. apply Hnot. by right. }
  unfold COMMANDS_get. rewrite Hown.
  destruct (String.eqb_spec command EmptyString) as [->|_]; [done|].
  by destruct (existsb _ _).
Qed.

Lemma digits_of_uint d junk :
  digits junk = EmptyString →
  digits (NilEmpty.string_of_uint d +:+ junk) = NilEmpty.string_of_uint d.
Proof.
  intros Hj. induction d; simpl; [exact Hj|..]; by rewrite IHd.
Qed.

(** No white space starts with a digit. *)
Lemma trimStart_digit_first c r :
  is_digit c = true → trimStart (String c r) = String c r.
Proof.
  intros Hc. unfold trimStart. cbn [String.length trim].
  by destruct c as [[] [] [] [] [] [] [] []]; try discriminate Hc.
Qed.

(** On a string that starts with a digit [parseInt] reads the run of
    digits. *)
Lemma mathInt_digit_first c r :
  is_digit c = true →
  mathInt (String c r)
  = (fun d => Z.of_N (N.of_uint d))
    <$> NilZero.uint_of_string (String c (digits r)).
Proof.
  intros Hc. unfold mathInt. rewrite (trimStart_digit_first c r Hc).
  destruct c as [[] [] [] [] [] [] [] []]; try discriminate Hc;
    cbn [digits]; rewrite Hc;
    destruct (NilZero.uint_of_string _); cbn [fmap option_fmap option_map];
    f_equal; lia.
Qed.

Lemma append_cons c r s : String c r +:+ s = String c (r +:+ s).
Proof. reflexivity. Qed.

Lemma mathInt_decimal n junk :
  digits junk = EmptyString →
  mathInt (String_of_N n +:+ junk) = Some (Z.of_N n).
Proof.
  intros Hj.
  pose proof (String_of_N_parse n) as Hparse.
  pose proof (DecimalN.Unsigned.of_to n) as Hof.
  pose proof (N_to_uint_nonnil n) as Hnil.
  unfold String_of_N in *.
  destruct (N.to_uint n) as [|d|d|d|d|d|d|d|d|d|d] eqn:Hd; [done|..];
    cbn [NilZero.string_of_uint NilEmpty.string_of_uint] in *;
    rewrite append_cons, mathInt_digit_first by reflexivity;
    rewrite (digits_of_uint d junk Hj), Hparse;
    cbn [fmap option_fmap option_map]; by rewrite Hof.
Qed.

(** X17. The limit of [history] is read by its leading digits. With a
    session key that passes, a third argument that starts with the decimal
    numeral of [n], 1 or more, followed by anything that does not start with
    a digit ([5abc], [1.9]), is accepted; and when [n] is a safe integer,
    the limit sent is [n]. *)
Theorem history_limit_leading_digits (key : string) (n : N) (junk : string) :
  key_ok key = true →
  (1 <= n)%N →
  digits junk = EmptyString →
  let cliArgs := ["history"; key; String_of_N n +:+ junk] in
  validate cliArgs = Accepted
  ∧ (safe_integer (Z.of_N n) = true →
     command_of cliArgs = Some (CmdHistory key (Some (Z.of_N n)))
     ∧ ∃ params,
         buildRequest (CmdHistory key (Some (Z.of_N n)))
         = Some ("chat.history", params)
         ∧ get_prop params "limit" = Some (JNum (Z.of_N n))).
Proof.
  intros Hk Hn Hj cliArgs.
  assert (String_of_N n +:+ junk ≠ EmptyString) as Hne.
  { pose proof (N_to_uint_nonnil n) as Hnil. unfold String_of_N.
    by destruct (N.to_uint n). }
  apply String.eqb_neq in Hne.
  assert (parseInt (String_of_N n +:+ junk) = Number_of_integer (Z.of_N n))
    as Hp by (unfold parseInt; by rewrite (mathInt_decimal n junk Hj)).
  split.
  - subst cliArgs. validated Hk. rewrite Hne, Hp, limit_test. cbn [negb].
    destruct (Z.ltb_spec (Z.of_N n) 1); [lia|done].
  - intros Hsafe. split.
    + subst cliArgs. cbn -[parseInt].
      by rewrite Hne, Hp, (Number_of_safe_integer _ Hsafe).
    + eexists. split; [reflexivity|]. by obj_lookup.
Qed.

End CommandLine.

(** ** The gateway token and the identity *)

Section StartupFacts.
Import Startup.

Lemma before_brace_app name : before_brace (name +:+ "}") = Some name.
Proof.
  induction name as [|c name IH]; [done|].
  rewrite append_cons. cbn [before_brace]. rewrite IH.
  by destruct (name +:+ "}") eqn:E; [destruct name|].
Qed.

Lemma before_brace_Some s name :
  before_brace s = Some name → s = name +:+ "}".
Proof.
  revert name. induction s as [|c s IH]; intros name Hb; [done|].
  cbn [before_brace] in Hb. destruct s as [|c' s].
  - destruct (Ascii.eqb_spec c "}") as [->|]; [|done]. by injection Hb as <-.
  - destruct (before_brace (String c' s)) as [n|] eqn:E; [|done].
    injection Hb as <-. by rewrite (IH n).
Qed.

(** The tokens the pattern of line 169 matches. *)
Lemma env_reference_Some token name :
  env_reference token = Some name ↔
  token = "${" +:+ name +:+ "}" ∧ name ≠ EmptyString
  ∧ has_LineTerminator name = false.
Proof.
  split.
  - unfold env_reference. intros Hr.
    destruct token as [|c1 [|c2 rest]]; try done;
      try (by destruct c1 as [[] [] [] [] [] [] [] []]).
    destruct (Ascii.eqb_spec c1 "$") as [->|];
      [|by destruct c1 as [[] [] [] [] [] [] [] []]].
    destruct (Ascii.eqb_spec c2 "{") as [->|];
      [|by destruct c2 as [[] [] [] [] [] [] [] []]].
    destruct (before_brace rest) as [n|] eqn:Hb; [|done].
    destruct (String.eqb_spec n EmptyString) as [->|Hn]; [done|].
    cbn [orb] in Hr.
    destruct (has_LineTerminator n) eqn:Hl; [done|]. injection Hr as <-.
    by rewrite (before_brace_Some _ _ Hb).
  - intros (-> & Hn & Hl).
    change ("${" +:+ name +:+ "}")
      with (String "$" (String "{" (name +:+ "}"))).
    unfold env_reference. rewrite before_brace_app, Hl.
    apply String.eqb_neq in Hn. by rewrite Hn.
Qed.

Lemma token_of_config_not_empty env configPath file token :
  token_of_config env configPath file = Token token → token ≠ EmptyString.
Proof.
  unfold token_of_config. destruct file as [m|config]; [done|]. cbv zeta.
  destruct (optchain _ "token") as [tok|]; [|done].
  destruct (truthy_prop (Some tok)) eqn:Ht; [|done]. cbn [negb].
  destruct tok as [| | |t| |]; try done.
  destruct (env_reference t) as [name|].
  - destruct (env_get env name) as [v| |]; try done.
    destruct (String.eqb_spec v EmptyString); [done|]. by intros [= <-].
  - intros [= <-]. cbn in Ht.
    by destruct (bool_decide_reflect (t = EmptyString)).
Qed.

(** X18. The gateway token is never empty. Whatever the environment and the
    configuration file, a string that [readToken] returns is not the empty
    string. *)
Theorem gateway_token_is_not_empty (env : Env) (configPath : string)
    (file : ConfigFile) (token : string) :
  readToken env configPath file = Token token → token ≠ EmptyString.
Proof.
  unfold readToken.
  destruct (env !! "OPENCLAW_GATEWAY_TOKEN") as [v|];
    [|apply token_of_config_not_empty].
  destruct (String.eqb_spec v EmptyString);
    [apply token_of_config_not_empty|]. by intros [= <-].
Qed.

(** X19. The token of the configuration file. With no token in
    [OPENCLAW_GATEWAY_TOKEN], a [gateway.auth.token] that is a dollar sign,
    an opening brace, a name without line terminators and a closing brace is
    replaced by what [process.env] holds under the name: the variable when
    it is set and not empty, the inherited member when the name is one of
    [Object.prototype], and otherwise the process ends with [EXIT.AUTH];
    every other non-empty string is the token as it stands. *)
Theorem config_token_reference (env : Env) (configPath : string)
    (config : JSON) (token : string) :
  env !! "OPENCLAW_GATEWAY_TOKEN" = None
  ∨ env !! "OPENCLAW_GATEWAY_TOKEN" = Some EmptyString →
  optchain (optchain (optchain (Some config) "gateway") "auth") "token"
  = Some (JStr token) →
  token ≠ EmptyString →
  (∀ name,
     token = "${" +:+ name +:+ "}" → name ≠ EmptyString →
     has_LineTerminator name = false →
     readToken env configPath (Config config)
     = match env_get env name with
       | EnvString value =>
           if String.eqb value EmptyString
           then Died ("Error: Env var " +:+ name
                      +:+ " referenced in gateway.auth.token is not set")
           else Token value
       | EnvInherited => InheritedMember name
       | EnvUndefined =>
           Died ("Error: Env var " +:+ name
                 +:+ " referenced in gateway.auth.token is not set")
       end)
  ∧ ((∀ name,
        token = "${" +:+ name +:+ "}" →
        name = EmptyString ∨ has_LineTerminator name = true) →
     readToken env configPath (Config config) = Token token).
Proof.
  intros Henv Htok Hne.
  assert (readToken env configPath (Config config)
          = match env_reference token with
            | Some name =>
                match env_get env name with
                | EnvString value =>
                    if String.eqb value EmptyString
                    then Died ("Error: Env var " +:+ name
                               +:+ " referenced in gateway.auth.token is not set")
                    else Token value
                | EnvInherited => InheritedMember name
                | EnvUndefined =>
                    Died ("Error: Env var " +:+ name
                          +:+ " referenced in gateway.auth.token is not set")
                end
            | None => Token token
            end) as ->.
  { unfold readToken.
    assert (token_of_config env configPath (Config config)
            = match env_reference token with
              | Some name =>
                  match env_get env name with
                  | EnvString value =>
                      if String.eqb value EmptyString
                      then Died ("Error: Env var " +:+ name
                                 +:+ " referenced in gateway.auth.token is not set")
                      else Token value
                  | EnvInherited => InheritedMember name
                  | EnvUndefined =>
                      Died ("Error: Env var " +:+ name
                            +:+ " referenced in gateway.auth.token is not set")
                  end
              | None => Token token
              end) as Hfile.
    { unfold token_of_config. cbv zeta. rewrite Htok.
      cbn [truthy_prop truthy]. by rewrite bool_decide_eq_false_2. }
    by destruct Henv as [-> | ->]. }
  split.
  - intros name Ht Hn Hl.
    by rewrite (proj2 (env_reference_Some token name)).
  - intros Hnot. destruct (env_reference token) as [name|] eqn:Hr; [|done].
    apply env_reference_Some in Hr as (Ht & Hn & Hl).
    destruct (Hnot name Ht); congruence.
Qed.

End StartupFacts.

Section IdentityFacts.
Context `{Runtime}.
Import Startup.

(** X20. The identity is created once. Whatever the identity file holds, the
    file that [loadOrCreateIdentity] leaves is one it accepts: a later start
    returns the same identity, generates no key and leaves the file as it
    is. A file that passes the test of line 99 is returned as parsed and not
    written. (The digest and the two PEM texts of a generated pair are not
    empty.) *)
Theorem identity_is_created_once (sha256hex : string → string)
    (publicKeyPem privateKeyPem : string) (now : N)
    (publicKeyPem' privateKeyPem' : string) (now' : N) (file : File) :
  publicKeyPem ≠ EmptyString →
  privateKeyPem ≠ EmptyString →
  sha256hex (derivePublicKeyRaw publicKeyPem) ≠ EmptyString →
  let first :=
    loadOrCreateIdentity sha256hex publicKeyPem privateKeyPem now file in
  loadOrCreateIdentity sha256hex publicKeyPem' privateKeyPem' now' first.2
  = first
  ∧ is_identity first.1 = true
  ∧ first.2 = Some (Parsed first.1)
  ∧ ∀ data,
      file = Some (Parsed data) → is_identity data = true →
      first = (data, file).
Proof.
  intros Hpub Hpriv Hsha first.
  assert (is_identity
            (obj [("version", JNum 1);
                  ("deviceId",
                   JStr (sha256hex (derivePublicKeyRaw publicKeyPem)));
                  ("publicKeyPem", JStr publicKeyPem);
                  ("privateKeyPem", JStr privateKeyPem);
                  ("createdAtMs", JNum (Z.of_N now))]) = true) as Hcreated.
  { unfold is_identity. rewrite optchain_Some. obj_lookup.
    cbn [truthy_prop truthy strict_eq].
    rewrite (bool_decide_eq_false_2 _ Hsha), (bool_decide_eq_false_2 _ Hpub),
      (bool_decide_eq_false_2 _ Hpriv).
    by rewrite bool_decide_eq_true_2. }
  assert (is_identity first.1 = true ∧ first.2 = Some (Parsed first.1))
    as [Hid Hfile].
  { subst first. unfold loadOrCreateIdentity. cbv zeta.
    destruct file as [[|data]|]; try done.
    destruct (is_identity data) eqn:Hd; done. }
  split_and!; [|exact Hid|exact Hfile|].
  - rewrite Hfile. unfold loadOrCreateIdentity at 1. cbv zeta.
    rewrite Hid, <- Hfile. by destruct first.
  - intros data -> Hd. subst first. unfold loadOrCreateIdentity.
    by rewrite Hd.
Qed.

End IdentityFacts.

(** ** Reading a signed payload back *)

Section PayloadFacts.
Import Payload.

Lemma includes_cons needle c s :
  includes needle (String c s)
  = String.prefix needle (String c s) || includes needle s.
Proof. reflexivity. Qed.

Lemma no_pipe_cons c s :
  no_pipe (String c s) = negb (Ascii.eqb c "|") && no_pipe s.
Proof.
  unfold no_pipe. rewrite includes_cons. cbn [String.prefix].
  destruct (ascii_dec "|" c) as [<-|Hc].
  - by destruct s.
  - destruct (Ascii.eqb_spec c "|") as [->|]; [done|]. done.
Qed.

Lemma no_pipe_app a b : no_pipe (a +:+ b) = no_pipe a && no_pipe b.
Proof.
  induction a as [|c a IH]; [done|].
  by rewrite append_cons, !no_pipe_cons, IH, andb_assoc.
Qed.

(** Two texts cut at their first ['|'] are cut at the same place. *)
Lemma cut_at_pipe a a' r r' :
  no_pipe a = true → no_pipe a' = true →
  a +:+ "|" +:+ r = a' +:+ "|" +:+ r' → a = a' ∧ r = r'.
Proof.
  revert a'. induction a as [|c a IH]; intros [|c' a'] Ha Ha' E.
  - by injection E.
  - rewrite no_pipe_cons in Ha'. injection E as <- _. done.
  - rewrite no_pipe_cons in Ha. injection E as -> _. done.
  - rewrite no_pipe_cons in Ha, Ha'.
    apply andb_true_iff in Ha as [_ Ha], Ha' as [_ Ha'].
    rewrite !append_cons in E. injection E as -> E.
    by destruct (IH a' Ha Ha' E) as [-> ->].
Qed.

Lemma no_pipe_uint d : no_pipe (NilEmpty.string_of_uint d) = true.
Proof. induction d; [done|..]; cbn [NilEmpty.string_of_uint];
  by rewrite no_pipe_cons, IHd. Qed.

Lemma no_pipe_String_of_N n : no_pipe (String_of_N n) = true.
Proof.
  unfold String_of_N, NilZero.string_of_uint.
  destruct (N.to_uint n); try apply no_pipe_uint. done.
Qed.

Lemma no_pipe_comma_joined scopes :
  forallb no_pipe scopes = true → no_pipe (Signer.comma_joined scopes) = true.
Proof.
  induction scopes as [|x [|y rest] IH]; intros Hs; [done|..].
  - cbn [forallb] in Hs. apply andb_true_iff in Hs as [Hx _].
    exact Hx.
  - change (Signer.comma_joined (x :: y :: rest))
      with (x +:+ "," +:+ Signer.comma_joined (y :: rest)).
    cbn [forallb] in Hs. apply andb_true_iff in Hs as [Hx Hs].
    rewrite !no_pipe_app, Hx, IH by done. done.
Qed.

Lemma payload_text p :
  Signer.buildDeviceAuthPayload p
  = "v1" +:+ "|" +:+ Signer.deviceId p +:+ "|" +:+ Signer.clientId p
    +:+ "|" +:+ Signer.clientMode p +:+ "|" +:+ Signer.role p
    +:+ "|" +:+ Signer.comma_joined (Signer.scopes p)
    +:+ "|" +:+ String_of_N (Signer.signedAtMs p)
    +:+ "|" +:+ token_text (Signer.token p).
Proof.
  unfold Signer.buildDeviceAuthPayload, token_text. cbv zeta.
  rewrite comma_joined_scopes. unfold Array_join.
  by destruct (nullish_or _ _).
Qed.

(** X21. The payload can be read back. When the device identifier, the
    client id, the client mode, the role and the scopes of two sets of
    parameters hold no ['|'], equal payloads have the same device, client
    id, client mode, role, joined scopes, signing time and token: a
    signature of one payload is a signature of these fields and of no
    others. *)
Theorem payload_determines_fields (p q : Signer.Params) :
  separable p = true → separable q = true →
  Signer.buildDeviceAuthPayload p = Signer.buildDeviceAuthPayload q →
  Signer.deviceId p = Signer.deviceId q
  ∧ Signer.clientId p = Signer.clientId q
  ∧ Signer.clientMode p = Signer.clientMode q
  ∧ Signer.role p = Signer.role q
  ∧ Signer.comma_joined (Signer.scopes p)
    = Signer.comma_joined (Signer.scopes q)
  ∧ Signer.signedAtMs p = Signer.signedAtMs q
  ∧ token_text (Signer.token p) = token_text (Signer.token q).
Proof.
  unfold separable. intros Hp Hq E.
  repeat (apply andb_true_iff in Hp as [Hp ?]).
  repeat (apply andb_true_iff in Hq as [Hq ?]).
  rewrite !payload_text in E.
  apply cut_at_pipe in E as [_ E]; [|done|done].
  apply cut_at_pipe in E as [-> E]; [|done|done].
  apply cut_at_pipe in E as [-> E]; [|done|done].
  apply cut_at_pipe in E as [-> E]; [|done|done].
  apply cut_at_pipe in E as [-> E]; [|done|done].
  apply cut_at_pipe in E as [-> E]; [|by apply no_pipe_comma_joined..].
  apply cut_at_pipe in E as [En ->]; [|apply no_pipe_String_of_N..].
  apply String_of_N_inj in En. by rewrite En.
Qed.

End PayloadFacts.

(** ** The encoding of keys and signatures *)

Section Base64UrlFacts.
Import Base64Url.

Lemma list_ind3 {A} (P : list A → Prop) :
  P [] → (∀ a, P [a]) → (∀ a b, P [a; b]) →
  (∀ a b c l, P l → P (a :: b :: c :: l)) → ∀ l, P l.
Proof.
  intros H0 H1 H2 H3. fix IH 1.
  intros [|a [|b [|c l]]]; [apply H0|apply H1|apply H2|apply H3, IH].
Qed.

Lemma byte_bound b : (Byte.to_N b < 256)%N.
Proof. pose proof (Byte.to_N_bounded b). lia. Qed.

Ltac divlia := intros; zify; Z.to_euclidean_division_equations; lia.

Lemma first_byte n0 n1 :
  (n0 < 256 → n1 < 256 →
   (n0 / 4) * 4 + ((n0 mod 4) * 16 + n1 / 16) / 16 = n0)%N.
Proof. divlia. Qed.

Lemma second_byte n0 n1 n2 :
  (n0 < 256 → n1 < 256 → n2 < 256 →
   (((n0 mod 4) * 16 + n1 / 16) mod 16) * 16
   + ((n1 mod 16) * 4 + n2 / 64) / 4 = n1)%N.
Proof. divlia. Qed.

Lemma third_byte n1 n2 :
  (n1 < 256 → n2 < 256 →
   (((n1 mod 16) * 4 + n2 / 64) mod 4) * 64 + n2 mod 64 = n2)%N.
Proof. divlia. Qed.

Lemma last_byte_of_one n0 :
  (n0 < 256 → (n0 / 4) * 4 + ((n0 mod 4) * 16) / 16 = n0)%N.
Proof. divlia. Qed.

Lemma last_byte_of_two n0 n1 :
  (n0 < 256 → n1 < 256 →
   (((n0 mod 4) * 16 + n1 / 16) mod 16) * 16 + ((n1 mod 16) * 4) / 4 = n1)%N.
Proof. divlia. Qed.

Lemma group_bounds n0 n1 n2 :
  (n0 < 256 → n1 < 256 → n2 < 256 →
   n0 / 4 < 64 ∧ (n0 mod 4) * 16 + n1 / 16 < 64
   ∧ (n1 mod 16) * 4 + n2 / 64 < 64 ∧ n2 mod 64 < 64
   ∧ (n0 mod 4) * 16 < 64 ∧ (n1 mod 16) * 4 < 64)%N.
Proof. divlia. Qed.

Lemma sextets_bytes buf : bytes_of (sextets buf) = map Byte.to_N buf.
Proof.
  induction buf as [|b0|b0 b1|b0 b1 b2 rest IH] using list_ind3.
  - done.
  - cbn [sextets bytes_of map].
    by rewrite last_byte_of_one by apply byte_bound.
  - cbn [sextets bytes_of map].
    by rewrite first_byte, last_byte_of_two by apply byte_bound.
  - cbn [sextets app bytes_of map].
    by rewrite first_byte, second_byte, third_byte, IH by apply byte_bound.
Qed.

Lemma sextets_bound buf : Forall (fun n => (n < 64)%N) (sextets buf).
Proof.
  induction buf as [|b0|b0 b1|b0 b1 b2 rest IH] using list_ind3;
    cbn [sextets app].
  - constructor.
  - destruct (group_bounds (Byte.to_N b0) 0 0) as (? & _ & _ & _ & ? & _);
      [apply byte_bound|done|done|]. by repeat constructor.
  - destruct (group_bounds (Byte.to_N b0) (Byte.to_N b1) 0)
      as (? & ? & _ & _ & _ & ?); [apply byte_bound|apply byte_bound|done|].
    by repeat constructor.
  - destruct (group_bounds (Byte.to_N b0) (Byte.to_N b1) (Byte.to_N b2))
      as (? & ? & ? & ? & _); [apply byte_bound..|].
    by repeat (constructor; [done|]).
Qed.

Lemma sextets_length buf :
  length (sextets buf) = (4 * length buf + 2) / 3.
Proof.
  induction buf as [|b0|b0 b1|b0 b1 b2 rest IH] using list_ind3;
    try reflexivity.
  cbn [sextets app length]. rewrite IH.
  replace (4 * S (S (S (length rest))) + 2)
    with ((4 * length rest + 2) + 4 * 3) by lia.
  rewrite Nat.div_add by lia. lia.
Qed.

Lemma letter_index n :
  (n < 64)%N →
  index_in (nth (N.to_nat n) alphabet "A"%char) alphabet = Some n.
Proof.
  intros Hn.
  assert (forallb (fun i =>
                     bool_decide
                       (index_in (nth i alphabet "A"%char) alphabet
                        = Some (N.of_nat i))) (seq 0 64) = true) as Hall
    by (vm_compute; reflexivity).
  rewrite forallb_forall in Hall.
  specialize (Hall (N.to_nat n)). rewrite N2Nat.id in Hall.
  eapply bool_decide_eq_true_1, Hall. apply in_seq. lia.
Qed.

Lemma letter_in n :
  (n < 64)%N → In (nth (N.to_nat n) alphabet "A"%char) alphabet.
Proof. intros Hn. apply nth_In. change (length alphabet) with 64. lia. Qed.

Lemma map_injective_below {A} (f : N → A) (g : A → option N) l l' :
  (∀ n, (n < 64)%N → g (f n) = Some n) →
  Forall (fun n => (n < 64)%N) l → Forall (fun n => (n < 64)%N) l' →
  map f l = map f l' → l = l'.
Proof.
  intros Hg Hl. revert l'. induction Hl as [|n l Hn Hl IH]; intros l' Hl' E.
  - by destruct l'.
  - destruct Hl' as [|n' l' Hn' Hl']; [done|]. cbn [map] in E.
    injection E as En E. f_equal; [|by apply IH].
    apply (f_equal g) in En. rewrite !Hg in En by done. by injection En.
Qed.

Lemma letters_injective l l' :
  Forall (fun n => (n < 64)%N) l → Forall (fun n => (n < 64)%N) l' →
  map (fun n => nth (N.to_nat n) alphabet "A"%char) l
  = map (fun n => nth (N.to_nat n) alphabet "A"%char) l' →
  l = l'.
Proof.
  apply (map_injective_below _ (fun c => index_in c alphabet)).
  intros n Hn. by apply letter_index.
Qed.

(** X22. The encoding can be read back. Two buffers with the same encoding
    are the same buffer; the encoding of [n] bytes has [(4n + 2) / 3]
    characters, all of them letters, digits, [-] or [_]: there is no
    padding, and nothing a URL would need to escape. *)
Theorem base64UrlEncode_is_unambiguous (buf : list Byte.byte) :
  (∀ buf', base64UrlEncode buf = base64UrlEncode buf' → buf = buf')
  ∧ String.length (base64UrlEncode buf) = (4 * length buf + 2) / 3
  ∧ Forall (fun c => In c alphabet)
      (list_ascii_of_string (base64UrlEncode buf)).
Proof.
  split_and!.
  - intros buf' E. unfold base64UrlEncode in E.
    apply (f_equal list_ascii_of_string) in E.
    rewrite !list_ascii_of_string_of_list_ascii in E.
    apply letters_injective in E; [|apply sextets_bound..].
    apply (f_equal bytes_of) in E. rewrite !sextets_bytes in E.
    revert buf' E. induction buf as [|b buf IH]; intros [|b' buf'] E;
      try done.
    injection E as Eb E. f_equal; [|by apply IH].
    apply (f_equal Byte.of_N) in Eb. rewrite !Byte.of_to_N in Eb.
    by injection Eb.
  - unfold base64UrlEncode.
    rewrite <- (sextets_length buf), <- (length_map
      (fun n => nth (N.to_nat n) alphabet "A"%char) (sextets buf)).
    generalize
      (map (fun n => nth (N.to_nat n) alphabet "A"%char) (sextets buf)).
    intros l. induction l as [|c l IH]; [done|]. cbn. by rewrite IH.
  - unfold base64UrlEncode. rewrite list_ascii_of_string_of_list_ascii.
    induction (sextets_bound buf) as [|n l Hn _ IH]; cbn [map];
      constructor; [by apply letter_in|exact IH].
Qed.

End Base64UrlFacts.

(** ** The statements on concrete runs *)

Section MoreExamples.
Import Scenario Cases Cli Startup Payload.

Local Abbreviation received msg := (EvMessage (Some msg)).

Lemma falsy_cached_token_is_not_retried_witness :
  let s := @run node (init config_empty_token) [EvOpen; received challenge] in
  let rejected := received (error_response "1" stale_rejection) in
  let e := VError (@JSON_stringify node stale_rejection) in
  let s' := @step node s rejected in
  (STORED_DEVICE_TOKEN config_empty_token ≠ JNull
   ∧ truthy (STORED_DEVICE_TOKEN config_empty_token) = false
   ∧ exited s = None
   ∧ outstanding s "1" "connect" 0 1
   ∧ awaiting s !! 0 = Some KConnect
   ∧ @rejection node "1" 1 "connect" rejected = Some e
   ∧ stale_token_error e = true
   ∧ connect_tokens s = [Some (STORED_DEVICE_TOKEN config_empty_token)])
  ∧ exited s' = Some EXIT_AUTH
  ∧ authFile s' = startFile config_empty_token
  ∧ connect_tokens s' = [Some (JStr EmptyString)].
Proof.
  intros s rejected e s'.
  assert (STORED_DEVICE_TOKEN config_empty_token ≠ JNull) as H0
    by (vm_compute; discriminate).
  assert (truthy (STORED_DEVICE_TOKEN config_empty_token) = false) as H1
    by (vm_compute; reflexivity).
  assert (exited s = None) as H2 by (vm_compute; reflexivity).
  assert (outstanding s "1" "connect" 0 1) as H3
    by (split; vm_compute; reflexivity).
  assert (awaiting s !! 0 = Some KConnect) as H4 by (vm_compute; reflexivity).
  assert (@rejection node "1" 1 "connect" rejected = Some e) as H5
    by (vm_compute; reflexivity).
  assert (stale_token_error e = true) as H6 by (vm_compute; reflexivity).
  assert (connect_tokens s = [Some (STORED_DEVICE_TOKEN config_empty_token)])
    as H7 by (vm_compute; reflexivity).
  split; [split_and!; assumption|].
  destruct (proj2 (@falsy_cached_token_is_not_retried node config_empty_token
                     [EvOpen; received challenge] H0 H1 H2)
              "1" 0 1 rejected e H3 H4 H5) as (Hex & Hfile & _).
  split; [exact Hex|]. split; [|vm_compute; reflexivity].
  etransitivity; [exact Hfile|]. vm_compute. reflexivity.
Defined.

Lemma payload_is_pipe_joined_witness :
  safe_integer 1700000000000 = true
  ∧ Signer.buildDeviceAuthPayload (params (Some (JStr "tok")))
    = "v1|dev|gateway-client|backend|operator|"
      +:+ "operator.read,operator.write,operator.admin,"
      +:+ "operator.approvals,operator.pairing|1700000000000|tok".
Proof.
  assert (safe_integer (Z.of_N 1700000000000) = true) as H0 by reflexivity.
  split; [exact H0|].
  etransitivity;
    [exact (proj1 (payload_is_pipe_joined "dev" "gateway-client" "backend"
                     ROLE SCOPES 1700000000000 (Some "tok") H0))|].
  vm_compute. reflexivity.
Defined.


Lemma only_connect_before_authentication_witness :
  let s := @run node (init config) retried in
  (forallb own_event retried = true ∧ authenticated s = false)
  ∧ Forall (fun f => get_prop f "method" = Some (JStr "connect"))
      (requests (trace s))
  ∧ length (requests (trace s)) = 2.
Proof.
  intros s.
  assert (forallb own_event retried = true) as H0 by reflexivity.
  assert (authenticated s = false) as H1 by (vm_compute; reflexivity).
  split; [by split|]. split.
  - exact (@only_connect_before_authentication node config retried H0 H1).
  - vm_compute. reflexivity.
Defined.

Lemma command_outcome_witness :
  let s := @run node (init config_status) status_called in
  let answer := ok_response "2" (obj [("version", JStr "2026.2.15")]) in
  let refusal := error_response "2" (JStr "busy") in
  (exited s = None ∧ outstanding s "2" "status" 1 2
   ∧ awaiting s !! 1 = Some KCommand
   ∧ is_response answer = true ∧ get_prop answer "id" = Some (JStr "2")
   ∧ is_response refusal = true ∧ get_prop refusal "id" = Some (JStr "2"))
  ∧ (trace (@step node s (received answer))
     = trace s ++ [Stdout (VJson (obj [("version", JStr "2026.2.15")]));
                   WsClose; Exit 0]
     ∧ exited (@step node s (received answer)) = Some 0%Z)
  ∧ (trace (@step node s (received refusal))
     = trace s ++ [Stderr ("Error: " +:+ @JSON_stringify node (JStr "busy"));
                   WsClose; Exit EXIT_OP]
     ∧ exited (@step node s (received refusal)) = Some EXIT_OP)
  ∧ (trace (@step node s (EvTimer 2))
     = trace s ++ [Stderr "Error: Timeout waiting for response to status";
                   WsClose; Exit EXIT_OP]
     ∧ exited (@step node s (EvTimer 2)) = Some EXIT_OP).
Proof.
  intros s answer refusal.
  assert (exited s = None) as H0 by (vm_compute; reflexivity).
  assert (outstanding s "2" "status" 1 2) as H1
    by (split; vm_compute; reflexivity).
  assert (awaiting s !! 1 = Some KCommand) as H2 by (vm_compute; reflexivity).
  assert (is_response answer = true) as H3 by reflexivity.
  assert (get_prop answer "id" = Some (JStr "2")) as H4 by reflexivity.
  assert (is_response refusal = true) as H5 by reflexivity.
  assert (get_prop refusal "id" = Some (JStr "2")) as H6 by reflexivity.
  split; [split_and!; assumption|].
  destruct (@command_outcome node config_status status_called "2" "status"
              1 2 H0 H1 H2) as [Hmsg Htimer].
  split; [exact (Hmsg answer H3 H4)|].
  split; [exact (Hmsg refusal H5 H6)|]. exact Htimer.
Defined.

Lemma close_fails_command_witness :
  let s := @run node (init config_status) status_called in
  (exited s = None ∧ authenticated s = true
   ∧ pending s = [("2", call_entry 1 2)]
   ∧ awaiting s !! 1 = Some KCommand)
  ∧ outcomes 1 (@step node s EvClose)
    = [Rejected (VError "Connection closed unexpectedly")]
  ∧ trace (@step node s EvClose)
    = trace s ++ [Stderr "Error: Connection closed unexpectedly";
                  Exit EXIT_OP]
  ∧ exited (@step node s EvClose) = Some EXIT_OP.
Proof.
  intros s.
  assert (exited s = None) as H0 by (vm_compute; reflexivity).
  assert (authenticated s = true) as H1 by (vm_compute; reflexivity).
  assert (pending s = [("2", call_entry 1 2)]) as H2
    by (vm_compute; reflexivity).
  assert (awaiting s !! 1 = Some KCommand) as H3 by (vm_compute; reflexivity).
  split; [split_and!; assumption|].
  exact (@close_fails_command node config_status status_called "2" 1 2
           H0 H1 H2 H3).
Defined.

Lemma response_named_send_wait_witness :
  let s := @run node (init config) until_waiting in
  let msg := ok_response "send-wait" (JStr "anything") in
  (waiting s (JStr "r1") 3 4 ∧ exited s = None
   ∧ awaiting s !! 3 = Some KSendWait
   ∧ is_response msg = true
   ∧ get_prop msg "id" = Some (JStr "send-wait"))
  ∧ trace (@step node s (received msg))
    = trace s ++ [Stdout (VJson (JStr "anything")); WsClose; Exit 0]
  ∧ exited (@step node s (received msg)) = Some 0%Z.
Proof.
  intros s msg.
  assert (waiting s (JStr "r1") 3 4) as H0
    by (unfold waiting; split_and!; vm_compute; reflexivity).
  assert (exited s = None) as H1 by (vm_compute; reflexivity).
  assert (awaiting s !! 3 = Some KSendWait) as H2 by (vm_compute; reflexivity).
  assert (is_response msg = true) as H3 by reflexivity.
  assert (get_prop msg "id" = Some (JStr "send-wait")) as H4 by reflexivity.
  split; [split_and!; assumption|].
  exact (@response_named_send_wait node config until_waiting (JStr "r1") 3 4
           msg H0 H1 H2 H3 H4).
Defined.

Lemma connect_request_ignores_nonce_witness :
  let s := @run node (init config) [EvOpen] in
  (is_challenge challenge = true ∧ is_challenge challenge' = true)
  ∧ challenge ≠ challenge'
  ∧ trace (@step node s (received challenge))
    = trace (@step node s (received challenge')).
Proof.
  intros s.
  assert (is_challenge challenge = true) as H0 by reflexivity.
  assert (is_challenge challenge' = true) as H1 by reflexivity.
  split; [by split|]. split.
  - intros E.
    apply (f_equal (fun m => optchain (get_prop m "data") "nonce")) in E.
    vm_compute in E. discriminate.
  - exact (proj1 (@connect_request_ignores_nonce node config [EvOpen]
                    challenge challenge' H0 H1)).
Defined.

Lemma connection_timeout_witness :
  let s := @run node (init config) [EvOpen; EvClock 1700000005000] in
  (exited s = None ∧ is_Some (timers s !! connTimer)
   ∧ is_challenge challenge = true)
  ∧ exited (@step node s (EvTimer connTimer)) = Some EXIT_CONN
  ∧ @step node (@step node s (received challenge)) (EvTimer connTimer)
    = @step node s (received challenge).
Proof.
  intros s.
  assert (exited s = None) as H0 by (vm_compute; reflexivity).
  assert (is_Some (timers s !! connTimer)) as H1
    by (eexists; vm_compute; reflexivity).
  assert (is_challenge challenge = true) as H2 by reflexivity.
  split; [split_and!; assumption|].
  destruct (@connection_timeout node config [EvOpen; EvClock 1700000005000])
    as (_ & Hfire & Hgone).
  split; [exact (proj2 (Hfire H0 H1))|]. exact (Hgone challenge [] H2).
Defined.

Lemma accepted_handshake_stores_token_witness :
  let s := @run node (init config) retried in
  let msg := hello "2" in
  let s' := @step node s (received msg) in
  (exited s = None ∧ outstanding s "2" "connect" 1 2
   ∧ awaiting s !! 1 = Some KRetry
   ∧ is_response msg = true ∧ get_prop msg "id" = Some (JStr "2")
   ∧ truthy_prop (get_prop msg "ok") = true
   ∧ optchain (optchain (get_prop msg "payload") "auth") "deviceToken"
     = Some (JStr "fresh")
   ∧ truthy (JStr "fresh") = true
   ∧ role_map_is_object "dev" (authFile s) = true)
  ∧ authenticated s' = true
  ∧ loadStoredDeviceToken "dev" ROLE (authFile s') = JStr "fresh"
  ∧ STORED_DEVICE_TOKEN
      {| IDENTITY := IDENTITY config; TOKEN := TOKEN config;
         command := CmdStatus; SEND_TIMEOUT := SEND_TIMEOUT config;
         url := url config; platform := platform config;
         uuid := uuid config; startFile := authFile s';
         startClock := 1700000100000 |}
    = JStr "fresh".
Proof.
  intros s msg s'.
  assert (exited s = None) as H0 by (vm_compute; reflexivity).
  assert (outstanding s "2" "connect" 1 2) as H1
    by (split; vm_compute; reflexivity).
  assert (awaiting s !! 1 = Some KRetry) as H2 by (vm_compute; reflexivity).
  assert (is_response msg = true) as H3 by reflexivity.
  assert (get_prop msg "id" = Some (JStr "2")) as H4 by reflexivity.
  assert (truthy_prop (get_prop msg "ok") = true) as H5 by reflexivity.
  assert (optchain (optchain (get_prop msg "payload") "auth") "deviceToken"
          = Some (JStr "fresh")) as H6 by reflexivity.
  assert (truthy (JStr "fresh") = true) as H7 by reflexivity.
  assert (role_map_is_object "dev" (authFile s) = true) as H8
    by (vm_compute; reflexivity).
  split; [split_and!; assumption|].
  destruct (@accepted_handshake_stores_token node config retried "2" 1 2
              KRetry msg (JStr "fresh") H0 H1 H2 (or_intror eq_refl)
              H3 H4 H5 H6 H7 H8) as (Ha & _ & Hl & _).
  split; [exact Ha|]. split; [exact Hl|]. exact Hl.
Defined.

Lemma primitive_role_map_fails_handshake_witness :
  let s := @run node (init config_number_map) [EvOpen; received challenge] in
  let msg := hello "1" in
  let s' := @step node s (received msg) in
  (exited s = None ∧ outstanding s "1" "connect" 0 1
   ∧ awaiting s !! 0 = Some KConnect
   ∧ is_response msg = true ∧ get_prop msg "id" = Some (JStr "1")
   ∧ truthy_prop (get_prop msg "ok") = true
   ∧ optchain (optchain (get_prop msg "payload") "auth") "deviceToken"
     = Some (JStr "fresh")
   ∧ truthy (JStr "fresh") = true
   ∧ authFile s = startFile config_number_map
   ∧ get_prop (obj [("version", JNum 1); ("deviceId", JStr "dev");
                    ("tokens", JNum 5)]) "tokens" = Some (JNum 5))
  ∧ exited s' = Some EXIT_AUTH
  ∧ trace s'
    = trace s
      ++ [Stderr ("Error: Authentication failed — "
                  +:+ "Cannot create property 'operator' on number '5'");
          Exit EXIT_AUTH].
Proof.
  intros s msg s'.
  assert (exited s = None) as H0 by (vm_compute; reflexivity).
  assert (outstanding s "1" "connect" 0 1) as H1
    by (split; vm_compute; reflexivity).
  assert (awaiting s !! 0 = Some KConnect) as H2 by (vm_compute; reflexivity).
  assert (is_response msg = true) as H3 by reflexivity.
  assert (get_prop msg "id" = Some (JStr "1")) as H4 by reflexivity.
  assert (truthy_prop (get_prop msg "ok") = true) as H5 by reflexivity.
  assert (optchain (optchain (get_prop msg "payload") "auth") "deviceToken"
          = Some (JStr "fresh")) as H6 by reflexivity.
  assert (truthy (JStr "fresh") = true) as H7 by reflexivity.
  assert (authFile s = startFile config_number_map) as H8
    by (vm_compute; reflexivity).
  assert (get_prop (obj [("version", JNum 1); ("deviceId", JStr "dev");
                         ("tokens", JNum 5)]) "tokens" = Some (JNum 5)) as H9
    by reflexivity.
  split; [split_and!; assumption|].
  exact (proj2 (@primitive_role_map_fails_handshake node config_number_map
                  [EvOpen; received challenge] "1" 0 1 msg (JStr "fresh")
                  (obj [("version", JNum 1); ("deviceId", JStr "dev");
                        ("tokens", JNum 5)])
                  (JNum 5) H0 H1 H2 H3 H4 H5 H6 H7 eq_refl H8 eq_refl H9
                  eq_refl)).
Defined.

Lemma store_replaces_foreign_record_witness :
  let file := startFile config in
  ("operator" ≠ "__proto__"
   ∧ loadStoredDeviceToken "dev" "operator" file = JStr "stale")
  ∧ ∃ file',
      storeDeviceToken "other-device" "operator" (JStr "tok") (JArr []) 5 file
      = inr file'
      ∧ loadStoredDeviceToken "dev" "operator" file' = JNull
      ∧ loadStoredDeviceToken "dev" "node" file' = JNull.
Proof.
  intros file.
  assert ("operator" ≠ "__proto__") as H0 by discriminate.
  split; [split; [exact H0|vm_compute; reflexivity]|].
  destruct (store_replaces_foreign_record "other-device" "operator"
              (JStr "tok") (JArr []) 5 file H0 eq_refl) as [Hs Hl].
  eexists. split; [exact Hs|]. split.
  - apply Hl. left. discriminate.
  - apply Hl. left. discriminate.
Defined.

Lemma accepted_command_is_well_formed_witness :
  let cliArgs := ["history"; "agent:main:s1"; "5abc"] in
  validate cliArgs = Accepted
  ∧ ∃ cmd,
      command_of cliArgs = Some cmd
      ∧ cmd = CmdHistory "agent:main:s1" (Some 5%Z).
Proof.
  intros cliArgs.
  assert (validate cliArgs = Accepted) as H0 by (vm_compute; reflexivity).
  split; [exact H0|].
  destruct (accepted_command_is_well_formed cliArgs H0)
    as [(cmd & Hc & _) | (key & limit & Hargs & _ & Hinf)].
  - exists cmd. split; [exact Hc|].
    assert (command_of cliArgs = Some (CmdHistory "agent:main:s1" (Some 5%Z)))
      as Hc' by (vm_compute; reflexivity).
    rewrite Hc in Hc'. by injection Hc'.
  - injection Hargs as _ <-. vm_compute in Hinf. discriminate Hinf.
Defined.

Lemma unknown_command_witness :
  (¬ In "toString" (map fst COMMANDS) ∧ ¬ In "help" (map fst COMMANDS))
  ∧ validate ["toString"]
    = Uncaught "Cannot read properties of undefined (reading '0')"
  ∧ validate ["help"] = Usage usage_text.
Proof.
  assert (∀ name, forallb (fun k => negb (String.eqb name k))
                    (map fst COMMANDS) = true →
                  ¬ In name (map fst COMMANDS)) as Hnot.
  { intros name Hall Hin. rewrite forallb_forall in Hall.
    specialize (Hall _ Hin). by rewrite String.eqb_refl in Hall. }
  assert (¬ In "toString" (map fst COMMANDS)) as H0
    by (apply Hnot; vm_compute; reflexivity).
  assert (¬ In "help" (map fst COMMANDS)) as H1
    by (apply Hnot; vm_compute; reflexivity).
  split; [by split|]. split.
  - exact (unknown_command "toString" [] H0).
  - exact (unknown_command "help" [] H1).
Defined.

Lemma history_limit_leading_digits_witness :
  (key_ok "agent:main:s1" = true ∧ (1 <= 5)%N ∧ digits ".9" = EmptyString
   ∧ safe_integer 5 = true)
  ∧ validate ["history"; "agent:main:s1"; "5.9"] = Accepted
  ∧ command_of ["history"; "agent:main:s1"; "5.9"]
    = Some (CmdHistory "agent:main:s1" (Some 5%Z)).
Proof.
  assert (key_ok "agent:main:s1" = true) as H0 by reflexivity.
  assert (1 <= 5)%N as H1 by lia.
  assert (digits ".9" = EmptyString) as H2 by reflexivity.
  assert (safe_integer (Z.of_N 5) = true) as H3 by reflexivity.
  split; [split_and!; assumption|].
  destruct (history_limit_leading_digits "agent:main:s1" 5 ".9" H0 H1 H2)
    as (Hv & Hsent).
  split; [exact Hv|exact (proj1 (Hsent H3))].
Defined.

Lemma gateway_token_is_not_empty_witness :
  readToken env "/home/u/.openclaw/openclaw.json" (Config openclaw_json)
  = Token "secret"
  ∧ "secret" ≠ EmptyString.
Proof.
  assert (readToken env "/home/u/.openclaw/openclaw.json"
            (Config openclaw_json) = Token "secret") as H0
    by (vm_compute; reflexivity).
  split; [exact H0|]. exact (gateway_token_is_not_empty _ _ _ _ H0).
Defined.

Lemma config_token_reference_witness :
  (env !! "OPENCLAW_GATEWAY_TOKEN" = None
   ∧ optchain (optchain (optchain (Some openclaw_json) "gateway") "auth")
       "token" = Some (JStr "${MY_TOKEN}")
   ∧ "${MY_TOKEN}" ≠ EmptyString
   ∧ has_LineTerminator "MY_TOKEN" = false)
  ∧ readToken env "/home/u/.openclaw/openclaw.json" (Config openclaw_json)
    = Token "secret"
  ∧ readToken ∅ "/home/u/.openclaw/openclaw.json" (Config openclaw_json)
    = Died "Error: Env var MY_TOKEN referenced in gateway.auth.token is not set".
Proof.
  assert (env !! "OPENCLAW_GATEWAY_TOKEN" = None) as H0
    by (vm_compute; reflexivity).
  assert (optchain (optchain (optchain (Some openclaw_json) "gateway") "auth")
            "token" = Some (JStr "${MY_TOKEN}")) as H1
    by (vm_compute; reflexivity).
  assert ("${MY_TOKEN}" ≠ EmptyString) as H2 by discriminate.
  assert (has_LineTerminator "MY_TOKEN" = false) as H3 by reflexivity.
  split; [split_and!; assumption|].
  split.
  - destruct (config_token_reference env "/home/u/.openclaw/openclaw.json"
                openclaw_json "${MY_TOKEN}" (or_introl H0) H1 H2) as [Href _].
    rewrite (Href "MY_TOKEN" eq_refl ltac:(discriminate) H3).
    vm_compute. reflexivity.
  - destruct (config_token_reference ∅ "/home/u/.openclaw/openclaw.json"
                openclaw_json "${MY_TOKEN}" (or_introl (lookup_empty _)) H1 H2)
      as [Href _].
    rewrite (Href "MY_TOKEN" eq_refl ltac:(discriminate) H3).
    vm_compute. reflexivity.
Defined.

Lemma identity_is_created_once_witness :
  let first := @loadOrCreateIdentity node sha256hex "PUB" "PRIV" 5 None in
  ("PUB" ≠ EmptyString ∧ "PRIV" ≠ EmptyString
   ∧ sha256hex (@derivePublicKeyRaw node "PUB") ≠ EmptyString)
  ∧ @loadOrCreateIdentity node sha256hex "PUB2" "PRIV2" 9 first.2 = first
  ∧ get_prop first.1 "deviceId" = Some (JStr "sha256:PUB").
Proof.
  intros first.
  assert ("PUB" ≠ EmptyString) as H0 by discriminate.
  assert ("PRIV" ≠ EmptyString) as H1 by discriminate.
  assert (sha256hex (@derivePublicKeyRaw node "PUB") ≠ EmptyString) as H2
    by discriminate.
  split; [split_and!; assumption|].
  destruct (@identity_is_created_once node sha256hex "PUB" "PRIV" 5
              "PUB2" "PRIV2" 9 None H0 H1 H2) as (Hagain & _).
  split; [exact Hagain|]. vm_compute. reflexivity.
Defined.

Lemma payload_determines_fields_witness :
  let p := params None in
  let q := params (Some (JStr EmptyString)) in
  (separable p = true ∧ separable q = true
   ∧ Signer.buildDeviceAuthPayload p = Signer.buildDeviceAuthPayload q)
  ∧ Signer.signedAtMs p = Signer.signedAtMs q
  ∧ token_text (Signer.token p) = token_text (Signer.token q).
Proof.
  intros p q.
  assert (separable p = true) as H0 by (vm_compute; reflexivity).
  assert (separable q = true) as H1 by (vm_compute; reflexivity).
  assert (Signer.buildDeviceAuthPayload p = Signer.buildDeviceAuthPayload q)
    as H2 by (vm_compute; reflexivity).
  split; [split_and!; assumption|].
  destruct (payload_determines_fields p q H0 H1 H2)
    as (_ & _ & _ & _ & _ & Hn & Ht).
  split; [exact Hn|exact Ht].
Defined.

End MoreExamples.
